(** * import-aseprite: the Aseprite decoder and asset reducer of [vite.ts]

    A shallow embedding of [src/import-aseprite/vite.ts].  Byte buffers are
    lists of bytes, JavaScript numbers that stay integral are [Z], strings
    are lists of UTF-16 code units, a thrown exception is the [Throw] branch
    of [Js.result].  The collaborators that live outside the repository
    (UTF-8 decoding of [Buffer.toString], [zlib.inflateSync], [crc32] and
    [bin-pack]) are parameters of the development. *)

From Stdlib Require Import ZArith Bool Lia Strings.Byte String Ascii.
From Stdlib Require Import List.
Import ListNotations.
Open Scope Z_scope.

(* ================================================================== *)
(** * The JavaScript runtime, as far as the importer uses it *)
(* ================================================================== *)

Module Js.

(** What a [throw] carries.  The importer never catches, so only the class
    of an exception of the runtime is kept, not its message: the message
    of Node's RangeError gives the offset that was passed to the read and
    the range allowed, and is not modelled.  The errors that the importer
    constructs itself keep their message. *)
Inductive exn : Type :=
| RangeError                 (* a Buffer read outside the buffer *)
| TypeError                  (* a property read on [undefined] *)
| Error (message : string)   (* [throw new Error(message)] *)
| ZlibError.                 (* [zlib.inflateSync] rejected its input *)

Inductive result (A : Type) : Type :=
| Ok (a : A)
| Throw (e : exn).
Arguments Ok {A} a.
Arguments Throw {A} e.

Definition bind {A B : Type} (c : result A) (k : A -> result B) : result B :=
  match c with
  | Ok a => k a
  | Throw e => Throw e
  end.

(** [x.f] where [x] may be [undefined]. *)
Definition defined {A : Type} (o : option A) : result A :=
  match o with
  | Some a => Ok a
  | None => Throw TypeError
  end.

(** ** Integer conversions *)

(** [ToInt16] / [ToInt32]: two's complement wrap-around to [w] bits. *)
Definition wrap (w : Z) (v : Z) : Z :=
  (v + 2 ^ (w - 1)) mod 2 ^ w - 2 ^ (w - 1).

Definition toInt16 : Z -> Z := wrap 16.
Definition toInt32 : Z -> Z := wrap 32.

(** [a << n] on numbers: the shift count is taken modulo 32 and the result
    is an int32. *)
Definition shl (a n : Z) : Z := toInt32 (Z.shiftl (toInt32 a) (n mod 32)).

(** [a | b] on numbers. *)
Definition bor (a b : Z) : Z := toInt32 (Z.lor (toInt32 a) (toInt32 b)).

(** ** Strings: sequences of UTF-16 code units *)

Definition jsstring : Type := list Z.

Definition js (s : string) : jsstring :=
  map (fun a => Z.of_N (N_of_ascii a)) (list_ascii_of_string s).

Definition jsstring_eqb (s t : jsstring) : bool :=
  if list_eq_dec Z.eq_dec s t then true else false.

(** [s.split(sep)] for a one-unit separator: never the empty list. *)
Fixpoint split (sep : Z) (s : jsstring) : list jsstring :=
  match s with
  | [] => [[]]
  | c :: s' =>
      if c =? sep then [] :: split sep s'
      else match split sep s' with
           | [] => [[c]]
           | t :: ts => (c :: t) :: ts
           end
  end.

(** ECMAScript WhiteSpace and LineTerminator code units. *)
Definition isWhiteSpace (c : Z) : bool :=
  existsb (Z.eqb c)
    [0x9; 0xA; 0xB; 0xC; 0xD; 0x20; 0xA0; 0x1680; 0x2028; 0x2029; 0x202F;
     0x205F; 0x3000; 0xFEFF]
  || ((0x2000 <=? c) && (c <=? 0x200A)).

Fixpoint dropWhile {A : Type} (p : A -> bool) (l : list A) : list A :=
  match l with
  | [] => []
  | a :: l' => if p a then dropWhile p l' else l
  end.

(** [s.trim()] *)
Definition trim (s : jsstring) : jsstring :=
  rev (dropWhile isWhiteSpace (rev (dropWhile isWhiteSpace s))).

(** ** Buffers *)

Definition Buffer : Type := list byte.

Definition byteZ (b : byte) : Z := Z.of_N (Byte.to_N b).

Definition byteLength (b : Buffer) : Z := Z.of_nat (length b).

(** [b[i]]: [None] is [undefined]. *)
Definition index (b : Buffer) (i : Z) : option Z :=
  if i <? 0 then None else option_map byteZ (nth_error b (Z.to_nat i)).

(** Node's [adjustOffset]: a negative offset counts from the end. *)
Definition adjustOffset (offset len : Z) : Z :=
  if offset <? 0 then Z.max (offset + len) 0 else Z.min offset len.

(** [b.subarray(start, end)]: both ends are clamped, never throws. *)
Definition subarray (b : Buffer) (start end_ : Z) : Buffer :=
  let len := byteLength b in
  let s := adjustOffset start len in
  let e := adjustOffset end_ len in
  firstn (Z.to_nat (e - s)) (skipn (Z.to_nat s) b).

(** [b.subarray(start)] *)
Definition subarrayFrom (b : Buffer) (start : Z) : Buffer :=
  subarray b start (byteLength b).

Definition readUint16LE (b : Buffer) (offset : Z) : result Z :=
  match index b offset, index b (offset + 1) with
  | Some first, Some last => Ok (first + last * 2 ^ 8)
  | _, _ => Throw RangeError
  end.

Definition readInt16LE (b : Buffer) (offset : Z) : result Z :=
  match readUint16LE b offset with
  | Ok v => Ok (if v <? 2 ^ 15 then v else v - 2 ^ 16)
  | Throw e => Throw e
  end.

Definition readUint32LE (b : Buffer) (offset : Z) : result Z :=
  match index b offset, index b (offset + 1), index b (offset + 2),
        index b (offset + 3) with
  | Some b0, Some b1, Some b2, Some b3 =>
      Ok (b0 + b1 * 2 ^ 8 + b2 * 2 ^ 16 + b3 * 2 ^ 24)
  | _, _, _, _ => Throw RangeError
  end.

(** ** Objects used as string-keyed maps *)

(** An object built by [Object.fromEntries], as the list of its own
    properties in the order of their creation; a repeated key keeps its
    place and takes the later value.  Only lookups ([o[k]], [k in o]) are
    read off this list.  The order in which JavaScript enumerates the keys
    (integer-like keys first, ascending, then the others as created; it
    shows in [JSON.stringify]) is not modelled. *)
Definition object (V : Type) : Type := list (jsstring * V).

Fixpoint setProperty {V : Type} (o : object V) (k : jsstring) (v : V)
  : object V :=
  match o with
  | [] => [(k, v)]
  | (k', v') :: o' =>
      if jsstring_eqb k' k then (k, v) :: o'
      else (k', v') :: setProperty o' k v
  end.

Definition fromEntries {V : Type} (entries : list (jsstring * V)) : object V :=
  fold_left (fun o kv => setProperty o (fst kv) (snd kv)) entries [].

Fixpoint getOwn {V : Type} (o : object V) (k : jsstring) : option V :=
  match o with
  | [] => None
  | (k', v) :: o' => if jsstring_eqb k' k then Some v else getOwn o' k
  end.

(** The string-keyed properties every plain object inherits from
    [Object.prototype]. *)
Definition objectPrototypeKeys : list jsstring :=
  map js
    ["constructor"; "__defineGetter__"; "__defineSetter__"; "hasOwnProperty";
     "__lookupGetter__"; "__lookupSetter__"; "isPrototypeOf";
     "propertyIsEnumerable"; "toString"; "valueOf"; "__proto__";
     "toLocaleString"]%string.

Definition inherited (k : jsstring) : bool :=
  existsb (jsstring_eqb k) objectPrototypeKeys.

(** [k in o] *)
Definition hasProperty {V : Type} (o : object V) (k : jsstring) : bool :=
  match getOwn o k with
  | Some _ => true
  | None => inherited k
  end.

(** ** Insertion-ordered [Set] and [Map] *)

Fixpoint setAdd {A : Type} (eqb : A -> A -> bool) (s : list A) (a : A)
  : list A :=
  match s with
  | [] => [a]
  | b :: s' => if eqb b a then s else b :: setAdd eqb s' a
  end.

(** [new Set(iterable)] *)
Definition setOf {A : Type} (eqb : A -> A -> bool) (l : list A) : list A :=
  fold_left (setAdd eqb) l [].

Fixpoint mapSet {K V : Type} (eqb : K -> K -> bool) (m : list (K * V))
  (k : K) (v : V) : list (K * V) :=
  match m with
  | [] => [(k, v)]
  | (k', v') :: m' =>
      if eqb k' k then (k, v) :: m' else (k', v') :: mapSet eqb m' k v
  end.

Fixpoint mapGet {K V : Type} (eqb : K -> K -> bool) (m : list (K * V))
  (k : K) : option V :=
  match m with
  | [] => None
  | (k', v) :: m' => if eqb k' k then Some v else mapGet eqb m' k
  end.

(** [a[i] = v] on an array in range; out of range is modelled per use. *)
Fixpoint setNth {A : Type} (l : list A) (i : nat) (a : A) : list A :=
  match l, i with
  | [], _ => []
  | _ :: l', O => a :: l'
  | b :: l', S i' => b :: setNth l' i' a
  end.

End Js.

Import Js.

Declare Scope js_scope.
Notation "x <- c ;; k" := (Js.bind c (fun x => k))
  (at level 61, c at next level, right associativity) : js_scope.
Open Scope js_scope.

(* ================================================================== *)
(** * The decoded scene graph *)
(* ================================================================== *)

(** [AseUserData] *)
Module UserData.
Record t : Type := mk {
  text : option jsstring;
  color : option (list Z)
}.
End UserData.

(** The [data] of an [AseLayerChunk] *)
Module Layer.
Record data : Type := mk {
  visible : bool;
  editable : bool;
  lock : bool;
  background : bool;
  prefer_linked : bool;
  collapsed : bool;
  reference : bool;
  layer_type : Z;
  child_level : Z;
  default_width : Z;
  default_height : Z;
  blend_mode : Z;
  opacity : Z;
  name : jsstring
}.
End Layer.

(** An entry of [AseTagsChunk.tags]; a byte read past the end of the chunk
    is [undefined], here [None]. *)
Module Tag.
Record t : Type := mk {
  from : Z;
  to : Z;
  loop_type : option Z;
  repeat : Z;
  color : list (option Z);
  name : jsstring
}.
End Tag.

(** [AseCelChunk] *)
Module Cel.
Record t : Type := mk {
  layeridx : Z;
  x : Z;
  y : Z;
  opacity : option Z;
  zindex : Z;
  celtype : Z;
  width : Z;
  height : Z;
  pixels : Buffer
}.
End Cel.

(** The variants of [AseChunk] that the decoder builds. *)
Inductive ChunkBody : Type :=
| OldPalette (table : list (option Z * option Z * option Z))
| LayerChunk (data : Layer.data)
| CelChunk (cel : Cel.t)
| ColorProfile (color_type : Z) (gamma : Z) (specialFixedGamma : bool)
| TagsChunk (tags : list Tag.t).

(** [AseChunk]: a variant and the optional [userdata] array. *)
Record AseChunk : Type := mkChunk {
  body : ChunkBody;
  userdata : option (list UserData.t)
}.

(** The [type] field of a chunk. *)
Definition chunkType (c : AseChunk) : Z :=
  match body c with
  | OldPalette _ => 0x0004
  | LayerChunk _ => 0x2004
  | CelChunk _ => 0x2005
  | ColorProfile _ _ _ => 0x2007
  | TagsChunk _ => 0x2018
  end.

Record AseFrame : Type := mkFrame {
  duration : Z;
  chunks : list AseChunk
}.

(** The fields of [headerParser] ([typed-struct], little endian, at the
    offsets the declaration order gives them).  The grid and reserved
    fields, which nothing reads, are left out. *)
Record ASEHeader : Type := mkHeader {
  size : Z;
  magic : Z;
  frame_count : Z;
  width : Z;
  height : Z;
  depth : Z;
  flags : Z;
  speed_deprecated : Z;
  transparent_palette_index : Z;
  color_number : Z;
  pixel_width : Z;
  pixel_height : Z
}.

(** The fields of [frameParser]. *)
Record ASEFrame : Type := mkFrameHeader {
  frame_size : Z;
  frame_magic : Z;
  chunk_count_old : Z;
  frame_duration : Z;
  chunk_count : Z
}.

(** What [parseFile] returns; [types] holds the unrecognised chunk types
    in first-seen order (the source renders them in hexadecimal). *)
Record ParsedFile : Type := mkParsed {
  header : ASEHeader;
  frames : list AseFrame;
  types : list Z
}.

(* ================================================================== *)
(** * The format decoder *)
(* ================================================================== *)

Section Decoder.

(** [Buffer.prototype.toString()]: UTF-8 decoding, outside the repository. *)
Variable toString : Buffer -> jsstring.
(** [zlib.inflateSync], outside the repository; it throws on bad input. *)
Variable inflateSync : Buffer -> result Buffer.

(** The constructors that [typed-struct] compiles from the two field lists
    ([typed-struct] is outside the repository): a buffer shorter than the
    declared fields (124 and 14 bytes) is refused, otherwise each field is
    read little endian at the offset its declaration order gives it. *)
Definition headerParser (raw : Buffer) : result ASEHeader :=
  if byteLength raw <? 124 then Throw TypeError
  else
    size <- readUint32LE raw 0 ;;
    magic <- readUint16LE raw 4 ;;
    frame_count <- readUint16LE raw 6 ;;
    width <- readUint16LE raw 8 ;;
    height <- readUint16LE raw 10 ;;
    depth <- readUint16LE raw 12 ;;
    flags <- readUint32LE raw 14 ;;
    speed <- readUint16LE raw 18 ;;
    tpi <- defined (index raw 24) ;;
    color_number <- readUint16LE raw 28 ;;
    pw <- defined (index raw 30) ;;
    ph <- defined (index raw 31) ;;
    Ok (mkHeader size magic frame_count width height depth flags speed tpi
          color_number pw ph).

Definition frameParser (raw : Buffer) : result ASEFrame :=
  if byteLength raw <? 14 then Throw TypeError
  else
    size <- readUint32LE raw 0 ;;
    magic <- readUint16LE raw 4 ;;
    chunk_count_old <- readUint16LE raw 6 ;;
    frame_duration <- readUint16LE raw 8 ;;
    chunk_count <- readUint16LE raw 12 ;;
    Ok (mkFrameHeader size magic chunk_count_old frame_duration chunk_count).

(** [parseColorProfile]: both reads are at offset 0. *)
Definition parseColorProfile (buffer : Buffer) : result ChunkBody :=
  cp <- readUint16LE buffer 0 ;;
  flags <- readUint16LE buffer 0 ;;
  Ok (ColorProfile cp 0 (Z.land flags 1 =? 1)).

(** The inner loop of [parseOldPalette]: [n] entries from [ptr]; a skipped
    entry still moves the cursor.  [skip] is [None] once it is NaN. *)
Fixpoint paletteEntries (buffer : Buffer) (n : nat) (ptr : Z)
  (skip : option Z) (table : list (option Z * option Z * option Z))
  : Z * list (option Z * option Z * option Z) :=
  match n with
  | O => (ptr, table)
  | S n' =>
      let skipped := match skip with Some s => 0 <? s | None => false end in
      let skip' := option_map (fun s => s - 1) skip in
      if skipped then paletteEntries buffer n' (ptr + 3) skip' table
      else
        paletteEntries buffer n' (ptr + 3) skip'
          (table ++ [(index buffer ptr, index buffer (ptr + 1),
                      index buffer (ptr + 2))])
  end.

Fixpoint palettePackets (buffer : Buffer) (n : nat) (ptr : Z)
  (table : list (option Z * option Z * option Z))
  : list (option Z * option Z * option Z) :=
  match n with
  | O => table
  | S n' =>
      let skip := index buffer ptr in
      let entries_count :=
        match index buffer (ptr + 1) with
        | Some 0 | None => 256
        | Some k => k
        end in
      let '(ptr', table') :=
        paletteEntries buffer (Z.to_nat entries_count) ptr skip table in
      palettePackets buffer n' (ptr' + 2) table'
  end.

Definition parseOldPalette (buffer : Buffer) : result ChunkBody :=
  packet_number <- readUint16LE buffer 0 ;;
  Ok (OldPalette (palettePackets buffer (Z.to_nat packet_number) 2 [])).

(** [readPstring]: a signed 16-bit length, then that many bytes. *)
Definition readPstring (b : Buffer) (off : Z) : result jsstring :=
  len <- readInt16LE b off ;;
  Ok (toString (subarray b (off + 2) (off + 2 + len))).

Definition parseLayer (buffer : Buffer) : result ChunkBody :=
  flags <- readUint16LE buffer 0 ;;
  name <- readPstring buffer 16 ;;
  Ok (LayerChunk
        (Layer.mk (negb (Z.land flags 1 =? 0)) (negb (Z.land flags 2 =? 0))
           (negb (Z.land flags 4 =? 0)) (negb (Z.land flags 8 =? 0))
           (negb (Z.land flags 16 =? 0)) (negb (Z.land flags 32 =? 0))
           (negb (Z.land flags 64 =? 0))
           0 0 0 0 0 255 name)).

Fixpoint parseTags (b : Buffer) (n : nat) (ptr : Z) (tags : list Tag.t)
  : result (list Tag.t) :=
  match n with
  | O => Ok tags
  | S n' =>
      from <- readInt16LE b (ptr + 0) ;;
      to <- readInt16LE b (ptr + 2) ;;
      let loop_type := index b (ptr + 4) in
      repeat <- readInt16LE b (ptr + 5) ;;
      let ptr := ptr + 7 + 6 in
      let color := [index b (ptr + 0); index b (ptr + 1); index b (ptr + 2)] in
      let ptr := ptr + 3 + 1 in
      name <- readPstring b ptr ;;
      parseTags b n' (ptr + (Z.of_nat (length name) + 2))
        (tags ++ [Tag.mk from to loop_type repeat color name])
  end.

Definition parseTagsChunk (b : Buffer) : result ChunkBody :=
  tag_count <- readInt16LE b 0 ;;
  tags <- parseTags b (Z.to_nat tag_count) 10 [] ;;
  Ok (TagsChunk tags).

Definition parseUserData (b : Buffer) : result UserData.t :=
  flags <- readUint32LE b 0 ;;
  let ptr := 4 in
  text_ptr <-
    (if negb (Z.land flags 1 =? 0) then
       text <- readPstring b ptr ;;
       Ok (Some text, ptr + (2 + Z.of_nat (length text)))
     else Ok (None, ptr)) ;;
  let '(text, ptr) := text_ptr in
  let color :=
    if negb (Z.land flags 2 =? 0)
    then Some (map byteZ (subarray b ptr (ptr + 4)))
    else None in
  Ok (UserData.mk text color).

(** [chunks.find(e => e.type == 0x2005 && e.layeridx == layeridx)] *)
Definition findCel (layeridx : Z) (chunks : list AseChunk) : option Cel.t :=
  match
    find (fun e => match body e with
                   | CelChunk c => Cel.layeridx c =? layeridx
                   | _ => false
                   end) chunks
  with
  | Some (mkChunk (CelChunk c) _) => Some c
  | _ => None
  end.

Definition parseCel (b : Buffer) (previousFrames : list AseFrame)
  : result ChunkBody :=
  layeridx <- readUint16LE b 0 ;;
  x <- readInt16LE b 2 ;;
  y <- readInt16LE b 4 ;;
  let opacity := index b 6 in
  celtype <- readInt16LE b 7 ;;
  zindex <- readInt16LE b 9 ;;
  let rest := subarrayFrom b 16 in
  match celtype with
  | 0 =>
      width <- readUint16LE rest 0 ;;
      height <- readUint16LE rest 2 ;;
      Ok (CelChunk (Cel.mk layeridx x y opacity zindex celtype width height
                      (subarrayFrom rest 4)))
  | 1 =>
      frameidx <- readUint16LE rest 0 ;;
      originFrame <- defined (nth_error previousFrames (Z.to_nat frameidx)) ;;
      originCell <- defined (findCel layeridx (chunks originFrame)) ;;
      Ok (CelChunk (Cel.mk layeridx (Cel.x originCell) (Cel.y originCell)
                      opacity zindex 1 (Cel.width originCell)
                      (Cel.height originCell) (Cel.pixels originCell)))
  | 2 =>
      width <- readUint16LE rest 0 ;;
      height <- readUint16LE rest 2 ;;
      pixels <- inflateSync (subarrayFrom rest 4) ;;
      Ok (CelChunk (Cel.mk layeridx x y opacity zindex celtype width height
                      pixels))
  | _ => Throw (Error "Unsupported cel type")
  end.

(** The state of the chunk loop of one frame: the file cursor [ptr], the
    frame's [chunks] so far, [pchunk] as the position in [chunks] of the
    chunk object it refers to, and the set [seentypes]. *)
Record ChunkLoop : Type := mkLoop {
  ptr : Z;
  loop_chunks : list AseChunk;
  pchunk : option nat;
  seentypes : list Z
}.

(** [pchunk.userdata ||= []; pchunk.userdata.push(ud)] on the chunk object
    at position [i] of the frame's array. *)
Definition pushUserData (chunks : list AseChunk) (i : nat) (ud : UserData.t)
  : list AseChunk :=
  match nth_error chunks i with
  | Some c =>
      let old := match userdata c with Some l => l | None => [] end in
      setNth chunks i (mkChunk (body c) (Some (old ++ [ud])))
  | None => chunks
  end.

(** [chunks.push(chunk); if (upd) pchunk = chunk; ptr += chunksize] *)
Definition pushChunk (st : ChunkLoop) (chunksize : Z) (chunk : ChunkBody)
  : ChunkLoop :=
  mkLoop (ptr st + chunksize)
    (loop_chunks st ++ [mkChunk chunk None])
    (Some (length (loop_chunks st)))
    (seentypes st).

(** One turn of the loop over the chunks of a frame. *)
Definition parseChunk (buffer : Buffer) (frames : list AseFrame)
  (st : ChunkLoop) : result ChunkLoop :=
  chunksize <- readUint32LE buffer (ptr st) ;;
  chunk_type <- readUint16LE buffer (ptr st + 4) ;;
  let data := subarray buffer (ptr st + 6) (ptr st + chunksize) in
  match chunk_type with
  | 0x0004 =>
      chunk <- parseOldPalette data ;; Ok (pushChunk st chunksize chunk)
  | 0x2004 =>
      chunk <- parseLayer data ;; Ok (pushChunk st chunksize chunk)
  | 0x2005 =>
      chunk <- parseCel data frames ;; Ok (pushChunk st chunksize chunk)
  | 0x2007 =>
      chunk <- parseColorProfile data ;; Ok (pushChunk st chunksize chunk)
  | 0x2018 =>
      chunk <- parseTagsChunk data ;; Ok (pushChunk st chunksize chunk)
  | 0x2020 =>
      match pchunk st with
      | Some i =>
          ud <- parseUserData data ;;
          Ok (mkLoop (ptr st + chunksize)
                (pushUserData (loop_chunks st) i ud) (pchunk st)
                (seentypes st))
      | None =>
          Ok (mkLoop (ptr st + chunksize) (loop_chunks st) (pchunk st)
                (seentypes st))
      end
  | _ =>
      Ok (mkLoop (ptr st + chunksize) (loop_chunks st) (pchunk st)
            (setAdd Z.eqb (seentypes st) chunk_type))
  end.

Fixpoint parseChunks (buffer : Buffer) (frames : list AseFrame) (n : nat)
  (st : ChunkLoop) : result ChunkLoop :=
  match n with
  | O => Ok st
  | S n' =>
      st' <- parseChunk buffer frames st ;;
      parseChunks buffer frames n' st'
  end.

(** One turn of the loop over the frames: the frame header, then its
    chunks with a fresh [chunks] array and an unset [pchunk]. *)
Definition parseFrame (buffer : Buffer) (acc : Z * list AseFrame * list Z)
  : result (Z * list AseFrame * list Z) :=
  let '(ptr0, frames, seen) := acc in
  frame <- frameParser (subarray buffer ptr0 (ptr0 + 16)) ;;
  let chunk_count :=
    if chunk_count frame =? 0 then chunk_count_old frame
    else chunk_count frame in
  st <- parseChunks buffer frames (Z.to_nat chunk_count)
          (mkLoop (ptr0 + 16) [] None seen) ;;
  Ok (ptr st,
      frames ++ [mkFrame (frame_duration frame) (loop_chunks st)],
      seentypes st).

Fixpoint parseFrames (buffer : Buffer) (n : nat)
  (acc : Z * list AseFrame * list Z) : result (Z * list AseFrame * list Z) :=
  match n with
  | O => Ok acc
  | S n' =>
      acc' <- parseFrame buffer acc ;;
      parseFrames buffer n' acc'
  end.

Definition parseFile (buffer : Buffer) : result ParsedFile :=
  header <- headerParser (subarray buffer 0 128) ;;
  let header :=
    if color_number header =? 0 then
      mkHeader (size header) (magic header) (frame_count header)
        (width header) (height header) (depth header) (flags header)
        (speed_deprecated header) (transparent_palette_index header) 256
        (pixel_width header) (pixel_height header)
    else header in
  acc <- parseFrames buffer (Z.to_nat (frame_count header)) (128, [], []) ;;
  let '(_, frames, seen) := acc in
  Ok (mkParsed header frames seen).

End Decoder.

(* ================================================================== *)
(** * The asset reducer *)
(* ================================================================== *)

(** What [bin-pack] returns for one rectangle: its origin, and which of the
    objects handed to [pack] it is.  A cel object is identified by its
    position in the array [cells]. *)
Record PackItem : Type := mkItem {
  item_x : Z;
  item_y : Z;
  item : nat
}.

Record Packing : Type := mkPacking {
  pack_width : Z;
  pack_height : Z;
  items : list PackItem
}.

(** The record that the generated module exports ([code] is its rendering
    as TypeScript text), and the animation array. *)
Record Generated : Type := mkGenerated {
  extent : Z * Z;
  gen_frame_count : Z;
  anims : object (Z * Z * option Z * Z);
  gen_flags : object Z;
  layers_props : list Z;
  frame_durations : list Z;
  animdata : option (list Z)
}.

(** The state of the emission loop: the [Int16Array], the write cursor,
    [layermeta] and the counter [writtencells]. *)
Record Emission : Type := mkEmission {
  arr : list Z;
  arr_ptr : nat;
  layermeta : list Z;
  writtencells : nat
}.

Section Reducer.

(** [crc32] of the [crc] package, outside the repository. *)
Variable crc : Buffer -> Z.
(** [bin-pack], outside the repository; it is handed the cel objects. *)
Variable pack : list (nat * Cel.t) -> Packing.

Definition isLayer (c : AseChunk) : bool :=
  match body c with LayerChunk _ => true | _ => false end.

Definition isTags (c : AseChunk) : bool :=
  match body c with TagsChunk _ => true | _ => false end.

(** [parsed.frames.flatMap(e => e.chunks.filter(e => e.type == 0x2004))] *)
Definition layersOf (frames : list AseFrame) : list AseChunk :=
  flat_map (fun e => filter isLayer (chunks e)) frames.

(** [l.userdata?.length] as a condition *)
Definition isUsed (l : AseChunk) : bool :=
  match userdata l with
  | Some (_ :: _) => true
  | _ => false
  end.

(** [usedlayers] with, for each layer object, its position in [layers]:
    the layer objects are pairwise distinct, so [layers.indexOf(e)] is the
    position the object was taken from. *)
Definition usedWithIndex (layers : list AseChunk) : list (nat * AseChunk) :=
  filter (fun il => isUsed (snd il)) (combine (seq 0 (length layers)) layers).

Definition usedlayersOf (layers : list AseChunk) : list AseChunk :=
  map snd (usedWithIndex layers).

Definition layeridOf (layers : list AseChunk) : list nat :=
  map fst (usedWithIndex layers).

(** [e.chunks.filter(t => t.type == 0x2005)] *)
Definition celsOf (chunks : list AseChunk) : list Cel.t :=
  flat_map (fun t => match body t with CelChunk c => [c] | _ => [] end) chunks.

(** The cel that stands for a used layer without a cel in a frame. *)
Definition emptyCel (lid : nat) : Cel.t :=
  Cel.mk (Z.of_nat lid) 0 0 (Some 255) 0 0 0 0 [].

(** The callback of [parsed.frames.flatMap] that builds [cells]. *)
Definition frameCells (nlayers : nat) (layerid : list nat) (e : AseFrame)
  : list Cel.t :=
  let ret := celsOf (chunks e) in
  let remaining_ids := seq 0 nlayers in
  let remaining_ids :=
    filter (fun i =>
              negb (existsb (fun r => Cel.layeridx r =? Z.of_nat i) ret))
      remaining_ids in
  let remaining_ids :=
    filter (fun r => existsb (Nat.eqb r) layerid) remaining_ids in
  ret ++ map emptyCel remaining_ids.

Definition cellsOf (frames : list AseFrame) (nlayers : nat)
  (layerid : list nat) : list Cel.t :=
  flat_map (frameCells nlayers layerid) frames.

(** The checksum pass: [addedc], [added] and [crc2uniqcell]. *)
Record Dedup : Type := mkDedup {
  addedc : list Z;
  added : list nat;
  crc2uniqcell : list (Z * nat)
}.

Definition dedupStep (d : Dedup) (ic : nat * Z) : Dedup :=
  let '(i, crc_i) := ic in
  if existsb (Z.eqb crc_i) (addedc d) then d
  else mkDedup (setAdd Z.eqb (addedc d) crc_i)
         (setAdd Nat.eqb (added d) i)
         (mapSet Z.eqb (crc2uniqcell d) crc_i i).

Definition dedup (crcs : list Z) : Dedup :=
  fold_left dedupStep (combine (seq 0 (length crcs)) crcs)
    (mkDedup [] [] []).

(** [c.width && layers[c.layeridx].userdata] as a condition: the height
    is not read; the layer is looked up only for a nonzero width. *)
Definition packable (layers : list AseChunk) (c : Cel.t) : result bool :=
  if Cel.width c =? 0 then Ok false
  else
    l <- defined (nth_error layers (Z.to_nat (Cel.layeridx c))) ;;
    Ok (match userdata l with Some _ => true | None => false end).

Fixpoint filterM {A : Type} (p : A -> result bool) (l : list A)
  : result (list A) :=
  match l with
  | [] => Ok []
  | a :: l' =>
      keep <- p a ;;
      rest <- filterM p l' ;;
      Ok (if keep then a :: rest else rest)
  end.

(** [[...added].filter(c => c.width && layers[c.layeridx].userdata)] *)
Definition uniquecellsOf (layers : list AseChunk) (cells : list Cel.t)
  (added : list nat) : result (list (nat * Cel.t)) :=
  filterM (fun ic => packable layers (snd ic))
    (flat_map (fun i => match nth_error cells i with
                        | Some c => [(i, c)]
                        | None => []
                        end) added).

(** [celtoitem], filled by the loop over [res2.items]. *)
Definition celtoitemOf (res2 : Packing) : list (nat * PackItem) :=
  fold_left (fun m i => mapSet Nat.eqb m (item i) i) (items res2) [].

(** The strings among
    [usedlayers.flatMap(e => e.userdata?.flatMap(e => e.text?.split('&')))]
    that pass [.filter(e => e)]: [undefined] and the empty string do not. *)
Definition layerTokens (l : AseChunk) : list (option jsstring) :=
  match userdata l with
  | Some uds =>
      flat_map (fun e => match UserData.text e with
                         | Some t => map Some (split 0x26 t)
                         | None => [None]
                         end) uds
  | None => [None]
  end.

Definition truthyStrings (l : list (option jsstring)) : list jsstring :=
  flat_map (fun o => match o with
                     | Some (c :: s) => [c :: s]
                     | _ => []
                     end) l.

Definition animflagsOf (usedlayers : list AseChunk) : list jsstring :=
  setOf jsstring_eqb (truthyStrings (flat_map layerTokens usedlayers)).

(** [Object.fromEntries([...animflags].map((e, i) => [e, i]))] *)
Definition flagsOf (animflags : list jsstring) : object Z :=
  fromEntries
    (combine animflags (map Z.of_nat (seq 0 (length animflags)))).

(** [1 << flags[u]] for a [u] that is [in flags]: an own property holds a
    number; an inherited one holds a function or an object, which the shift
    reads as 0. *)
Definition flagBit (flags : object Z) (u : jsstring) : Z :=
  match getOwn flags u with
  | Some i => shl 1 i
  | None => shl 1 0
  end.

Definition computeFlags (flags : object Z) (n : jsstring) : Z :=
  let uniques := map trim (split 0x26 n) in
  fold_left (fun ret u =>
               if hasProperty flags u then bor ret (flagBit flags u) else ret)
    uniques 0.

(** [arr[ptr++] = v] on the [Int16Array]: the value wraps to 16 bits and a
    write past the end is dropped. *)
Definition store (st : Emission) (v : Z) : Emission :=
  mkEmission (setNth (arr st) (arr_ptr st) (toInt16 v)) (S (arr_ptr st))
    (layermeta st) (writtencells st).

Definition storeAll (st : Emission) (vs : list Z) : Emission :=
  fold_left store vs st.

(** The six values written for one cel of the layer being emitted. *)
Definition celRecord (crc2uniqcell : list (Z * nat))
  (celtoitem : list (nat * PackItem)) (cel : Cel.t) (crcofc : Z)
  : result (list Z) :=
  match mapGet Z.eqb crc2uniqcell crcofc with
  | None => Throw (Error "Wtf")
  | Some uniqcel =>
      if Cel.width cel =? 0 then Ok [0; 0; 0; 0; 0; 0]
      else
        match mapGet Nat.eqb celtoitem uniqcel with
        | None => Throw (Error "Wtf2")
        | Some zone =>
            Ok [Cel.x cel; Cel.y cel; Cel.width cel; Cel.height cel;
                item_x zone; item_y zone]
        end
  end.

(** The body of the loop [for (let c = 0; c < cells.length; ++c)];
    [layerid0] is [layerid[0]]. *)
Definition emitCel (crc2uniqcell : list (Z * nat))
  (celtoitem : list (nat * PackItem)) (layerid0 : option nat)
  (st : Emission) (cc : Cel.t * Z) : result Emission :=
  let '(cel, crcofc) := cc in
  let other :=
    match layerid0 with
    | Some l => negb (Cel.layeridx cel =? Z.of_nat l)
    | None => true
    end in
  if other then Ok st
  else
    vs <- celRecord crc2uniqcell celtoitem cel crcofc ;;
    let st := storeAll st vs in
    Ok (mkEmission (arr st) (arr_ptr st) (layermeta st)
          (S (writtencells st))).

Fixpoint emitCells (crc2uniqcell : list (Z * nat))
  (celtoitem : list (nat * PackItem)) (layerid0 : option nat)
  (ccs : list (Cel.t * Z)) (st : Emission) : result Emission :=
  match ccs with
  | [] => Ok st
  | cc :: ccs' =>
      st' <- emitCel crc2uniqcell celtoitem layerid0 st cc ;;
      emitCells crc2uniqcell celtoitem layerid0 ccs' st'
  end.

(** [l.userdata![0].text!] handed to [computeFlags]: [n.split] throws on
    [undefined]. *)
Definition firstText (l : AseChunk) : result jsstring :=
  uds <- defined (userdata l) ;;
  ud <- defined (nth_error uds 0) ;;
  defined (UserData.text ud).

(** The loop [for (let l of usedlayers)], with [layerid.shift()] at the end
    of each turn. *)
Fixpoint emitLayers (animdata : bool) (crc2uniqcell : list (Z * nat))
  (celtoitem : list (nat * PackItem)) (flags : object Z)
  (ccs : list (Cel.t * Z)) (usedlayers : list AseChunk) (layerid : list nat)
  (st : Emission) : result Emission :=
  match usedlayers with
  | [] => Ok st
  | l :: usedlayers' =>
      st <- (if animdata
             then emitCells crc2uniqcell celtoitem (hd_error layerid) ccs st
             else Ok st) ;;
      n <- firstText l ;;
      let st := mkEmission (arr st) (arr_ptr st)
                  (layermeta st ++ [computeFlags flags n])
                  (writtencells st) in
      emitLayers animdata crc2uniqcell celtoitem flags ccs usedlayers'
        (tl layerid) st
  end.

(** [parsed.frames.flatMap(e => e.chunks).find(e => e.type == 0x2018)] *)
Definition findTags (frames : list AseFrame) : option (list Tag.t) :=
  match find isTags (flat_map chunks frames) with
  | Some (mkChunk (TagsChunk tags) _) => Some tags
  | _ => None
  end.

Definition retag (tags : list Tag.t) : object (Z * Z * option Z * Z) :=
  fromEntries
    (map (fun e => (Tag.name e,
                    (Tag.from e, Tag.to e, Tag.loop_type e, Tag.repeat e)))
       tags).

(** [doGeneration] on an already decoded file, for [sheet = false]: the
    spritesheet branch only rasterises [res2] and fills the same
    [celtoitem]; [modname] and [js] only shape the text of [code]. *)
Definition generate (parsed : ParsedFile) (animdata : bool)
  : result Generated :=
  let layers := layersOf (frames parsed) in
  let usedlayers := usedlayersOf layers in
  let layerid := layeridOf layers in
  let cells := cellsOf (frames parsed) (length layers) layerid in
  let crcs := map (fun e => crc (Cel.pixels e)) cells in
  let d := dedup crcs in
  let animflags := animflagsOf usedlayers in
  uniquecells <- uniquecellsOf layers cells (added d) ;;
  let res2 := pack uniquecells in
  let celtoitem := celtoitemOf res2 in
  let arr0 :=
    repeat 0
      (Z.to_nat (6 * Z.of_nat (length usedlayers)
                 * frame_count (header parsed))) in
  let flags := flagsOf animflags in
  st <- emitLayers animdata (crc2uniqcell d) celtoitem flags
          (combine cells crcs) usedlayers layerid
          (mkEmission arr0 0 [] 0) ;;
  tags <- defined (findTags (frames parsed)) ;;
  let retagged := retag tags in
  Ok (mkGenerated (width (header parsed), height (header parsed))
        (frame_count (header parsed)) retagged flags (layermeta st)
        (map duration (frames parsed))
        (if animdata then Some (arr st) else None)).

End Reducer.

(** [doGeneration(modname, file, js, false, animdata)] *)
Definition doGeneration (toString : Buffer -> jsstring)
  (inflateSync : Buffer -> result Buffer) (crc : Buffer -> Z)
  (pack : list (nat * Cel.t) -> Packing) (file : Buffer) (animdata : bool)
  : result Generated :=
  parsed <- parseFile toString inflateSync file ;;
  generate crc pack parsed animdata.

(* ================================================================== *)
(** * Notions the statements use *)
(* ================================================================== *)

(** [c.userdata] read as a list: [undefined] holds nothing. *)
Definition userdataOf (c : AseChunk) : list UserData.t :=
  match userdata c with
  | Some l => l
  | None => []
  end.

(** The chunk types that [parseFile] dispatches on. *)
Definition recognised (chunk_type : Z) : bool :=
  existsb (Z.eqb chunk_type) [0x0004; 0x2004; 0x2005; 0x2007; 0x2018; 0x2020].

(** [pchunk] is unset before the first push and afterwards refers to the
    chunk pushed last. *)
Definition cursorOnLast (st : ChunkLoop) : Prop :=
  pchunk st = match loop_chunks st with
              | [] => None
              | _ :: _ => Some (length (loop_chunks st) - 1)%nat
              end.

(** A cel chunk whose width fits an unsigned 16-bit word. *)
Definition widthInRange (c : AseChunk) : Prop :=
  match body c with
  | CelChunk cel => 0 <= Cel.width cel < 2 ^ 16
  | _ => True
  end.

(** A defined [userdata] array that holds a record. *)
Definition attached (c : AseChunk) : Prop := userdata c <> Some [].

Section DecoderNotions.

Variable toString : Buffer -> jsstring.
Variable inflateSync : Buffer -> result Buffer.

(** The three things a completed turn of the chunk loop can have done. *)
Inductive ChunkTurn (buffer : Buffer) (frames : list AseFrame)
  (st : ChunkLoop) (chunksize chunk_type : Z) : ChunkLoop -> Prop :=
| turn_content (chunk : ChunkBody) :
    In chunk_type [0x0004; 0x2004; 0x2005; 0x2007; 0x2018] ->
    ChunkTurn buffer frames st chunksize chunk_type
      (pushChunk st chunksize chunk)
| turn_userdata_dropped :
    chunk_type = 0x2020 ->
    pchunk st = None ->
    ChunkTurn buffer frames st chunksize chunk_type
      (mkLoop (ptr st + chunksize) (loop_chunks st) (pchunk st)
         (seentypes st))
| turn_userdata (i : nat) (ud : UserData.t) :
    chunk_type = 0x2020 ->
    pchunk st = Some i ->
    parseUserData toString
      (subarray buffer (ptr st + 6) (ptr st + chunksize)) = Ok ud ->
    ChunkTurn buffer frames st chunksize chunk_type
      (mkLoop (ptr st + chunksize) (pushUserData (loop_chunks st) i ud)
         (pchunk st) (seentypes st))
| turn_skipped :
    recognised chunk_type = false ->
    ChunkTurn buffer frames st chunksize chunk_type
      (mkLoop (ptr st + chunksize) (loop_chunks st) (pchunk st)
         (setAdd Z.eqb (seentypes st) chunk_type)).

(** The exceptions that leave [parseFile]: the range error of a Buffer
    read, the type error of a property read on [undefined] or of a struct
    built on too short a buffer, the error for an unsupported cel type, and
    whatever [inflateSync] throws. *)
Definition decodeFailure (e : exn) : Prop :=
  e = RangeError \/ e = TypeError \/ e = Error "Unsupported cel type"
  \/ exists b, inflateSync b = Throw e.

(** [data] of a turn of the chunk loop: the declared range of the chunk
    after its six header bytes. *)
Definition payload (buffer : Buffer) (st : ChunkLoop) (chunksize : Z)
  : Buffer :=
  subarray buffer (ptr st + 6) (ptr st + chunksize).

(** The parser that a turn runs on the payload of a chunk of a dispatched
    type throws [e]; a UserData chunk is parsed only when [pchunk] is
    set. *)
Definition parserThrows (frames : list AseFrame) (st : ChunkLoop)
  (chunk_type : Z) (data : Buffer) (e : exn) : Prop :=
  (chunk_type = 0x0004 /\ parseOldPalette data = Throw e)
  \/ (chunk_type = 0x2004 /\ parseLayer toString data = Throw e)
  \/ (chunk_type = 0x2005 /\ parseCel inflateSync data frames = Throw e)
  \/ (chunk_type = 0x2007 /\ parseColorProfile data = Throw e)
  \/ (chunk_type = 0x2018 /\ parseTagsChunk toString data = Throw e)
  \/ (chunk_type = 0x2020 /\ pchunk st <> None
      /\ parseUserData toString data = Throw e).

End DecoderNotions.

(** The distinct elements of a list, each at its first occurrence. *)
Fixpoint firstSeen {A : Type} (eqb : A -> A -> bool) (l : list A) : list A :=
  match l with
  | [] => []
  | a :: l' => a :: filter (fun b => negb (eqb a b)) (firstSeen eqb l')
  end.

(** [l[i]] paired with [i]. *)
Definition enumerate {A : Type} (l : list A) : list (A * Z) :=
  combine l (map Z.of_nat (seq 0 (length l))).

(** The tags of the Tags chunk decoded last, "latest wins". *)
Definition findTagsLatest (frames : list AseFrame) : option (list Tag.t) :=
  match find isTags (rev (flat_map chunks frames)) with
  | Some (mkChunk (TagsChunk tags) _) => Some tags
  | _ => None
  end.

(** Every piece that splitting the user-data texts of the used layers on
    '&' yields, the empty ones included. *)
Definition allTokens (usedlayers : list AseChunk) : list jsstring :=
  flat_map (fun l =>
              flat_map (fun e => match UserData.text e with
                                 | Some t => split 0x26 t
                                 | None => []
                                 end) (userdataOf l)) usedlayers.

Definition nonEmpty (s : jsstring) : bool :=
  match s with [] => false | _ :: _ => true end.

(** The vocabulary as the claim words it: every distinct piece, numbered
    in first-seen order. *)
Definition claimedVocabulary (usedlayers : list AseChunk) : object Z :=
  enumerate (firstSeen jsstring_eqb (allTokens usedlayers)).

(** The OR of [1 << index] over the trimmed pieces of [n] that are keys of
    the vocabulary; the others count for nothing. *)
Definition maskOf (flags : object Z) (n : jsstring) : Z :=
  fold_left (fun ret u => match getOwn flags u with
                          | Some i => bor ret (shl 1 i)
                          | None => ret
                          end) (map trim (split 0x26 n)) 0.

(** The position of the first occurrence of [c]. *)
Fixpoint firstIndex (c : Z) (crcs : list Z) : option nat :=
  match crcs with
  | [] => None
  | c' :: crcs' =>
      if c' =? c then Some O else option_map S (firstIndex c crcs')
  end.

(** The fingerprint representative of a cel: the first cel of [cells]
    whose pixels have the same checksum. *)
Definition representative (crc : Buffer -> Z) (cells : list Cel.t)
  (cel : Cel.t) : option nat :=
  firstIndex (crc (Cel.pixels cel)) (map (fun e => crc (Cel.pixels e)) cells).

(** The origin the packing gives a cel object (the item listed last, should
    the packer list an object twice). *)
Definition atlasOrigin (res2 : Packing) (rep : nat) : option (Z * Z) :=
  option_map (fun it => (item_x it, item_y it))
    (find (fun it => Nat.eqb (item it) rep) (rev (items res2))).

(** The six values of a cel, before they wrap to 16 bits. *)
Definition animationRecord (crc : Buffer -> Z) (cells : list Cel.t)
  (res2 : Packing) (cel : Cel.t) : option (list Z) :=
  if Cel.width cel =? 0 then Some [0; 0; 0; 0; 0; 0]
  else
    match representative crc cells cel with
    | Some rep =>
        match atlasOrigin res2 rep with
        | Some (ox, oy) =>
            Some [Cel.x cel; Cel.y cel; Cel.width cel; Cel.height cel;
                  ox; oy]
        | None => None
        end
    | None => None
    end.

(** The cels of a frame that sit on layer [l]. *)
Definition celsOn (l : nat) (frame : AseFrame) : list Cel.t :=
  filter (fun c => Cel.layeridx c =? Z.of_nat l) (celsOf (chunks frame)).

(** The cel of a (layer, frame) pair: the frame's cel on that layer, or
    the empty cel that stands for it. *)
Definition pairCel (frame : AseFrame) (l : nat) : Cel.t :=
  match celsOn l frame with
  | c :: _ => c
  | [] => emptyCel l
  end.

(** No frame holds two cels on one of the layers [layerid]. *)
Definition oneCelPerPair (frames : list AseFrame) (layerid : list nat)
  : Prop :=
  forall frame l, In frame frames -> In l layerid ->
                  (length (celsOn l frame) <= 1)%nat.

(** The array holds, for the [k]-th used layer (at position [l] of
    [layers]) and the [f]-th frame, the six values of that pair's cel at
    offset [6 * (k * F + f)]: layer-major, frame-minor. *)
Definition LayerMajorRecords (crc : Buffer -> Z) (res2 : Packing)
  (parsed : ParsedFile) (arr : list Z) : Prop :=
  let layers := layersOf (frames parsed) in
  let layerid := layeridOf layers in
  let cells := cellsOf (frames parsed) (length layers) layerid in
  let F := length (frames parsed) in
  forall k l f frame,
    nth_error layerid k = Some l ->
    nth_error (frames parsed) f = Some frame ->
    exists vs,
      animationRecord crc cells res2 (pairCel frame l) = Some vs
      /\ firstn 6 (skipn (6 * (k * F + f)) arr) = map toInt16 vs.


(** The layer at index [i] exists and carries at least one user-data
    record. *)
Definition carriesUserData (layers : list AseChunk) (i : nat) : Prop :=
  exists layer, nth_error layers i = Some layer /\ userdataOf layer <> [].

(** The entries of [ccs] whose cel sits on layer [l]. *)
Definition layerCells (l : nat) (ccs : list (Cel.t * Z)) : list (Cel.t * Z) :=
  filter (fun cc => Cel.layeridx (fst cc) =? Z.of_nat l) ccs.

(** [W] is what was written to the array so far: the cursor stands after
    it, and the array, of fixed length [N], holds it up to that length. *)
Definition Written (N : nat) (W : list Z) (st : Emission) : Prop :=
  arr_ptr st = length W
  /\ length (arr st) = N
  /\ forall i, (i < N)%nat -> nth i (arr st) 0 = nth i W 0.

(** After the cels with checksums [seen], [addedc] holds those checksums
    and [crc2uniqcell] maps each to where it occurred first. *)
Definition DedupInv (d : Dedup) (seen : list Z) : Prop :=
  (forall c, existsb (Z.eqb c) (addedc d) = existsb (Z.eqb c) seen)
  /\ (forall c, mapGet Z.eqb (crc2uniqcell d) c = firstIndex c seen).

(* ================================================================== *)
(** * Concrete collaborators and sample files *)
(* ================================================================== *)

(** Stand-ins for the external collaborators, used to run the importer on
    sample files. *)
Module Collab.

(** UTF-8 decoding restricted to what it does on 7-bit input: one code unit
    per byte. *)
Definition asciiToString (b : Buffer) : jsstring := map byteZ b.

(** An inflater that accepts nothing; the samples hold no compressed cel. *)
Definition noInflate (b : Buffer) : result Buffer := Throw ZlibError.

(** CRC-32 (reflected polynomial 0xEDB88320), bit by bit. *)
Definition crcBit (c : Z) : Z :=
  if Z.testbit c 0 then Z.lxor (Z.shiftr c 1) 0xEDB88320 else Z.shiftr c 1.

Definition crcByte (c : Z) (b : byte) : Z :=
  let c := Z.lxor c (byteZ b) in
  crcBit (crcBit (crcBit (crcBit (crcBit (crcBit (crcBit (crcBit c))))))).

Definition crc32 (b : Buffer) : Z :=
  Z.lxor (fold_left crcByte b 0xFFFFFFFF) 0xFFFFFFFF.

(** A packer that lays the rectangles out in one row, in the order given. *)
Fixpoint rowItems (x : Z) (rects : list (nat * Cel.t)) : list PackItem :=
  match rects with
  | [] => []
  | (i, c) :: rects' => mkItem x 0 i :: rowItems (x + Cel.width c) rects'
  end.

Definition rowPack (rects : list (nat * Cel.t)) : Packing :=
  mkPacking (fold_left (fun w r => w + Cel.width (snd r)) rects 0)
    (fold_left (fun h r => Z.max h (Cel.height (snd r))) rects 0)
    (rowItems 0 rects).

End Collab.

(** Builders of Aseprite files, byte by byte. *)
Module Sample.

Definition byteOf (z : Z) : byte :=
  match Byte.of_N (Z.to_N (z mod 256)) with
  | Some b => b
  | None => x00
  end.

Definition u8 (z : Z) : Buffer := [byteOf z].
Definition u16 (z : Z) : Buffer := [byteOf z; byteOf (z / 2 ^ 8)].
Definition u32 (z : Z) : Buffer :=
  [byteOf z; byteOf (z / 2 ^ 8); byteOf (z / 2 ^ 16); byteOf (z / 2 ^ 24)].
Definition zeros (n : nat) : Buffer := repeat x00 n.
Definition bytes (l : list Z) : Buffer := map byteOf l.
Definition pstring (s : string) : Buffer :=
  u16 (Z.of_nat (String.length s)) ++ list_byte_of_string s.

(** The 128-byte file header. *)
Definition fileHeader (frame_count width height : Z) : Buffer :=
  u32 0 ++ u16 0xA5E0 ++ u16 frame_count ++ u16 width ++ u16 height
  ++ u16 32 ++ zeros 114.

(** The 16-byte frame header; the chunk count goes in the new field. *)
Definition frameHeader (duration chunk_count : Z) : Buffer :=
  u32 0 ++ u16 0xF1FA ++ u16 0 ++ u16 duration ++ zeros 2 ++ u32 chunk_count.

(** A chunk whose size field is the true size of the chunk. *)
Definition chunk (type : Z) (payload : Buffer) : Buffer :=
  u32 (6 + byteLength payload) ++ u16 type ++ payload.

(** A chunk with an arbitrary size field. *)
Definition chunkSized (size type : Z) (payload : Buffer) : Buffer :=
  u32 size ++ u16 type ++ payload.

Definition layer (flags : Z) (name : string) : Buffer :=
  chunk 0x2004 (u16 flags ++ zeros 14 ++ pstring name).

Definition userText (text : string) : Buffer :=
  chunk 0x2020 (u32 1 ++ pstring text).

Definition rawCel (layeridx x y w h : Z) (pixels : list Z) : Buffer :=
  chunk 0x2005
    (u16 layeridx ++ u16 x ++ u16 y ++ u8 255 ++ u16 0 ++ u16 0 ++ zeros 5
     ++ u16 w ++ u16 h ++ bytes pixels).

Definition linkedCel (layeridx frame : Z) : Buffer :=
  chunk 0x2005
    (u16 layeridx ++ u16 0 ++ u16 0 ++ u8 255 ++ u16 1 ++ u16 0 ++ zeros 5
     ++ u16 frame).

Definition tag (from to : Z) (name : string) : Buffer :=
  u16 from ++ u16 to ++ u8 0 ++ u16 0 ++ zeros 6 ++ bytes [0; 0; 0] ++ u8 0
  ++ pstring name.

Definition tags (ts : list Buffer) : Buffer :=
  chunk 0x2018 (u16 (Z.of_nat (length ts)) ++ zeros 8 ++ concat ts).

(** Two frames, a layer "bg" without user data, a layer "hero" tagged
    "walk&solid", a palette chunk the decoder does not know, one tag; the
    second frame links hero's cel to the first. *)
Definition hero : Buffer :=
  fileHeader 2 4 4
  ++ frameHeader 100 7
  ++ layer 1 "bg"
  ++ layer 1 "hero" ++ userText "walk&solid"
  ++ chunk 0x2019 (zeros 20)
  ++ tags [tag 0 1 "run"]
  ++ rawCel 0 0 0 1 1 [9; 9; 9; 255]
  ++ rawCel 1 1 2 2 1 [255; 0; 0; 255; 0; 255; 0; 255]
  ++ frameHeader 120 1
  ++ linkedCel 1 0.

(** One used layer whose frame 0 holds two cels on it, and a third cel in
    frame 1. *)
Definition doubled : Buffer :=
  fileHeader 2 4 4
  ++ frameHeader 100 5
  ++ layer 1 "hero" ++ userText "walk"
  ++ tags [tag 0 1 "run"]
  ++ rawCel 0 1 1 1 1 [1; 1; 1; 255]
  ++ rawCel 0 2 2 1 1 [2; 2; 2; 255]
  ++ frameHeader 100 1
  ++ rawCel 0 3 3 1 1 [3; 3; 3; 255].

(** No Layer chunk in frame 0; a tagged layer and its cel in frame 1. *)
Definition lateLayer : Buffer :=
  fileHeader 2 4 4
  ++ frameHeader 100 1
  ++ tags [tag 0 1 "run"]
  ++ frameHeader 100 3
  ++ layer 1 "late" ++ userText "x"
  ++ rawCel 0 0 0 1 1 [7; 7; 7; 255].

(** One frame whose only chunk, of a type the decoder does not know,
    declares 100000 bytes; the file ends right after the chunk header. *)
Definition oversized : Buffer :=
  fileHeader 1 4 4
  ++ frameHeader 100 1
  ++ chunkSized 100000 0x7777 [].

(** A frame header that counts one chunk, and nothing after it. *)
Definition truncated : Buffer := fileHeader 1 4 4 ++ frameHeader 100 1.

(** Two Tags chunks in one frame. *)
Definition twoTags : Buffer :=
  fileHeader 1 4 4
  ++ frameHeader 100 4
  ++ layer 1 "hero" ++ userText "walk"
  ++ tags [tag 0 0 "first"]
  ++ tags [tag 1 1 "last"].

(** A used layer whose text has an empty piece between two '&'. *)
Definition emptyToken : Buffer :=
  fileHeader 1 4 4
  ++ frameHeader 100 3
  ++ layer 1 "hero" ++ userText "a&&b"
  ++ tags [tag 0 0 "run"].

(** A layer followed by two UserData chunks. *)
Definition notes : Buffer :=
  fileHeader 1 4 4
  ++ frameHeader 100 3
  ++ layer 1 "n" ++ userText "a" ++ userText "b".



(** A layer without user data and a used layer whose cels in frame 0 have
    the same pixel bytes. *)
Definition shadowed : Buffer :=
  fileHeader 1 4 4
  ++ frameHeader 100 6
  ++ layer 1 "bg"
  ++ layer 1 "hero" ++ userText "walk"
  ++ tags [tag 0 0 "run"]
  ++ rawCel 0 0 0 1 1 [9; 9; 9; 255]
  ++ rawCel 1 0 0 1 1 [9; 9; 9; 255].

(** A used layer whose text is " toString&a". *)
Definition inheritedName : Buffer :=
  fileHeader 1 4 4
  ++ frameHeader 100 3
  ++ layer 1 "hero" ++ userText " toString&a"
  ++ tags [tag 0 0 "run"].

End Sample.

(** Running the importer on a sample with the stand-in collaborators. *)
Module Run.

Import Collab.

Definition parse (file : Buffer) : result ParsedFile :=
  parseFile asciiToString noInflate file.

Definition generation (file : Buffer) : result Generated :=
  doGeneration asciiToString noInflate crc32 rowPack file true.

Definition generatedOr (r : result Generated) : Generated :=
  match r with
  | Ok g => g
  | Throw _ => mkGenerated (0, 0) 0 [] [] [] [] None
  end.

Definition parsedOr (r : result ParsedFile) : ParsedFile :=
  match r with
  | Ok p => p
  | Throw _ => mkParsed (mkHeader 0 0 0 0 0 0 0 0 0 0 0 0) [] []
  end.

Definition heroParsed : ParsedFile :=
  Eval vm_compute in parsedOr (parse Sample.hero).
Definition heroGenerated : Generated :=
  Eval vm_compute in generatedOr (generation Sample.hero).
Definition doubledParsed : ParsedFile :=
  Eval vm_compute in parsedOr (parse Sample.doubled).
Definition doubledGenerated : Generated :=
  Eval vm_compute in generatedOr (generation Sample.doubled).
Definition lateLayerParsed : ParsedFile :=
  Eval vm_compute in parsedOr (parse Sample.lateLayer).
Definition lateLayerGenerated : Generated :=
  Eval vm_compute in generatedOr (generation Sample.lateLayer).
Definition oversizedParsed : ParsedFile :=
  Eval vm_compute in parsedOr (parse Sample.oversized).
Definition twoTagsParsed : ParsedFile :=
  Eval vm_compute in parsedOr (parse Sample.twoTags).
Definition twoTagsGenerated : Generated :=
  Eval vm_compute in generatedOr (generation Sample.twoTags).
Definition emptyTokenParsed : ParsedFile :=
  Eval vm_compute in parsedOr (parse Sample.emptyToken).
Definition emptyTokenGenerated : Generated :=
  Eval vm_compute in generatedOr (generation Sample.emptyToken).

(** The chunk loop of [Sample.notes] after the layer and the first
    UserData chunk. *)
Definition notesState : ChunkLoop :=
  Eval vm_compute in
    match parseChunks asciiToString noInflate Sample.notes [] 2
            (mkLoop 144 [] None []) with
    | Ok st => st
    | Throw _ => mkLoop 0 [] None []
    end.





End Run.

(* ================================================================== *)
(** * Properties of the decoder *)
(* ================================================================== *)

(** ** Reasoning about [Js.result] *)

Lemma bind_Ok {A B : Type} (c : result A) (k : A -> result B) (b : B) :
  Js.bind c k = Ok b -> exists a, c = Ok a /\ k a = Ok b.
Proof.
  destruct c as [a|e]; simpl; intros H; [eauto | discriminate].
Qed.

Lemma bind_Throw {A B : Type} (c : result A) (k : A -> result B) (e : exn) :
  Js.bind c k = Throw e ->
  c = Throw e \/ exists a, c = Ok a /\ k a = Throw e.
Proof.
  destruct c as [a|e']; simpl; intros H; [eauto | left; congruence].
Qed.

Lemma defined_Ok {A : Type} (o : option A) (a : A) :
  defined o = Ok a -> o = Some a.
Proof. destruct o; simpl; congruence. Qed.

Lemma defined_Throw {A : Type} (o : option A) (e : exn) :
  defined o = Throw e -> e = TypeError.
Proof. destruct o; simpl; congruence. Qed.

(** Unfolds one monadic step that is known to have succeeded. *)
Ltac bind_next H :=
  let a := fresh "v" in
  let E := fresh "E" in
  apply bind_Ok in H; destruct H as (a & E & H).

Tactic Notation "bind_ok" hyp(H) "as" ident(a) ident(E) :=
  apply bind_Ok in H; destruct H as (a & E & H).

(** Splits a failed computation into the step that threw. *)
Ltac throw_cases H :=
  repeat match type of H with
         | Js.bind _ _ = Throw _ =>
             let a := fresh "v" in
             let E := fresh "E" in
             apply bind_Throw in H; destruct H as [H | (a & E & H)]
         | (let '(_, _) := ?p in _) = Throw _ => destruct p
         | Ok _ = Throw _ => discriminate H
         end.

Lemma find_first {A : Type} (p : A -> bool) (l : list A) (a : A) :
  find p l = Some a ->
  p a = true
  /\ exists pre post, l = pre ++ a :: post
                      /\ forall b, In b pre -> p b = false.
Proof.
  induction l as [|b l IH]; simpl; [discriminate|].
  destruct (p b) eqn:E.
  - intros H. injection H as <-. split; [exact E|].
    exists [], l. split; [reflexivity|]. intros ? [].
  - intros H. destruct (IH H) as (Ha & pre & post & -> & Hpre).
    split; [exact Ha|]. exists (b :: pre), post. split; [reflexivity|].
    intros b' [<-|Hin]; auto.
Qed.

Section DecoderFacts.

Variable toString : Buffer -> jsstring.
Variable inflateSync : Buffer -> result Buffer.

Lemma byteZ_range (b : byte) : 0 <= byteZ b < 256.
Proof.
  unfold byteZ. pose proof (Byte.to_N_bounded b) as H. lia.
Qed.

Lemma land_1_eqb (z : Z) : (Z.land z 1 =? 1) = Z.odd z.
Proof.
  change 1 with (Z.ones 1) at 1. rewrite Z.land_ones by lia.
  rewrite Z.pow_1_r. rewrite Zmod_odd. destruct (Z.odd z); reflexivity.
Qed.

Lemma readUint16LE_cons2 (b0 b1 : byte) (rest : Buffer) :
  readUint16LE (b0 :: b1 :: rest) 0 = Ok (byteZ b0 + byteZ b1 * 2 ^ 8).
Proof. reflexivity. Qed.

(** C10: [parseColorProfile] takes the profile kind and the flag word from
    the same two bytes at offset 0: [specialFixedGamma] is the lowest bit of
    the profile kind, and no byte from offset 2 on has any influence. *)
Theorem C10_color_profile_flags_read_at_offset_0
  (b0 b1 : byte) (rest : Buffer) :
  let kind := byteZ b0 + byteZ b1 * 2 ^ 8 in
  parseColorProfile (b0 :: b1 :: rest)
    = Ok (ColorProfile kind 0 (Z.testbit kind 0))
  /\ forall rest' : Buffer,
       parseColorProfile (b0 :: b1 :: rest')
       = parseColorProfile (b0 :: b1 :: rest).
Proof.
  intros kind. split.
  - unfold parseColorProfile. rewrite readUint16LE_cons2. simpl Js.bind.
    fold kind. rewrite land_1_eqb, Z.bit0_odd. reflexivity.
  - intros rest'. unfold parseColorProfile.
    rewrite !readUint16LE_cons2. reflexivity.
Qed.

(** An sRGB profile (kind 1) whose flag word at offset 2 is 0 is reported
    with the fixed-gamma flag set. *)
Example color_profile_sRGB :
  parseColorProfile (Sample.u16 1 ++ Sample.u16 0 ++ Sample.zeros 4)
  = Ok (ColorProfile 1 0 true).
Proof. reflexivity. Qed.

Lemma findCel_Some (layeridx : Z) (chunks : list AseChunk) (c : Cel.t) :
  findCel layeridx chunks = Some c ->
  Cel.layeridx c = layeridx
  /\ exists pre post ud,
       chunks = pre ++ mkChunk (CelChunk c) ud :: post
       /\ forall c' ud', In (mkChunk (CelChunk c') ud') pre ->
                         Cel.layeridx c' <> layeridx.
Proof.
  unfold findCel. induction chunks as [|e chunks IH]; simpl.
  - discriminate.
  - destruct e as [bd ud]. simpl.
    destruct bd as [t|d|c0|ct g s|ts]; simpl;
      try (intros H; destruct (IH H) as (Hl & pre & post & ud0 & -> & Hpre);
           split; [exact Hl|];
           eexists (_ :: pre), post, ud0; split; [reflexivity|];
           intros c' ud' [Hin|Hin]; [discriminate | eauto]).
    destruct (Cel.layeridx c0 =? layeridx) eqn:E.
    + intros H. injection H as <-. apply Z.eqb_eq in E. split; [exact E|].
      exists [], chunks, ud. split; [reflexivity|]. intros ? ? [].
    + intros H; destruct (IH H) as (Hl & pre & post & ud0 & -> & Hpre).
      split; [exact Hl|].
      eexists (_ :: pre), post, ud0; split; [reflexivity|].
      intros c' ud' [Hin|Hin]; [|eauto].
      injection Hin as -> _. apply Z.eqb_neq in E. exact E.
Qed.


(** ** The chunk loop *)

Lemma parseChunk_Ok (buffer : Buffer) (frames : list AseFrame)
  (st st' : ChunkLoop) :
  parseChunk toString inflateSync buffer frames st = Ok st' ->
  exists chunksize chunk_type,
    readUint32LE buffer (ptr st) = Ok chunksize
    /\ readUint16LE buffer (ptr st + 4) = Ok chunk_type
    /\ ChunkTurn toString buffer frames st chunksize chunk_type st'.
Proof.
  intros H. unfold parseChunk in H.
  bind_ok H as chunksize Esize. bind_ok H as chunk_type Etype.
  exists chunksize, chunk_type. split; [exact Esize|]. split; [exact Etype|].
  cbv zeta in H.
  repeat match type of H with
         | match ?x with _ => _ end = _ =>
             is_var x; destruct x; cbv beta iota in H
         end;
    try (destruct (pchunk st) as [i|] eqn:Ep);
    repeat match type of H with
           | Js.bind _ _ = Ok _ => bind_next H
           end;
    injection H as <-; try rewrite <- Ep;
    first [ apply turn_content; simpl; tauto
          | eapply turn_userdata; eauto; fail
          | apply turn_userdata_dropped; auto; fail
          | apply turn_skipped; reflexivity ].
Qed.


Lemma setNth_length {A : Type} (l : list A) (i : nat) (a : A) :
  length (setNth l i a) = length l.
Proof.
  revert i. induction l as [|b l IH]; intros [|i]; simpl; auto.
Qed.

Lemma setNth_last {A : Type} (init : list A) (last a : A) :
  setNth (init ++ [last]) (length init) a = init ++ [a].
Proof. induction init as [|b init IH]; simpl; congruence. Qed.

Lemma pushUserData_length (chunks : list AseChunk) (i : nat)
  (ud : UserData.t) :
  length (pushUserData chunks i ud) = length chunks.
Proof.
  unfold pushUserData. destruct (nth_error chunks i); auto.
  apply setNth_length.
Qed.

Lemma pushUserData_last (init : list AseChunk) (last : AseChunk)
  (ud : UserData.t) :
  pushUserData (init ++ [last]) (length init) ud
  = init ++ [mkChunk (body last) (Some (userdataOf last ++ [ud]))].
Proof.
  unfold pushUserData.
  rewrite nth_error_app2, Nat.sub_diag by lia. simpl.
  apply setNth_last.
Qed.

Lemma cursorOnLast_step (buffer : Buffer) (frames : list AseFrame)
  (st st' : ChunkLoop) :
  cursorOnLast st ->
  parseChunk toString inflateSync buffer frames st = Ok st' ->
  cursorOnLast st'.
Proof.
  intros Hc H. apply parseChunk_Ok in H.
  destruct H as (chunksize & chunk_type & _ & _ & Hturn).
  unfold cursorOnLast in *. destruct Hturn; simpl.
  - rewrite length_app. simpl.
    destruct (loop_chunks st ++ [mkChunk chunk None]) eqn:E.
    + destruct (loop_chunks st); discriminate.
    + f_equal. lia.
  - exact Hc.
  - rewrite pushUserData_length.
    destruct (loop_chunks st) eqn:E; [congruence|].
    destruct (pushUserData (a :: l) i ud) eqn:E'; [|exact Hc].
    apply (f_equal (@length _)) in E'.
    rewrite pushUserData_length in E'. discriminate.
  - exact Hc.
Qed.

Lemma cursorOnLast_loop (buffer : Buffer) (frames : list AseFrame) (n : nat) :
  forall st st',
    cursorOnLast st ->
    parseChunks toString inflateSync buffer frames n st = Ok st' ->
    cursorOnLast st'.
Proof.
  induction n as [|n IH]; simpl; intros st st' Hc H.
  - injection H as <-. exact Hc.
  - bind_ok H as st1 E1. eapply IH; [|exact H].
    eapply cursorOnLast_step; eauto.
Qed.

(** C3: at any point of the chunk loop of a frame, a UserData chunk (type
    0x2020) never adds an entry to the frame's chunk list and never changes
    the variant of an entry; it is dropped while the list is still empty,
    and otherwise its decoded record goes to the end of the [userdata] list
    of the last entry, the content chunk decoded most recently in this
    frame.  No entry of the list has type 0x2020. *)
Theorem C3_userdata_folded_into_last_content_chunk
  (buffer : Buffer) (frames : list AseFrame) (n : nat) (ptr0 : Z)
  (seen : list Z) (st : ChunkLoop) (chunksize : Z) :
  parseChunks toString inflateSync buffer frames n (mkLoop ptr0 [] None seen)
    = Ok st ->
  readUint32LE buffer (ptr st) = Ok chunksize ->
  readUint16LE buffer (ptr st + 4) = Ok 0x2020 ->
  let data := subarray buffer (ptr st + 6) (ptr st + chunksize) in
  let turn := parseChunk toString inflateSync buffer frames st in
  (forall c, In c (loop_chunks st) -> chunkType c <> 0x2020)
  /\ (forall st', turn = Ok st' ->
        map body (loop_chunks st') = map body (loop_chunks st))
  /\ (loop_chunks st = [] ->
      turn = Ok (mkLoop (ptr st + chunksize) [] None (seentypes st)))
  /\ (forall init last ud,
        loop_chunks st = init ++ [last] ->
        parseUserData toString data = Ok ud ->
        turn = Ok (mkLoop (ptr st + chunksize)
                     (init ++ [mkChunk (body last)
                                 (Some (userdataOf last ++ [ud]))])
                     (pchunk st) (seentypes st))).
Proof.
  intros Hloop Hsize Htype data turn.
  assert (Hc : cursorOnLast st).
  { eapply cursorOnLast_loop; [|exact Hloop]. reflexivity. }
  assert (Hturn : turn =
    match pchunk st with
    | Some i =>
        ud <- parseUserData toString data ;;
        Ok (mkLoop (ptr st + chunksize)
              (pushUserData (loop_chunks st) i ud) (pchunk st)
              (seentypes st))
    | None =>
        Ok (mkLoop (ptr st + chunksize) (loop_chunks st) (pchunk st)
              (seentypes st))
    end).
  { unfold turn, parseChunk. rewrite Hsize, Htype. reflexivity. }
  split; [|split; [|split]].
  - intros c _. unfold chunkType. destruct (body c); discriminate.
  - intros st' H. rewrite Hturn in H. destruct (pchunk st) as [i|] eqn:Ep.
    + bind_ok H as ud Eud. injection H as <-. simpl.
      unfold pushUserData. destruct (nth_error (loop_chunks st) i) eqn:En; auto.
      clear - En. revert i En.
      induction (loop_chunks st) as [|b l IH]; intros [|i] En; simpl in *;
        try discriminate.
      * injection En as ->. reflexivity.
      * f_equal. apply IH. exact En.
    + injection H as <-. reflexivity.
  - intros Hempty. rewrite Hturn. unfold cursorOnLast in Hc.
    rewrite Hempty in Hc. rewrite Hc, Hempty. reflexivity.
  - intros init last ud Hchunks Hud. rewrite Hturn.
    unfold cursorOnLast in Hc. rewrite Hchunks in Hc.
    destruct (init ++ [last]) eqn:E; [destruct init; discriminate|].
    rewrite <- E in Hc. rewrite length_app in Hc. simpl in Hc.
    replace (length init + 1 - 1)%nat with (length init) in Hc by lia.
    rewrite Hc, Hud. simpl. rewrite Hchunks, <- E, pushUserData_last.
    reflexivity.
Qed.


(** ** What the decoder throws *)

Lemma readUint16LE_Throw (b : Buffer) (off : Z) (e : exn) :
  readUint16LE b off = Throw e -> e = RangeError.
Proof.
  unfold readUint16LE.
  destruct (index b off), (index b (off + 1)); congruence.
Qed.

Lemma readInt16LE_Throw (b : Buffer) (off : Z) (e : exn) :
  readInt16LE b off = Throw e -> e = RangeError.
Proof.
  unfold readInt16LE. destruct (readUint16LE b off) eqn:E; [discriminate|].
  intros H. injection H as <-. eapply readUint16LE_Throw; eauto.
Qed.

Lemma readUint32LE_Throw (b : Buffer) (off : Z) (e : exn) :
  readUint32LE b off = Throw e -> e = RangeError.
Proof.
  unfold readUint32LE.
  destruct (index b off), (index b (off + 1)), (index b (off + 2)),
    (index b (off + 3)); congruence.
Qed.

Lemma readPstring_Throw (b : Buffer) (off : Z) (e : exn) :
  readPstring toString b off = Throw e -> e = RangeError.
Proof.
  unfold readPstring. intros H. throw_cases H.
  eapply readInt16LE_Throw; eauto.
Qed.

(** Names the read that threw. *)
Ltac blame :=
  unfold decodeFailure;
  match goal with
  | H : readUint16LE _ _ = Throw _ |- _ =>
      apply readUint16LE_Throw in H; subst; auto
  | H : readInt16LE _ _ = Throw _ |- _ =>
      apply readInt16LE_Throw in H; subst; auto
  | H : readUint32LE _ _ = Throw _ |- _ =>
      apply readUint32LE_Throw in H; subst; auto
  | H : readPstring _ _ _ = Throw _ |- _ =>
      apply readPstring_Throw in H; subst; auto
  | H : defined _ = Throw _ |- _ =>
      apply defined_Throw in H; subst; auto
  | H : inflateSync _ = Throw _ |- _ =>
      right; right; right; eexists; exact H
  | H : Throw _ = Throw _ |- _ => injection H as <-; auto
  end.

Lemma parseTags_Throw (b : Buffer) (n : nat) :
  forall ptr tags e,
    parseTags toString b n ptr tags = Throw e -> e = RangeError.
Proof.
  induction n as [|n IH]; simpl; intros ptr tags e H; [discriminate|].
  throw_cases H;
    try (eapply readInt16LE_Throw; eassumption);
    try (eapply readPstring_Throw; eassumption).
  eapply IH; eauto.
Qed.

Lemma parseCel_Throw (b : Buffer) (previousFrames : list AseFrame) (e : exn) :
  parseCel inflateSync b previousFrames = Throw e ->
  decodeFailure inflateSync e.
Proof.
  unfold parseCel. intros H. throw_cases H; try blame.
  repeat match type of H with
         | match ?x with _ => _ end = _ =>
             is_var x; destruct x; cbv beta iota in H
         end;
    throw_cases H; blame.
Qed.

Lemma parseChunk_Throw (buffer : Buffer) (frames : list AseFrame)
  (st : ChunkLoop) (e : exn) :
  parseChunk toString inflateSync buffer frames st = Throw e ->
  decodeFailure inflateSync e.
Proof.
  unfold parseChunk. intros H. throw_cases H; try blame.
  cbv zeta in H.
  repeat match type of H with
         | match ?x with _ => _ end = _ =>
             is_var x; destruct x; cbv beta iota in H
         end;
    try (destruct (pchunk st));
    throw_cases H;
    try (eapply parseCel_Throw; eassumption);
    unfold parseOldPalette, parseLayer, parseColorProfile, parseTagsChunk,
      parseUserData in *;
    throw_cases H; try blame.
  all: try (left; eapply parseTags_Throw; eassumption).
  match type of H with
  | (if ?c then _ else _) = _ => destruct c; throw_cases H; blame
  end.
Qed.

Lemma parseChunks_Throw (buffer : Buffer) (frames : list AseFrame) (n : nat) :
  forall st e,
    parseChunks toString inflateSync buffer frames n st = Throw e ->
    decodeFailure inflateSync e.
Proof.
  induction n as [|n IH]; simpl; intros st e H; [discriminate|].
  throw_cases H; [eapply parseChunk_Throw | eapply IH]; eauto.
Qed.

Lemma parseFrame_Throw (buffer : Buffer) (acc : Z * list AseFrame * list Z)
  (e : exn) :
  parseFrame toString inflateSync buffer acc = Throw e ->
  decodeFailure inflateSync e.
Proof.
  destruct acc as [[ptr0 frames] seen]. unfold parseFrame. intros H.
  throw_cases H.
  - unfold frameParser in H.
    destruct (byteLength (subarray buffer ptr0 (ptr0 + 16)) <? 14);
      throw_cases H; blame.
  - eapply parseChunks_Throw; eauto.
Qed.

Lemma parseFrames_Throw (buffer : Buffer) (n : nat) :
  forall acc e,
    parseFrames toString inflateSync buffer n acc = Throw e ->
    decodeFailure inflateSync e.
Proof.
  induction n as [|n IH]; simpl; intros acc e H; [discriminate|].
  throw_cases H; [eapply parseFrame_Throw | eapply IH]; eauto.
Qed.

Lemma parseFile_Throw (buffer : Buffer) (e : exn) :
  parseFile toString inflateSync buffer = Throw e ->
  decodeFailure inflateSync e.
Proof.
  unfold parseFile. intros H. throw_cases H.
  - unfold headerParser in H.
    destruct (byteLength (subarray buffer 0 128) <? 124);
      throw_cases H; blame.
  - eapply parseFrames_Throw; eauto.
Qed.

Lemma index_past_end (b : Buffer) (i : Z) :
  byteLength b <= i -> index b i = None.
Proof.
  unfold index, byteLength. intros H.
  destruct (i <? 0); [reflexivity|].
  replace (nth_error b (Z.to_nat i)) with (@None byte); [reflexivity|].
  symmetry. apply nth_error_None. lia.
Qed.

(** For offsets that are not negative, [subarray] is the slice, cut short
    at the end of the buffer. *)
Lemma subarray_slice (b : Buffer) (s e : Z) :
  0 <= s -> 0 <= e ->
  subarray b s e = firstn (Z.to_nat (e - s)) (skipn (Z.to_nat s) b).
Proof.
  intros Hs He. unfold subarray, adjustOffset, byteLength.
  destruct (Z.ltb_spec s 0); [lia|]. destruct (Z.ltb_spec e 0); [lia|].
  destruct (Z.le_gt_cases s (Z.of_nat (length b))) as [Hsl|Hsl].
  - rewrite (Z.min_l s) by lia.
    destruct (Z.le_gt_cases e (Z.of_nat (length b))) as [Hel|Hel].
    + rewrite (Z.min_l e) by lia. reflexivity.
    + rewrite (Z.min_r e) by lia.
      rewrite !firstn_all2; [reflexivity| |]; rewrite length_skipn; lia.
  - rewrite (Z.min_r s) by lia.
    rewrite !skipn_all2 by lia. rewrite !firstn_nil. reflexivity.
Qed.

Lemma readUint32LE_nonneg (b : Buffer) (off v : Z) :
  readUint32LE b off = Ok v -> 0 <= v.
Proof.
  unfold readUint32LE, index. intros H.
  destruct (off <? 0); [discriminate|].
  destruct (off + 1 <? 0); [destruct (nth_error b _); discriminate|].
  destruct (off + 2 <? 0);
    [destruct (nth_error b _), (nth_error b _); discriminate|].
  destruct (off + 3 <? 0);
    [destruct (nth_error b _), (nth_error b _), (nth_error b _);
     discriminate|].
  destruct (nth_error b (Z.to_nat off)) as [b0|]; [|discriminate].
  destruct (nth_error b (Z.to_nat (off + 1))) as [b1|]; [|discriminate].
  destruct (nth_error b (Z.to_nat (off + 2))) as [b2|]; [|discriminate].
  destruct (nth_error b (Z.to_nat (off + 3))) as [b3|]; [|discriminate].
  simpl in H. injection H as <-.
  assert (Hb : forall x, 0 <= byteZ x)
    by (intros x; unfold byteZ; lia).
  pose proof (Hb b0). pose proof (Hb b1). pose proof (Hb b2).
  pose proof (Hb b3). lia.
Qed.

(** C5, as the code has it: the one check of the importer's own is that
    of the cel type, and no declared chunk size is checked against the
    buffer.  Decoding fails as a whole only through the exceptions of
    [decodeFailure], and does so, with the range error of the read,
    whenever the six bytes of a chunk header the loop is about to read do
    not lie inside the buffer.  Once the header of a chunk is read, a
    chunk of a type that is not dispatched on is stepped over whatever
    size it declares, and a turn fails exactly when the read of the type
    fails or the parser of the chunk's type fails on the payload, with
    that exception.  The payload is the declared range cut at the end of
    the buffer: all the bytes after the header when the declared end lies
    at or past the end of the buffer. *)
Theorem C5_decode_failures_are_runtime_errors (buffer : Buffer) :
  (forall e, parseFile toString inflateSync buffer = Throw e ->
             decodeFailure inflateSync e)
  /\ (forall frames st,
        byteLength buffer < ptr st + 6 ->
        parseChunk toString inflateSync buffer frames st = Throw RangeError)
  /\ (forall frames n st,
        byteLength buffer < ptr st + 6 ->
        parseChunks toString inflateSync buffer frames (S n) st
        = Throw RangeError)
  /\ (forall frames st chunksize chunk_type,
        readUint32LE buffer (ptr st) = Ok chunksize ->
        readUint16LE buffer (ptr st + 4) = Ok chunk_type ->
        recognised chunk_type = false ->
        parseChunk toString inflateSync buffer frames st
        = Ok (mkLoop (ptr st + chunksize) (loop_chunks st) (pchunk st)
                (setAdd Z.eqb (seentypes st) chunk_type)))
  /\ (forall frames st chunksize e,
        readUint32LE buffer (ptr st) = Ok chunksize ->
        (parseChunk toString inflateSync buffer frames st = Throw e
         <-> readUint16LE buffer (ptr st + 4) = Throw e
             \/ exists chunk_type,
                  readUint16LE buffer (ptr st + 4) = Ok chunk_type
                  /\ parserThrows toString inflateSync frames st chunk_type
                       (payload buffer st chunksize) e))
  /\ (forall st chunksize,
        readUint32LE buffer (ptr st) = Ok chunksize ->
        0 <= ptr st ->
        payload buffer st chunksize
        = firstn (Z.to_nat (chunksize - 6))
            (skipn (Z.to_nat (ptr st + 6)) buffer)
        /\ (byteLength buffer <= ptr st + chunksize ->
            payload buffer st chunksize
            = skipn (Z.to_nat (ptr st + 6)) buffer)).
Proof.
  split; [intros e; apply parseFile_Throw|].
  assert (Hskip : forall frames st chunksize chunk_type,
             readUint32LE buffer (ptr st) = Ok chunksize ->
             readUint16LE buffer (ptr st + 4) = Ok chunk_type ->
             recognised chunk_type = false ->
             parseChunk toString inflateSync buffer frames st
             = Ok (mkLoop (ptr st + chunksize) (loop_chunks st) (pchunk st)
                     (setAdd Z.eqb (seentypes st) chunk_type))).
  { intros frames st chunksize chunk_type Hsize Htype Hrec.
    unfold parseChunk. rewrite Hsize, Htype. cbn [Js.bind]. clear Htype.
    repeat match goal with
           | |- match ?x with _ => _ end = _ =>
               is_var x; destruct x; try reflexivity;
               try discriminate Hrec
           end. }
  assert (Hturn : forall frames st chunksize e,
             readUint32LE buffer (ptr st) = Ok chunksize ->
             (parseChunk toString inflateSync buffer frames st = Throw e
              <-> readUint16LE buffer (ptr st + 4) = Throw e
                  \/ exists chunk_type,
                       readUint16LE buffer (ptr st + 4) = Ok chunk_type
                       /\ parserThrows toString inflateSync frames st
                            chunk_type (payload buffer st chunksize) e)).
  { intros frames st chunksize e Hsize. unfold parseChunk, payload.
    rewrite Hsize. cbn [Js.bind].
    destruct (readUint16LE buffer (ptr st + 4)) as [chunk_type|e0] eqn:Et;
      cbn [Js.bind].
    - cbv zeta. split.
      + intros H. right. exists chunk_type. split; [reflexivity|].
        unfold parserThrows.
        repeat match type of H with
               | match ?x with _ => _ end = _ =>
                   is_var x; destruct x; cbv beta iota in H;
                   try discriminate H
               end;
          match type of H with
          | match pchunk st with _ => _ end = _ =>
              destruct (pchunk st) as [i|] eqn:Ep; [|discriminate H]
          | _ => idtac
          end;
          match type of H with
          | Js.bind ?c _ = Throw _ =>
              destruct c eqn:Ec; cbn [Js.bind] in H;
              [discriminate H | injection H as He; subst]
          end;
          repeat first [ left; split; reflexivity | right ];
          split; [reflexivity|]; split; [discriminate | reflexivity].
      + intros [H|(t & Ht & H)]; [discriminate H|].
        injection Ht as <-. unfold parserThrows in H.
        destruct H as [[-> H]|[[-> H]|[[-> H]|[[-> H]|[[-> H]
                        |(-> & Hp & H)]]]]];
          cbv beta iota; try (rewrite H; reflexivity).
        destruct (pchunk st); [rewrite H; reflexivity | congruence].
    - split.
      + intros H. left. injection H as ->. reflexivity.
      + intros [H|(t & Ht & _)]; [|discriminate Ht].
        injection H as ->. reflexivity. }
  assert (Hpay : forall st chunksize,
             readUint32LE buffer (ptr st) = Ok chunksize ->
             0 <= ptr st ->
             payload buffer st chunksize
             = firstn (Z.to_nat (chunksize - 6))
                 (skipn (Z.to_nat (ptr st + 6)) buffer)
             /\ (byteLength buffer <= ptr st + chunksize ->
                 payload buffer st chunksize
                 = skipn (Z.to_nat (ptr st + 6)) buffer)).
  { intros st chunksize Hsize Hptr.
    apply readUint32LE_nonneg in Hsize. unfold payload.
    rewrite subarray_slice by lia.
    replace (ptr st + chunksize - (ptr st + 6)) with (chunksize - 6) by lia.
    split; [reflexivity|]. unfold byteLength. intros Hend.
    apply firstn_all2. rewrite length_skipn. lia. }
  assert (Hchunk : forall frames st,
             byteLength buffer < ptr st + 6 ->
             parseChunk toString inflateSync buffer frames st
             = Throw RangeError).
  { intros frames st Hlen. unfold parseChunk.
    destruct (readUint32LE buffer (ptr st)) as [chunksize|e] eqn:Esize.
    - simpl. unfold readUint16LE.
      rewrite (index_past_end buffer (ptr st + 4 + 1)) by lia.
      destruct (index buffer (ptr st + 4)); reflexivity.
    - simpl. apply readUint32LE_Throw in Esize. congruence. }
  split; [exact Hchunk|]. split.
  - intros frames n st Hlen. simpl. rewrite Hchunk by exact Hlen.
    reflexivity.
  - split; [exact Hskip|]. split; [exact Hturn | exact Hpay].
Qed.


(** ** A defined [userdata] array is never empty *)

Lemma Forall_setNth {A : Type} (P : A -> Prop) (l : list A) (i : nat)
  (a : A) :
  Forall P l -> P a -> Forall P (setNth l i a).
Proof.
  intros Hl Ha. revert i. induction Hl as [|b l Hb Hl IH]; intros [|i];
    simpl; constructor; auto.
Qed.

Lemma attached_step (buffer : Buffer) (frames : list AseFrame)
  (st st' : ChunkLoop) :
  Forall attached (loop_chunks st) ->
  parseChunk toString inflateSync buffer frames st = Ok st' ->
  Forall attached (loop_chunks st').
Proof.
  intros Hc H. apply parseChunk_Ok in H.
  destruct H as (chunksize & chunk_type & _ & _ & Hturn).
  destruct Hturn; simpl; auto.
  - apply Forall_app. split; [exact Hc|]. constructor; [|constructor].
    unfold attached. simpl. discriminate.
  - unfold pushUserData. destruct (nth_error (loop_chunks st) i); auto.
    apply Forall_setNth; [exact Hc|]. unfold attached. simpl.
    destruct (match userdata a with Some l => l | None => [] end);
      discriminate.
Qed.

Lemma attached_loop (buffer : Buffer) (frames : list AseFrame) (n : nat) :
  forall st st',
    Forall attached (loop_chunks st) ->
    parseChunks toString inflateSync buffer frames n st = Ok st' ->
    Forall attached (loop_chunks st').
Proof.
  induction n as [|n IH]; simpl; intros st st' Hc H.
  - injection H as <-. exact Hc.
  - bind_ok H as st1 E1. eapply IH; [|exact H].
    eapply attached_step; eauto.
Qed.

Lemma attached_frames (buffer : Buffer) (n : nat) :
  forall acc acc',
    Forall (fun f => Forall attached (chunks f)) (snd (fst acc)) ->
    parseFrames toString inflateSync buffer n acc = Ok acc' ->
    Forall (fun f => Forall attached (chunks f)) (snd (fst acc')).
Proof.
  induction n as [|n IH]; simpl; intros acc acc' Hacc H.
  - injection H as <-. exact Hacc.
  - bind_ok H as acc1 E1. eapply IH; [|exact H].
    destruct acc as [[ptr0 frames0] seen]. unfold parseFrame in E1.
    bind_ok E1 as frame Ef. bind_ok E1 as st Est. injection E1 as <-.
    simpl in *. apply Forall_app. split; [exact Hacc|].
    constructor; [|constructor]. simpl.
    eapply attached_loop; [|exact Est]. constructor.
Qed.

(** In a decoded file every [userdata] array that exists holds a record. *)
Lemma parseFile_attached (file : Buffer) (parsed : ParsedFile) :
  parseFile toString inflateSync file = Ok parsed ->
  Forall (fun f => Forall attached (chunks f)) (frames parsed).
Proof.
  unfold parseFile. intros H. bind_ok H as hd Eh. bind_ok H as acc Eacc.
  destruct acc as [[ptr1 frames1] seen]. injection H as <-. simpl.
  apply attached_frames in Eacc; [exact Eacc | constructor].
Qed.


(** ** The width of a decoded cel is a 16-bit word *)

Lemma readUint16LE_word (b : Buffer) (off v : Z) :
  readUint16LE b off = Ok v -> 0 <= v < 2 ^ 16.
Proof.
  unfold readUint16LE, index.
  destruct (off <? 0); [discriminate|].
  destruct (nth_error b (Z.to_nat off)) as [b0|]; [|discriminate].
  destruct (off + 1 <? 0); [discriminate|].
  destruct (nth_error b (Z.to_nat (off + 1))) as [b1|]; [|discriminate].
  simpl. intros H. injection H as <-.
  pose proof (byteZ_range b0). pose proof (byteZ_range b1). lia.
Qed.

Lemma parseCel_width (b : Buffer) (previousFrames : list AseFrame)
  (chunk : ChunkBody) :
  Forall (fun f => Forall widthInRange (chunks f)) previousFrames ->
  parseCel inflateSync b previousFrames = Ok chunk ->
  widthInRange (mkChunk chunk None).
Proof.
  intros Hprev H. unfold parseCel in H.
  bind_ok H as layeridx El. bind_ok H as x Ex. bind_ok H as y Ey.
  bind_ok H as celtype Ec. bind_ok H as zindex Ez.
  repeat match type of H with
         | match ?v with _ => _ end = _ =>
             is_var v; destruct v; cbv beta iota in H; try discriminate H
         end.
  all: match type of H with
       | context [defined] =>
           bind_ok H as frameidx Ei; bind_ok H as originFrame Ef;
           bind_ok H as originCell Eo; injection H as <-;
           apply defined_Ok in Ef, Eo; apply findCel_Some in Eo;
           destruct Eo as (_ & pre & post & ud & Hsplit & _);
           apply nth_error_In in Ef; rewrite Forall_forall in Hprev;
           specialize (Hprev _ Ef); rewrite Forall_forall in Hprev;
           apply (Hprev (mkChunk (CelChunk originCell) ud));
           rewrite Hsplit; apply in_or_app; right; left; reflexivity
       | context [inflateSync] =>
           bind_ok H as w Ew; bind_ok H as h Eh; bind_ok H as px Ep;
           injection H as <-; apply readUint16LE_word in Ew; exact Ew
       | _ =>
           bind_ok H as w Ew; bind_ok H as h Eh; injection H as <-;
           apply readUint16LE_word in Ew; exact Ew
       end.
Qed.

Lemma widthInRange_step (buffer : Buffer) (frames : list AseFrame)
  (st st' : ChunkLoop) :
  Forall (fun f => Forall widthInRange (chunks f)) frames ->
  Forall widthInRange (loop_chunks st) ->
  parseChunk toString inflateSync buffer frames st = Ok st' ->
  Forall widthInRange (loop_chunks st').
Proof.
  intros Hprev Hc H. unfold parseChunk in H.
  bind_ok H as chunksize Esize. bind_ok H as chunk_type Etype.
  cbv zeta in H.
  assert (Hpush : forall chunk,
             widthInRange (mkChunk chunk None) ->
             Forall widthInRange
               (loop_chunks (pushChunk st chunksize chunk))).
  { intros chunk Hr. simpl. apply Forall_app. split; [exact Hc|].
    constructor; [exact Hr | constructor]. }
  repeat match type of H with
         | match ?x with _ => _ end = _ =>
             is_var x; destruct x; cbv beta iota in H
         end;
    try (injection H as <-; exact Hc);
    try (destruct (pchunk st) as [i|];
         [bind_next H|]; injection H as <-; simpl; try exact Hc;
         unfold pushUserData;
         destruct (nth_error (loop_chunks st) i) as [c|] eqn:En;
         [|exact Hc];
         apply Forall_setNth; [exact Hc|];
         apply nth_error_In in En; rewrite Forall_forall in Hc;
         apply (Hc c En));
    bind_next H; injection H as <-; apply Hpush;
    try (eapply parseCel_width; eassumption);
    match goal with
    | E : parseOldPalette _ = Ok _ |- _ => unfold parseOldPalette in E
    | E : parseLayer _ _ = Ok _ |- _ => unfold parseLayer in E
    | E : parseColorProfile _ = Ok _ |- _ => unfold parseColorProfile in E
    | E : parseTagsChunk _ _ = Ok _ |- _ => unfold parseTagsChunk in E
    end;
    repeat match goal with
           | E : Js.bind _ _ = Ok _ |- _ => bind_next E
           end;
    match goal with
    | E : Ok _ = Ok _ |- _ => injection E as <-; exact I
    end.
Qed.

Lemma widthInRange_loop (buffer : Buffer) (frames : list AseFrame)
  (n : nat) :
  Forall (fun f => Forall widthInRange (chunks f)) frames ->
  forall st st',
    Forall widthInRange (loop_chunks st) ->
    parseChunks toString inflateSync buffer frames n st = Ok st' ->
    Forall widthInRange (loop_chunks st').
Proof.
  intros Hprev. induction n as [|n IH]; simpl; intros st st' Hc H.
  - injection H as <-. exact Hc.
  - bind_ok H as st1 E1. eapply IH; [|exact H].
    eapply widthInRange_step; eauto.
Qed.

Lemma widthInRange_frames (buffer : Buffer) (n : nat) :
  forall acc acc',
    Forall (fun f => Forall widthInRange (chunks f)) (snd (fst acc)) ->
    parseFrames toString inflateSync buffer n acc = Ok acc' ->
    Forall (fun f => Forall widthInRange (chunks f)) (snd (fst acc')).
Proof.
  induction n as [|n IH]; simpl; intros acc acc' Hacc H.
  - injection H as <-. exact Hacc.
  - bind_ok H as acc1 E1. eapply IH; [|exact H].
    destruct acc as [[ptr0 frames0] seen]. unfold parseFrame in E1.
    bind_ok E1 as frame Ef. bind_ok E1 as st Est. injection E1 as <-.
    simpl in *. apply Forall_app. split; [exact Hacc|].
    constructor; [|constructor]. simpl.
    eapply widthInRange_loop; [exact Hacc | | exact Est]. constructor.
Qed.

(** Every cel of a decoded file has a width between 0 and 65535. *)
Lemma parseFile_widthInRange (file : Buffer) (parsed : ParsedFile) :
  parseFile toString inflateSync file = Ok parsed ->
  Forall (fun f => Forall widthInRange (chunks f)) (frames parsed).
Proof.
  unfold parseFile. intros H. bind_ok H as hd Eh. bind_ok H as acc Eacc.
  destruct acc as [[ptr1 frames1] seen]. injection H as <-. simpl.
  apply widthInRange_frames in Eacc; [exact Eacc | constructor].
Qed.

End DecoderFacts.

(* ================================================================== *)
(** * Sets, maps and objects *)
(* ================================================================== *)

Lemma jsstring_eqb_eq (s t : jsstring) : jsstring_eqb s t = true <-> s = t.
Proof.
  unfold jsstring_eqb. destruct (list_eq_dec Z.eq_dec s t); split;
    congruence.
Qed.

Lemma jsstring_eqb_refl (s : jsstring) : jsstring_eqb s s = true.
Proof. apply jsstring_eqb_eq. reflexivity. Qed.

Lemma jsstring_eqb_neq (s t : jsstring) : jsstring_eqb s t = false <-> s <> t.
Proof.
  unfold jsstring_eqb. destruct (list_eq_dec Z.eq_dec s t); split;
    congruence.
Qed.

Section SetFacts.

Context {A : Type} (eqb : A -> A -> bool).
Hypothesis eqb_eq : forall a b, eqb a b = true <-> a = b.

Lemma eqb_false (a b : A) : eqb a b = false <-> a <> b.
Proof.
  destruct (eqb a b) eqn:E; split; try congruence.
  - apply eqb_eq in E. congruence.
  - intros _ Heq. apply eqb_eq in Heq. congruence.
Qed.

Lemma setAdd_spec (s : list A) (a : A) :
  setAdd eqb s a = if existsb (fun b => eqb b a) s then s else s ++ [a].
Proof.
  induction s as [|b s IH]; simpl; [reflexivity|].
  destruct (eqb b a); simpl; [reflexivity|].
  rewrite IH. destruct (existsb _ s); reflexivity.
Qed.

Lemma filter_filter (p q : A -> bool) (l : list A) :
  filter p (filter q l) = filter (fun a => q a && p a) l.
Proof.
  induction l as [|a l IH]; simpl; [reflexivity|].
  destruct (q a); simpl; [destruct (p a)|]; rewrite IH; reflexivity.
Qed.

Lemma setOf_from (l : list A) :
  forall acc,
    fold_left (setAdd eqb) l acc
    = acc ++ filter (fun b => negb (existsb (fun c => eqb c b) acc))
               (firstSeen eqb l).
Proof.
  induction l as [|a l IH]; intros acc; simpl.
  - rewrite app_nil_r. reflexivity.
  - rewrite IH, setAdd_spec. destruct (existsb (fun b => eqb b a) acc) eqn:E;
      simpl.
    + f_equal. rewrite filter_filter. apply filter_ext. intros b.
      destruct (eqb a b) eqn:Eab; simpl; [|reflexivity].
      apply eqb_eq in Eab. subst b. rewrite E. reflexivity.
    + rewrite <- app_assoc. simpl. do 2 f_equal.
      rewrite filter_filter. apply filter_ext. intros b.
      rewrite existsb_app. simpl. rewrite orb_false_r, negb_orb.
      destruct (eqb a b) eqn:Eab; simpl.
      * apply andb_false_r.
      * rewrite andb_true_r. reflexivity.
Qed.

(** [new Set(l)] iterates as the first occurrences of [l]. *)
Lemma setOf_firstSeen (l : list A) : setOf eqb l = firstSeen eqb l.
Proof.
  unfold setOf. rewrite setOf_from. simpl.
  induction (firstSeen eqb l) as [|a f IH]; simpl; congruence.
Qed.

Lemma firstSeen_In (l : list A) (a : A) : In a (firstSeen eqb l) <-> In a l.
Proof.
  induction l as [|b l IH]; simpl; [tauto|].
  rewrite filter_In, IH. split.
  - tauto.
  - intros [->|H]; [tauto|].
    destruct (eqb b a) eqn:E.
    + left. apply eqb_eq. exact E.
    + right. tauto.
Qed.

Lemma firstSeen_NoDup (l : list A) : NoDup (firstSeen eqb l).
Proof.
  induction l as [|a l IH]; simpl; constructor.
  - rewrite filter_In. intros [_ H].
    assert (E : eqb a a = true) by (apply eqb_eq; reflexivity).
    rewrite E in H. discriminate.
  - apply NoDup_filter. exact IH.
Qed.

(** [m.get(k)] after the entries were [set] in order: the entry set last. *)
Lemma mapGet_mapSet {V : Type} (m : list (A * V)) (k k' : A) (v : V) :
  mapGet eqb (mapSet eqb m k v) k'
  = if eqb k k' then Some v else mapGet eqb m k'.
Proof.
  induction m as [|[k0 v0] m IH]; simpl.
  - reflexivity.
  - destruct (eqb k0 k) eqn:E0; simpl.
    + apply eqb_eq in E0. subst k0. destruct (eqb k k'); reflexivity.
    + destruct (eqb k0 k') eqn:E1.
      * destruct (eqb k k') eqn:E2; [|reflexivity].
        apply eqb_eq in E1, E2. apply eqb_false in E0. congruence.
      * exact IH.
Qed.

End SetFacts.

Section ObjectFacts.

Context {V : Type}.

Lemma setProperty_fresh (o : object V) (k : jsstring) (v : V) :
  ~ In k (map fst o) -> setProperty o k v = o ++ [(k, v)].
Proof.
  induction o as [|[k' v'] o IH]; simpl; intros H; [reflexivity|].
  destruct (jsstring_eqb k' k) eqn:E.
  - apply jsstring_eqb_eq in E. tauto.
  - rewrite IH by tauto. reflexivity.
Qed.

Lemma fromEntries_from (entries : list (jsstring * V)) :
  forall o,
    NoDup (map fst o ++ map fst entries) ->
    fold_left (fun o kv => setProperty o (fst kv) (snd kv)) entries o
    = o ++ entries.
Proof.
  induction entries as [|[k v] entries IH]; intros o H; simpl.
  - rewrite app_nil_r. reflexivity.
  - simpl in H. rewrite setProperty_fresh.
    + rewrite IH; rewrite ?map_app, <- ?app_assoc; simpl; auto.
    + apply NoDup_remove_2 in H. intros Hin. apply H.
      apply in_or_app. tauto.
Qed.

(** Distinct keys: [Object.fromEntries] keeps the entries as they are. *)
Lemma fromEntries_distinct (entries : list (jsstring * V)) :
  NoDup (map fst entries) -> fromEntries entries = entries.
Proof.
  intros H. unfold fromEntries. rewrite fromEntries_from; auto.
Qed.

End ObjectFacts.

Lemma combine_fst {A B : Type} (l : list A) (l' : list B) :
  length l = length l' -> map fst (combine l l') = l.
Proof.
  revert l'. induction l as [|a l IH]; intros [|b l']; simpl; intros H;
    try discriminate; [reflexivity|].
  f_equal. apply IH. lia.
Qed.

(** [flags]: the distinct entries of [animflags], numbered from 0. *)
Lemma flagsOf_enumerate (tokens : list jsstring) :
  flagsOf (setOf jsstring_eqb tokens)
  = enumerate (firstSeen jsstring_eqb tokens).
Proof.
  unfold flagsOf, enumerate.
  rewrite (setOf_firstSeen jsstring_eqb jsstring_eqb_eq).
  apply fromEntries_distinct. rewrite combine_fst.
  - apply (firstSeen_NoDup jsstring_eqb jsstring_eqb_eq).
  - rewrite length_map, length_seq. reflexivity.
Qed.

(* ================================================================== *)
(** * Properties of the reducer *)
(* ================================================================== *)

Lemma nth_setNth {A : Type} (l : list A) (p i : nat) (a d : A) :
  nth i (setNth l p a) d
  = if (Nat.eqb i p && Nat.ltb p (length l))%bool then a else nth i l d.
Proof.
  revert p i. induction l as [|b l IH]; intros [|p] [|i]; simpl;
    rewrite ?andb_false_r; auto.
Qed.

Lemma Written_store (N : nat) (W : list Z) (st : Emission) (v : Z) :
  Written N W st -> Written N (W ++ [toInt16 v]) (store st v).
Proof.
  intros (Hp & Hl & Hn). unfold Written, store. simpl.
  rewrite length_app, setNth_length. simpl. repeat split; [lia|exact Hl|].
  intros i Hi. rewrite nth_setNth, Hp, Hl.
  destruct (Nat.eqb i (length W)) eqn:E; simpl.
  - apply Nat.eqb_eq in E. subst i.
    replace (length W <? N)%nat with true
      by (symmetry; apply Nat.ltb_lt; exact Hi).
    rewrite app_nth2, Nat.sub_diag by lia. reflexivity.
  - apply Nat.eqb_neq in E. rewrite Hn by exact Hi.
    destruct (Nat.lt_ge_cases i (length W)).
    + rewrite app_nth1 by lia. reflexivity.
    + rewrite !nth_overflow; [reflexivity| |lia].
      rewrite length_app. simpl. lia.
Qed.

Lemma Written_storeAll (N : nat) (vs : list Z) :
  forall W st,
    Written N W st -> Written N (W ++ map toInt16 vs) (storeAll st vs).
Proof.
  unfold storeAll. induction vs as [|v vs IH]; intros W st H; simpl.
  - rewrite app_nil_r. exact H.
  - replace (W ++ toInt16 v :: map toInt16 vs)
      with ((W ++ [toInt16 v]) ++ map toInt16 vs)
      by (rewrite <- app_assoc; reflexivity).
    apply IH. apply Written_store. exact H.
Qed.

Lemma storeAll_layermeta (vs : list Z) :
  forall st, layermeta (storeAll st vs) = layermeta st.
Proof.
  unfold storeAll. induction vs as [|v vs IH]; intros st; simpl; auto.
  rewrite IH. reflexivity.
Qed.

(** A full array holds exactly what was written. *)
Lemma Written_full (N : nat) (W : list Z) (st : Emission) :
  Written N W st -> length W = N -> arr st = W.
Proof.
  intros (_ & Hl & Hn) HW. apply nth_ext with (d := 0) (d' := 0).
  - lia.
  - intros i Hi. apply Hn. lia.
Qed.

Section EmissionFacts.

Variable crc2uniqcell : list (Z * nat).
Variable celtoitem : list (nat * PackItem).
Variable flags : object Z.

Let recordOf (cc : Cel.t * Z) (vs : list Z) : Prop :=
  celRecord crc2uniqcell celtoitem (fst cc) (snd cc) = Ok vs.

Lemma emitCells_spec (N : nat) (l : nat) (ccs : list (Cel.t * Z)) :
  forall W st st',
    emitCells crc2uniqcell celtoitem (Some l) ccs st = Ok st' ->
    Written N W st ->
    exists recs,
      Forall2 recordOf (layerCells l ccs) recs
      /\ Written N (W ++ map toInt16 (concat recs)) st'
      /\ layermeta st' = layermeta st.
Proof.
  induction ccs as [|[cel crcofc] ccs IH]; simpl; intros W st st' H HW.
  - injection H as <-. exists []. simpl. rewrite app_nil_r.
    split; [constructor | split; [exact HW | reflexivity]].
  - bind_ok H as st1 E1. unfold emitCel in E1.
    destruct (Cel.layeridx cel =? Z.of_nat l) eqn:El; simpl in E1.
    + bind_ok E1 as vs Evs. injection E1 as <-.
      destruct (IH (W ++ map toInt16 vs) _ _ H) as (recs & Hrecs & HW' & Hm).
      { destruct (Written_storeAll N vs W st HW) as (? & ? & ?).
        repeat split; assumption. }
      exists (vs :: recs). simpl. rewrite List.map_app, app_assoc.
      split; [|split].
      * constructor; [exact Evs | exact Hrecs].
      * exact HW'.
      * rewrite Hm. simpl. apply storeAll_layermeta.
    + injection E1 as <-. eapply IH; eauto.
Qed.

(** The flag word pushed for a used layer. *)
Let metaOf (l : AseChunk) (m : Z) : Prop :=
  exists n, firstText l = Ok n /\ m = computeFlags flags n.

Lemma emitLayers_spec (N : nat) (ccs : list (Cel.t * Z))
  (usedlayers : list AseChunk) :
  forall layerid W st st',
    emitLayers true crc2uniqcell celtoitem flags ccs usedlayers layerid st
      = Ok st' ->
    length layerid = length usedlayers ->
    Written N W st ->
    exists rows metas,
      Forall2 (fun l recs => Forall2 recordOf (layerCells l ccs) recs)
        layerid rows
      /\ Written N (W ++ map toInt16 (concat (map (@concat Z) rows))) st'
      /\ Forall2 metaOf usedlayers metas
      /\ layermeta st' = layermeta st ++ metas.
Proof.
  induction usedlayers as [|u usedlayers IH];
    intros layerid W st st' H Hlen HW; simpl in H.
  - injection H as <-. destruct layerid; [|discriminate].
    exists [], []. simpl. rewrite !app_nil_r.
    split; [constructor | split; [exact HW | split; constructor]].
  - destruct layerid as [|l layerid]; [discriminate|]. simpl in H, Hlen.
    bind_ok H as st1 E1. bind_ok H as n En.
    destruct (emitCells_spec N l ccs W st st1 E1 HW)
      as (recs & Hrecs & HW1 & Hm1).
    edestruct (IH layerid (W ++ map toInt16 (concat recs))) as
      (rows & metas & Hrows & HW' & Hmetas & Hm'); [exact H | lia | |].
    { destruct HW1 as (? & ? & ?). repeat split; assumption. }
    exists (recs :: rows), (computeFlags flags n :: metas). simpl.
    rewrite List.map_app, app_assoc. split; [|split; [|split]].
    + constructor; assumption.
    + exact HW'.
    + constructor; [exists n; auto | exact Hmetas].
    + rewrite Hm'. simpl. rewrite Hm1, <- app_assoc. reflexivity.
Qed.

Lemma emitCells_layermeta (layerid0 : option nat) (ccs : list (Cel.t * Z)) :
  forall st st',
    emitCells crc2uniqcell celtoitem layerid0 ccs st = Ok st' ->
    layermeta st' = layermeta st.
Proof.
  induction ccs as [|[cel crcofc] ccs IH]; simpl; intros st st' H.
  - injection H as <-. reflexivity.
  - bind_ok H as st1 E1. rewrite (IH _ _ H). unfold emitCel in E1.
    match type of E1 with
    | (if ?c then _ else _) = _ => destruct c
    end.
    + injection E1 as <-. reflexivity.
    + bind_ok E1 as vs Evs. injection E1 as <-. simpl.
      apply storeAll_layermeta.
Qed.

(** With or without [animdata], one flag word per used layer. *)
Lemma emitLayers_metas (animdata : bool) (ccs : list (Cel.t * Z))
  (usedlayers : list AseChunk) :
  forall layerid st st',
    emitLayers animdata crc2uniqcell celtoitem flags ccs usedlayers layerid
      st = Ok st' ->
    exists metas,
      Forall2 metaOf usedlayers metas
      /\ layermeta st' = layermeta st ++ metas.
Proof.
  induction usedlayers as [|u usedlayers IH]; intros layerid st st' H;
    simpl in H.
  - injection H as <-. exists []. rewrite app_nil_r. split; constructor.
  - bind_ok H as st1 E1. bind_ok H as n En.
    destruct (IH _ _ _ H) as (metas & Hmetas & Hm).
    exists (computeFlags flags n :: metas). split.
    + constructor; [exists n; auto | exact Hmetas].
    + rewrite Hm. simpl. rewrite <- app_assoc. f_equal.
      destruct animdata.
      * rewrite (emitCells_layermeta _ _ _ _ E1). reflexivity.
      * injection E1 as <-. reflexivity.
Qed.

End EmissionFacts.

(** ** Lists cut into blocks of one size *)

Section Blocks.

Context {A : Type}.

Lemma concat_uniform_block (b : nat) (R : list (list A)) :
  (forall r, In r R -> length r = b) ->
  forall i r, nth_error R i = Some r ->
              firstn b (skipn (b * i) (concat R)) = r.
Proof.
  induction R as [|a R IH]; intros Hb i r Hi.
  - destruct i; discriminate.
  - assert (Ha : length a = b) by (apply Hb; left; reflexivity).
    destruct i as [|i]; simpl in Hi |- *.
    + injection Hi as <-. rewrite Nat.mul_0_r. simpl.
      rewrite <- Ha, <- (Nat.add_0_r (length a)), firstn_app_2. simpl.
      apply app_nil_r.
    + rewrite skipn_app, skipn_all2 by lia. simpl.
      replace (b * S i - length a)%nat with (b * i)%nat by lia.
      apply IH; [|exact Hi]. intros r' Hr'. apply Hb. right. exact Hr'.
Qed.

Lemma concat_uniform_length (b : nat) (R : list (list A)) :
  (forall r, In r R -> length r = b) ->
  length (concat R) = (b * length R)%nat.
Proof.
  induction R as [|a R IH]; intros Hb; simpl; [lia|].
  rewrite length_app, IH by (intros; apply Hb; simpl; auto).
  rewrite (Hb a) by (left; reflexivity). lia.
Qed.

Lemma nth_error_concat_uniform (F : nat) (rows : list (list A)) :
  (forall row, In row rows -> length row = F) ->
  forall k row f r,
    nth_error rows k = Some row -> nth_error row f = Some r ->
    nth_error (concat rows) (k * F + f) = Some r.
Proof.
  induction rows as [|a rows IH]; intros HF k row f r Hk Hf.
  - destruct k; discriminate.
  - assert (Ha : length a = F) by (apply HF; left; reflexivity).
    destruct k as [|k]; simpl in Hk |- *.
    + injection Hk as <-. rewrite nth_error_app1; [exact Hf|].
      apply nth_error_Some. congruence.
    + rewrite nth_error_app2 by lia.
      replace (F + k * F + f - length a)%nat with (k * F + f)%nat by lia.
      eapply IH; eauto. intros row' Hr'. apply HF. right. exact Hr'.
Qed.

Lemma concat_map_concat (rows : list (list (list A))) :
  concat (map (@concat A) rows) = concat (concat rows).
Proof.
  induction rows as [|r rows IH]; simpl; [reflexivity|].
  rewrite concat_app, IH. reflexivity.
Qed.

End Blocks.

Lemma Forall2_nth_error {A B : Type} (R : A -> B -> Prop) (l : list A)
  (l' : list B) :
  Forall2 R l l' ->
  forall i a, nth_error l i = Some a ->
              exists b, nth_error l' i = Some b /\ R a b.
Proof.
  induction 1 as [|a0 b0 l l' H0 H IH]; intros i a Hi.
  - destruct i; discriminate.
  - destruct i as [|i]; simpl in *.
    + injection Hi as <-. eauto.
    + eauto.
Qed.

Lemma Forall2_map_l {A B C : Type} (R : B -> C -> Prop) (f : A -> B)
  (l : list A) (l' : list C) :
  Forall2 R (map f l) l' -> Forall2 (fun a c => R (f a) c) l l'.
Proof.
  revert l'. induction l as [|a l IH]; intros l' H; inversion H; subst;
    constructor; auto.
Qed.

Lemma filter_flat_map {A B : Type} (p : B -> bool) (f : A -> list B)
  (l : list A) :
  filter p (flat_map f l) = flat_map (fun a => filter p (f a)) l.
Proof.
  induction l as [|a l IH]; simpl; [reflexivity|].
  rewrite filter_app, IH. reflexivity.
Qed.

(** ** The checksum pass and the atlas lookup *)

Lemma firstIndex_app (c x : Z) (p : list Z) :
  firstIndex c (p ++ [x])
  = match firstIndex c p with
    | Some i => Some i
    | None => if x =? c then Some (length p) else None
    end.
Proof.
  induction p as [|y p IH]; simpl.
  - destruct (x =? c); reflexivity.
  - destruct (y =? c); [reflexivity|]. rewrite IH.
    destruct (firstIndex c p); simpl; [reflexivity|].
    destruct (x =? c); reflexivity.
Qed.

Lemma firstIndex_None (c : Z) (p : list Z) :
  firstIndex c p = None <-> existsb (Z.eqb c) p = false.
Proof.
  induction p as [|y p IH]; simpl; [tauto|].
  rewrite (Z.eqb_sym c y). destruct (y =? c); simpl.
  - split; discriminate.
  - rewrite <- IH. destruct (firstIndex c p); simpl; split; congruence.
Qed.

Lemma existsb_setAdd (s : list Z) (x c : Z) :
  existsb (Z.eqb c) (setAdd Z.eqb s x) = existsb (Z.eqb c) s || (c =? x).
Proof.
  induction s as [|b s IH]; simpl.
  - apply orb_false_r.
  - destruct (b =? x) eqn:E; simpl.
    + apply Z.eqb_eq in E. subst b.
      destruct (c =? x); simpl; [reflexivity|]. rewrite orb_false_r.
      reflexivity.
    + rewrite IH. apply orb_assoc.
Qed.

Lemma DedupInv_step (d : Dedup) (p : list Z) (x : Z) :
  DedupInv d p -> DedupInv (dedupStep d (length p, x)) (p ++ [x]).
Proof.
  intros [Hc Hm]. unfold dedupStep.
  destruct (existsb (Z.eqb x) (addedc d)) eqn:E; split; simpl; intros c.
  - rewrite existsb_app, Hc. simpl. rewrite orb_false_r.
    destruct (c =? x) eqn:Ecx; [|rewrite orb_false_r; reflexivity].
    apply Z.eqb_eq in Ecx. subst c. rewrite <- Hc, E. reflexivity.
  - rewrite firstIndex_app, Hm. destruct (firstIndex c p) eqn:Ef;
      [reflexivity|].
    destruct (x =? c) eqn:Exc; [|reflexivity].
    apply Z.eqb_eq in Exc. subst c. apply firstIndex_None in Ef.
    rewrite <- Hc in Ef. congruence.
  - rewrite existsb_setAdd, existsb_app, Hc. simpl.
    rewrite orb_false_r. reflexivity.
  - rewrite (mapGet_mapSet Z.eqb Z.eqb_eq), firstIndex_app, Hm.
    destruct (x =? c) eqn:Exc.
    + apply Z.eqb_eq in Exc. subst c. rewrite Hc in E.
      apply firstIndex_None in E. rewrite E. reflexivity.
    + destruct (firstIndex c p); reflexivity.
Qed.

Lemma DedupInv_fold (rest : list Z) :
  forall p d,
    DedupInv d p ->
    DedupInv (fold_left dedupStep
                (combine (seq (length p) (length rest)) rest) d)
      (p ++ rest).
Proof.
  induction rest as [|x rest IH]; intros p d H; simpl.
  - rewrite app_nil_r. exact H.
  - replace (p ++ x :: rest) with ((p ++ [x]) ++ rest)
      by (rewrite <- app_assoc; reflexivity).
    replace (S (length p)) with (length (p ++ [x]))
      by (rewrite length_app; simpl; lia).
    apply IH. apply DedupInv_step. exact H.
Qed.

(** [crc2uniqcell.get(c)] is the first cel whose checksum is [c]. *)
Lemma dedup_representative (crcs : list Z) (c : Z) :
  mapGet Z.eqb (crc2uniqcell (dedup crcs)) c = firstIndex c crcs.
Proof.
  unfold dedup.
  destruct (DedupInv_fold crcs [] (mkDedup [] [] [])) as [_ H].
  - split; reflexivity.
  - apply H.
Qed.

(** [celtoitem.get(cel)] is the item the packer listed last for [cel]. *)
Lemma celtoitemOf_get (res2 : Packing) (i : nat) :
  mapGet Nat.eqb (celtoitemOf res2) i
  = find (fun it => Nat.eqb (item it) i) (rev (items res2)).
Proof.
  unfold celtoitemOf. induction (items res2) as [|it its IH] using rev_ind.
  - reflexivity.
  - rewrite fold_left_app, rev_app_distr. simpl.
    rewrite (mapGet_mapSet Nat.eqb Nat.eqb_eq), IH. reflexivity.
Qed.

(** What the loop writes for a cel is its [animationRecord]. *)
Lemma celRecord_animationRecord (crc : Buffer -> Z) (cells : list Cel.t)
  (res2 : Packing) (cel : Cel.t) (vs : list Z) :
  celRecord (crc2uniqcell (dedup (map (fun e => crc (Cel.pixels e)) cells)))
    (celtoitemOf res2) cel (crc (Cel.pixels cel)) = Ok vs ->
  animationRecord crc cells res2 cel = Some vs /\ length vs = 6%nat.
Proof.
  unfold celRecord, animationRecord, representative, atlasOrigin.
  rewrite dedup_representative.
  destruct (firstIndex _ _) as [rep|]; [|discriminate].
  destruct (Cel.width cel =? 0).
  - intros H. injection H as <-. auto.
  - rewrite celtoitemOf_get.
    destruct (find _ _) as [zone|]; [|discriminate].
    intros H. injection H as <-. auto.
Qed.

Lemma layerCells_combine (f : Cel.t -> Z) (l : nat) (cells : list Cel.t) :
  layerCells l (combine cells (map f cells))
  = map (fun c => (c, f c))
      (filter (fun c => Cel.layeridx c =? Z.of_nat l) cells).
Proof.
  unfold layerCells. induction cells as [|c cells IH]; simpl; [reflexivity|].
  destruct (Cel.layeridx c =? Z.of_nat l); simpl; rewrite IH; reflexivity.
Qed.

(** ** The cels of a layer, frame by frame *)

Lemma filter_seq_one (q : nat -> bool) (l : nat) (n : nat) :
  forall a,
    filter (fun i => q i && Nat.eqb i l)%bool (seq a n)
    = if (Nat.leb a l && Nat.ltb l (a + n) && q l)%bool then [l] else [].
Proof.
  induction n as [|n IH]; intros a; simpl.
  - replace (l <? a + 0)%nat with (l <? a)%nat by (f_equal; lia).
    destruct (Nat.leb_spec a l), (Nat.ltb_spec l a); simpl; auto; lia.
  - rewrite IH. destruct (Nat.eqb_spec a l) as [->|Hne].
    + rewrite Nat.leb_refl.
      replace (l <? l + S n)%nat with true
        by (symmetry; apply Nat.ltb_lt; lia).
      replace (S l <=? l)%nat with false
        by (symmetry; apply Nat.leb_gt; lia).
      simpl. rewrite andb_true_r. destruct (q l); reflexivity.
    + rewrite andb_false_r.
      replace (l <? a + S n)%nat with (l <? S a + n)%nat by (f_equal; lia).
      destruct (Nat.leb_spec a l), (Nat.leb_spec (S a) l); simpl; auto; lia.
Qed.

(** [usedlayers] is [layers.filter(l => l.userdata?.length)]. *)
Lemma usedlayersOf_filter (layers : list AseChunk) :
  usedlayersOf layers = filter isUsed layers.
Proof.
  unfold usedlayersOf, usedWithIndex. generalize 0%nat as a.
  induction layers as [|c layers IH]; intros a; simpl; [reflexivity|].
  destruct (isUsed c); simpl; rewrite IH; reflexivity.
Qed.

Lemma in_combine_seq {A : Type} (l : list A) (i : nat) (c : A) :
  forall a,
    In (i, c) (combine (seq a (length l)) l)
    <-> (a <= i)%nat /\ nth_error l (i - a) = Some c.
Proof.
  induction l as [|b l IH]; intros a; simpl.
  - split; [tauto|]. intros [_ H]. destruct (i - a)%nat; discriminate.
  - rewrite IH. split.
    + intros [H|[Hle Hn]].
      * injection H as <- <-. rewrite Nat.sub_diag. auto.
      * split; [lia|]. replace (i - a)%nat with (S (i - S a)) by lia.
        exact Hn.
    + intros [Hle Hn]. destruct (Nat.eq_dec a i) as [<-|Hne].
      * rewrite Nat.sub_diag in Hn. injection Hn as <-. auto.
      * right. split; [lia|].
        replace (i - a)%nat with (S (i - S a)) in Hn by lia. exact Hn.
Qed.

(** The [k]-th entry of [layerid] is the position in [layers] of the
    [k]-th used layer. *)
Lemma layeridOf_nth (layers : list AseChunk) (k l : nat) :
  nth_error (layeridOf layers) k = Some l ->
  nth_error (usedlayersOf layers) k = nth_error layers l
  /\ nth_error layers l <> None.
Proof.
  unfold layeridOf, usedlayersOf. intros H.
  rewrite nth_error_map in H |- *.
  destruct (nth_error (usedWithIndex layers) k) as [[i c]|] eqn:E;
    [|discriminate].
  injection H as ->. simpl.
  apply nth_error_In in E. unfold usedWithIndex in E.
  apply filter_In in E. destruct E as [E _].
  apply in_combine_seq in E. rewrite Nat.sub_0_r in E.
  destruct E as [_ ->]. split; [reflexivity | discriminate].
Qed.

Lemma layeridOf_lt (layers : list AseChunk) (l : nat) :
  In l (layeridOf layers) -> (l < length layers)%nat.
Proof.
  unfold layeridOf, usedWithIndex. rewrite in_map_iff.
  intros ([i c] & <- & Hin). apply filter_In in Hin. destruct Hin as [Hin _].
  apply in_combine_l in Hin. apply in_seq in Hin. simpl. lia.
Qed.

Lemma pairCel_layeridx (frame : AseFrame) (l : nat) :
  Cel.layeridx (pairCel frame l) = Z.of_nat l.
Proof.
  unfold pairCel. destruct (celsOn l frame) as [|c cs] eqn:E; [reflexivity|].
  assert (Hin : In c (celsOn l frame)) by (rewrite E; left; reflexivity).
  unfold celsOn in Hin. apply filter_In in Hin. destruct Hin as [_ H].
  apply Z.eqb_eq. exact H.
Qed.

(** A frame in which layer [l] has at most one cel contributes to [cells]
    exactly one cel on [l]: [pairCel]. *)
Lemma frameCells_on_layer (nlayers : nat) (layerid : list nat)
  (frame : AseFrame) (l : nat) :
  In l layerid -> (l < nlayers)%nat ->
  (length (celsOn l frame) <= 1)%nat ->
  filter (fun c => Cel.layeridx c =? Z.of_nat l)
    (frameCells nlayers layerid frame)
  = [pairCel frame l].
Proof.
  intros Hin Hlt Hone. unfold frameCells. rewrite filter_app.
  fold (celsOn l frame).
  set (ret := celsOf (chunks frame)).
  assert (Hempty :
    filter (fun c => Cel.layeridx c =? Z.of_nat l)
      (map emptyCel
         (filter (fun r => existsb (Nat.eqb r) layerid)
            (filter (fun i => negb (existsb
                        (fun r => Cel.layeridx r =? Z.of_nat i) ret))
               (seq 0 nlayers))))
    = if existsb (fun r => Cel.layeridx r =? Z.of_nat l) ret then []
      else [emptyCel l]).
  { transitivity
      (map emptyCel
         (filter (fun i => (negb (existsb
                     (fun r => Cel.layeridx r =? Z.of_nat i) ret)
                   && existsb (Nat.eqb i) layerid) && Nat.eqb i l)%bool
            (seq 0 nlayers))).
    - rewrite !filter_filter.
      induction (seq 0 nlayers) as [|i s IH]; simpl; [reflexivity|].
      destruct (negb _ && existsb (Nat.eqb i) layerid)%bool; simpl;
        [|exact IH].
      replace (Z.of_nat i =? Z.of_nat l) with (Nat.eqb i l).
      + destruct (Nat.eqb i l); simpl; rewrite IH; reflexivity.
      + destruct (Nat.eqb_spec i l), (Z.eqb_spec (Z.of_nat i) (Z.of_nat l));
          auto; lia.
    - rewrite (filter_seq_one
                 (fun i => (negb (existsb
                      (fun r => Cel.layeridx r =? Z.of_nat i) ret)
                    && existsb (Nat.eqb i) layerid)%bool)).
      simpl.
      replace (l <? nlayers)%nat with true
        by (symmetry; apply Nat.ltb_lt; exact Hlt).
      replace (existsb (Nat.eqb l) layerid) with true.
      + simpl. rewrite andb_true_r.
        destruct (existsb _ ret); reflexivity.
      + symmetry. apply existsb_exists. exists l. split; [exact Hin|].
        apply Nat.eqb_refl. }
  rewrite Hempty. unfold pairCel.
  assert (Hex : existsb (fun r => Cel.layeridx r =? Z.of_nat l) ret
                = match celsOn l frame with [] => false | _ => true end).
  { unfold celsOn. fold ret. clear. induction ret as [|c ret IH]; simpl;
      [reflexivity|].
    destruct (Cel.layeridx c =? Z.of_nat l); simpl; [reflexivity|exact IH]. }
  rewrite Hex. destruct (celsOn l frame) as [|c [|c' cs]]; simpl in *;
    [reflexivity | reflexivity | lia].
Qed.

Lemma cells_on_layer (frames : list AseFrame) (nlayers : nat)
  (layerid : list nat) (l : nat) :
  In l layerid -> (l < nlayers)%nat ->
  (forall frame, In frame frames -> (length (celsOn l frame) <= 1)%nat) ->
  filter (fun c => Cel.layeridx c =? Z.of_nat l)
    (cellsOf frames nlayers layerid)
  = map (fun frame => pairCel frame l) frames.
Proof.
  intros Hin Hlt Hone. unfold cellsOf. rewrite filter_flat_map.
  induction frames as [|frame frames IH]; simpl; [reflexivity|].
  rewrite frameCells_on_layer;
    [| exact Hin | exact Hlt | apply Hone; left; reflexivity].
  rewrite IH; [reflexivity|].
  intros frame' H'. apply Hone. right. exact H'.
Qed.

Section ReducerFacts.

Variable toString : Buffer -> jsstring.
Variable inflateSync : Buffer -> result Buffer.
Variable crc : Buffer -> Z.
Variable pack : list (nat * Cel.t) -> Packing.

(** The intermediate values of a run of [generate] that returned. *)
Lemma generate_Ok (parsed : ParsedFile) (animdata : bool) (g : Generated) :
  generate crc pack parsed animdata = Ok g ->
  let layers := layersOf (frames parsed) in
  let usedlayers := usedlayersOf layers in
  let layerid := layeridOf layers in
  let cells := cellsOf (frames parsed) (length layers) layerid in
  let crcs := map (fun e => crc (Cel.pixels e)) cells in
  let flags := flagsOf (animflagsOf usedlayers) in
  exists uniquecells st tags,
    uniquecellsOf layers cells (added (dedup crcs)) = Ok uniquecells
    /\ emitLayers animdata (crc2uniqcell (dedup crcs))
         (celtoitemOf (pack uniquecells)) flags (combine cells crcs)
         usedlayers layerid
         (mkEmission
            (repeat 0 (Z.to_nat (6 * Z.of_nat (length usedlayers)
                                 * frame_count (header parsed)))) 0 [] 0)
       = Ok st
    /\ findTags (frames parsed) = Some tags
    /\ g = mkGenerated (width (header parsed), height (header parsed))
             (frame_count (header parsed)) (retag tags) flags (layermeta st)
             (map duration (frames parsed))
             (if animdata then Some (arr st) else None).
Proof.
  intros H. unfold generate in H.
  bind_ok H as uniquecells Eu. bind_ok H as st Est. bind_ok H as tags Etags.
  apply defined_Ok in Etags. injection H as <-.
  exists uniquecells, st, tags. auto.
Qed.

Lemma doGeneration_Ok (file : Buffer) (animdata : bool) (g : Generated) :
  doGeneration toString inflateSync crc pack file animdata = Ok g ->
  exists parsed,
    parseFile toString inflateSync file = Ok parsed
    /\ generate crc pack parsed animdata = Ok g.
Proof.
  unfold doGeneration. intros H. bind_ok H as parsed E. eauto.
Qed.

Lemma findTags_first (frames : list AseFrame) (tags : list Tag.t) :
  findTags frames = Some tags ->
  exists pre c post,
    flat_map chunks frames = pre ++ c :: post
    /\ (forall c', In c' pre -> chunkType c' <> 0x2018)
    /\ body c = TagsChunk tags.
Proof.
  unfold findTags.
  destruct (find isTags (flat_map chunks frames)) as [c|] eqn:E;
    [|discriminate].
  apply find_first in E. destruct E as (Hc & pre & post & Hsplit & Hpre).
  destruct c as [[t|d|c0|ct gm s|ts] ud]; try discriminate.
  intros H. injection H as <-. exists pre, (mkChunk (TagsChunk ts) ud), post.
  split; [exact Hsplit|]. split; [|reflexivity].
  intros c' Hin Htype. apply Hpre in Hin. unfold isTags, chunkType in *.
  destruct (body c'); discriminate.
Qed.

(** C6, as the code has it: the tag table is built from one Tags chunk,
    the first in decode order; a Tags chunk that comes later is not read. *)
Theorem C6_first_tags_chunk_wins
  (file : Buffer) (animdata : bool) (g : Generated) :
  doGeneration toString inflateSync crc pack file animdata = Ok g ->
  exists parsed pre c post tags,
    parseFile toString inflateSync file = Ok parsed
    /\ flat_map chunks (frames parsed) = pre ++ c :: post
    /\ (forall c', In c' pre -> chunkType c' <> 0x2018)
    /\ body c = TagsChunk tags
    /\ anims g = retag tags.
Proof.
  intros H. apply doGeneration_Ok in H. destruct H as (parsed & Hp & Hg).
  apply generate_Ok in Hg.
  destruct Hg as (uniquecells & st & tags & _ & _ & Htags & ->).
  destruct (findTags_first _ _ Htags) as (pre & c & post & Hs & Hpre & Hc).
  exists parsed, pre, c, post, tags. simpl. auto.
Qed.

Lemma truthyStrings_app (l l' : list (option jsstring)) :
  truthyStrings (l ++ l') = truthyStrings l ++ truthyStrings l'.
Proof. unfold truthyStrings. apply flat_map_app. Qed.

Lemma truthyStrings_Some (l : list jsstring) :
  truthyStrings (map Some l) = filter nonEmpty l.
Proof.
  induction l as [|[|c s] l IH]; simpl; [reflexivity|exact IH|].
  rewrite <- IH. reflexivity.
Qed.

(** The strings that reach [animflags] are the non-empty pieces. *)
Lemma truthy_tokens (usedlayers : list AseChunk) :
  truthyStrings (flat_map layerTokens usedlayers)
  = filter nonEmpty (allTokens usedlayers).
Proof.
  unfold allTokens.
  induction usedlayers as [|l usedlayers IH]; simpl; [reflexivity|].
  rewrite truthyStrings_app, filter_app, IH. f_equal.
  unfold layerTokens, userdataOf. destruct (userdata l) as [uds|];
    [|reflexivity].
  induction uds as [|e uds IHu]; simpl; [reflexivity|].
  rewrite truthyStrings_app, filter_app, IHu. f_equal.
  destruct (UserData.text e); [apply truthyStrings_Some | reflexivity].
Qed.

Lemma fold_left_ext_in {A B : Type} (f g : A -> B -> A) (l : list B) :
  (forall a b, In b l -> f a b = g a b) ->
  forall a, fold_left f l a = fold_left g l a.
Proof.
  induction l as [|b l IH]; simpl; intros H a; [reflexivity|].
  rewrite H by auto. apply IH. auto.
Qed.

(** [computeFlags] is [maskOf] as long as no trimmed piece outside the
    vocabulary is the name of an inherited property. *)
Lemma computeFlags_maskOf (flags : object Z) (n : jsstring) :
  (forall u, In u (map trim (split 0x26 n)) ->
             getOwn flags u = None -> inherited u = false) ->
  computeFlags flags n = maskOf flags n.
Proof.
  intros H. unfold computeFlags, maskOf. apply fold_left_ext_in.
  intros ret u Hin. unfold hasProperty, flagBit.
  destruct (getOwn flags u) eqn:E; [reflexivity|].
  rewrite (H u Hin E). reflexivity.
Qed.

(** C8, as the code has it: the vocabulary numbers the distinct non-empty
    pieces of the used layers' user-data texts, split on '&', from 0 in
    first-seen order; the flag word of a used layer is the OR of
    [1 << index] over the trimmed pieces of its first user-data text that
    are keys of the vocabulary, other pieces counting for nothing, as long
    as none of those is the name of a property every object inherits. *)
Theorem C8_vocabulary_of_nonempty_tokens
  (file : Buffer) (animdata : bool) (g : Generated) :
  doGeneration toString inflateSync crc pack file animdata = Ok g ->
  exists parsed,
    parseFile toString inflateSync file = Ok parsed
    /\ let usedlayers := usedlayersOf (layersOf (frames parsed)) in
       gen_flags g
       = enumerate (firstSeen jsstring_eqb
                      (filter nonEmpty (allTokens usedlayers)))
       /\ Forall2
            (fun l m =>
               exists n,
                 firstText l = Ok n
                 /\ ((forall u, In u (map trim (split 0x26 n)) ->
                                getOwn (gen_flags g) u = None ->
                                inherited u = false) ->
                     m = maskOf (gen_flags g) n))
            usedlayers (layers_props g).
Proof.
  intros H. apply doGeneration_Ok in H. destruct H as (parsed & Hp & Hg).
  apply generate_Ok in Hg.
  destruct Hg as (uniquecells & st & tags & _ & Hemit & _ & ->).
  exists parsed. split; [exact Hp|]. simpl. split.
  - unfold animflagsOf. rewrite truthy_tokens. apply flagsOf_enumerate.
  - apply emitLayers_metas in Hemit. destruct Hemit as (metas & Hmetas & ->).
    simpl. eapply Forall2_impl; [|exact Hmetas].
    intros l m (n & Hn & ->). exists n. split; [exact Hn|].
    intros Hinh. apply computeFlags_maskOf. exact Hinh.
Qed.


(** ** The number of frames *)

Lemma parseFrames_length (buffer : Buffer) (n : nat) :
  forall acc acc',
    parseFrames toString inflateSync buffer n acc = Ok acc' ->
    length (snd (fst acc')) = (length (snd (fst acc)) + n)%nat.
Proof.
  induction n as [|n IH]; simpl; intros acc acc' H.
  - injection H as <-. lia.
  - bind_ok H as acc1 E1. rewrite (IH _ _ H).
    destruct acc as [[ptr0 frames0] seen]. unfold parseFrame in E1.
    bind_ok E1 as frame Ef. bind_ok E1 as st Est. injection E1 as <-.
    simpl. rewrite length_app. simpl. lia.
Qed.

(** [parseFile] returns as many frames as the header counts. *)
Lemma parseFile_frame_count (file : Buffer) (parsed : ParsedFile) :
  parseFile toString inflateSync file = Ok parsed ->
  Z.of_nat (length (frames parsed)) = frame_count (header parsed).
Proof.
  unfold parseFile. intros H. bind_ok H as hd Eh. bind_ok H as acc Eacc.
  destruct acc as [[ptr1 frames1] seen]. injection H as <-. simpl.
  apply parseFrames_length in Eacc. simpl in Eacc. rewrite Eacc.
  assert (Hfc : 0 <= frame_count hd).
  { unfold headerParser in Eh.
    destruct (byteLength (subarray file 0 128) <? 124); [discriminate|].
    bind_ok Eh as sz E0. bind_ok Eh as mg E1. bind_ok Eh as fc E2.
    repeat bind_next Eh. injection Eh as <-. simpl.
    apply readUint16LE_word in E2. lia. }
  destruct (color_number hd =? 0); simpl; lia.
Qed.

(** ** The animation array *)

Lemma Forall2_impl_In {A B : Type} (R R' : A -> B -> Prop) (l : list A)
  (l' : list B) :
  Forall2 R l l' ->
  (forall a b, In a l -> R a b -> R' a b) ->
  Forall2 R' l l'.
Proof.
  induction 1 as [|a0 b0 l l' H0 H IH]; intros Himp; constructor.
  - apply Himp; [left; reflexivity | exact H0].
  - apply IH. intros a b Ha. apply Himp. right. exact Ha.
Qed.

Lemma Forall2_In_r {A B : Type} (R : A -> B -> Prop) (l : list A)
  (l' : list B) (b : B) :
  Forall2 R l l' -> In b l' -> exists a, In a l /\ R a b.
Proof.
  induction 1 as [|a0 b0 l l' H0 H IH]; simpl; [tauto|].
  intros [<-|Hin]; [eauto|].
  destruct (IH Hin) as (a & Ha & HR). eauto.
Qed.

Lemma usedlayers_length (layers : list AseChunk) :
  length (layeridOf layers) = length (usedlayersOf layers).
Proof. unfold layeridOf, usedlayersOf. rewrite !length_map. reflexivity. Qed.

Lemma Written_initial (N : nat) :
  Written N [] (mkEmission (repeat 0 N) 0 [] 0).
Proof.
  unfold Written. simpl. rewrite repeat_length. repeat split.
  intros i _. rewrite nth_repeat. destruct i; reflexivity.
Qed.

(** What a run of [doGeneration] with [animdata] wrote, layer by layer. *)
Lemma doGeneration_rows (file : Buffer) (g : Generated) :
  doGeneration toString inflateSync crc pack file true = Ok g ->
  exists parsed uniquecells st rows,
    parseFile toString inflateSync file = Ok parsed
    /\ let layers := layersOf (frames parsed) in
       let layerid := layeridOf layers in
       let cells := cellsOf (frames parsed) (length layers) layerid in
       let crcs := map (fun e => crc (Cel.pixels e)) cells in
       let N := (6 * length (usedlayersOf layers)
                 * length (frames parsed))%nat in
       uniquecellsOf layers cells (added (dedup crcs)) = Ok uniquecells
       /\ animdata g = Some (arr st)
       /\ length (layers_props g) = length (usedlayersOf layers)
       /\ Forall2
            (fun l recs =>
               Forall2
                 (fun cc vs =>
                    celRecord (crc2uniqcell (dedup crcs))
                      (celtoitemOf (pack uniquecells)) (fst cc) (snd cc)
                    = Ok vs)
                 (layerCells l (combine cells crcs)) recs)
            layerid rows
       /\ Written N (map toInt16 (concat (map (@concat Z) rows))) st.
Proof.
  intros H. apply doGeneration_Ok in H. destruct H as (parsed & Hp & Hg).
  apply generate_Ok in Hg.
  destruct Hg as (uniquecells & st & tags & Hu & Hemit & _ & ->).
  rewrite <- (parseFile_frame_count _ _ Hp) in Hemit.
  replace (Z.to_nat
             (6 * Z.of_nat (length (usedlayersOf (layersOf (frames parsed))))
              * Z.of_nat (length (frames parsed))))
    with (6 * length (usedlayersOf (layersOf (frames parsed)))
          * length (frames parsed))%nat in Hemit by lia.
  eapply emitLayers_spec in Hemit;
    [| apply usedlayers_length | apply Written_initial].
  destruct Hemit as (rows & metas & Hrows & HW & Hmetas & Hm).
  exists parsed, uniquecells, st, rows. cbv zeta.
  split; [exact Hp|]. split; [exact Hu|]. split; [reflexivity|].
  split; [|split; [exact Hrows | exact HW]].
  simpl. rewrite Hm. simpl. symmetry. apply (Forall2_length Hmetas).
Qed.

(** C1, as the code has it: the animation array has length
    [6 * used layers * frame_count]; when no frame holds two cels on one
    used layer, it is laid out layer-major, frame-minor in the order of the
    used layers (the layers with user data, in the order of [layers]), and
    the six values at a (layer, frame) pair are those of
    that pair's cel, which sits on that very layer: six zeros for a zero
    width, otherwise its x, y, width, height and the atlas origin of its
    fingerprint representative, each wrapped to 16 bits. *)
Theorem C1_records_layer_major_when_one_cel_per_pair
  (file : Buffer) (g : Generated) :
  doGeneration toString inflateSync crc pack file true = Ok g ->
  exists parsed uniquecells arr,
    parseFile toString inflateSync file = Ok parsed
    /\ let layers := layersOf (frames parsed) in
       let layerid := layeridOf layers in
       let cells := cellsOf (frames parsed) (length layers) layerid in
       uniquecellsOf layers cells
         (added (dedup (map (fun e => crc (Cel.pixels e)) cells)))
       = Ok uniquecells
       /\ animdata g = Some arr
       /\ Z.of_nat (length arr)
          = 6 * Z.of_nat (length (usedlayersOf layers))
            * frame_count (header parsed)
       /\ Z.of_nat (length (frames parsed)) = frame_count (header parsed)
       /\ usedlayersOf layers = filter isUsed layers
       /\ (forall k l, nth_error layerid k = Some l ->
                       nth_error (usedlayersOf layers) k
                       = nth_error layers l)
       /\ (forall frame l, Cel.layeridx (pairCel frame l) = Z.of_nat l)
       /\ (oneCelPerPair (frames parsed) layerid ->
           LayerMajorRecords crc (pack uniquecells) parsed arr).
Proof.
  intros H. apply doGeneration_rows in H.
  destruct H as (parsed & uniquecells & st & rows & Hp & Hu & Ha & _
                 & Hrows & HW).
  exists parsed, uniquecells, (arr st). split; [exact Hp|]. cbv zeta.
  split; [exact Hu|]. split; [exact Ha|].
  pose proof (parseFile_frame_count _ _ Hp) as Hfc.
  split; [|split; [exact Hfc|]].
  { destruct HW as (_ & -> & _). rewrite <- Hfc. lia. }
  split; [apply usedlayersOf_filter|].
  split; [intros k l Hk; apply layeridOf_nth; exact Hk|].
  split; [intros; apply pairCel_layeridx|].
  intros Hone. unfold LayerMajorRecords. cbv zeta.
  set (layers := layersOf (frames parsed)) in *.
  set (layerid := layeridOf layers) in *.
  set (cells := cellsOf (frames parsed) (length layers) layerid) in *.
  set (crcs := map (fun e => crc (Cel.pixels e)) cells) in *.
  set (F := length (frames parsed)) in *.
  (* each row pairs the frames with their records *)
  assert (Hrow : forall l recs,
             In l layerid ->
             Forall2
               (fun cc vs =>
                  celRecord (crc2uniqcell (dedup crcs))
                    (celtoitemOf (pack uniquecells)) (fst cc) (snd cc)
                  = Ok vs)
               (layerCells l (combine cells crcs)) recs ->
             Forall2
               (fun frame vs =>
                  animationRecord crc cells (pack uniquecells)
                    (pairCel frame l) = Some vs
                  /\ length vs = 6%nat)
               (frames parsed) recs).
  { intros l recs Hl Hrecs. unfold crcs in Hrecs.
    rewrite layerCells_combine in Hrecs.
    unfold cells in Hrecs at 2.
    rewrite cells_on_layer in Hrecs;
      [| exact Hl | apply layeridOf_lt; exact Hl
       | intros frame Hf; apply Hone; assumption].
    rewrite map_map in Hrecs. apply Forall2_map_l in Hrecs.
    eapply Forall2_impl; [|exact Hrecs]. simpl.
    intros frame vs Hvs. apply celRecord_animationRecord. exact Hvs. }
  assert (Hrows' : Forall2
             (fun l recs =>
                Forall2
                  (fun frame vs =>
                     animationRecord crc cells (pack uniquecells)
                       (pairCel frame l) = Some vs
                     /\ length vs = 6%nat)
                  (frames parsed) recs)
             layerid rows).
  { eapply Forall2_impl_In; [exact Hrows|]. intros l recs Hl H0.
    apply Hrow; assumption. }
  assert (HlenRow : forall row, In row rows -> length row = F).
  { intros row Hin. destruct (Forall2_In_r _ _ _ _ Hrows' Hin) as (l & _ & Hr).
    apply Forall2_length in Hr. symmetry. exact Hr. }
  assert (HlenRec : forall vs, In vs (concat rows) -> length vs = 6%nat).
  { intros vs Hin. apply in_concat in Hin. destruct Hin as (row & Hrow' & Hvs).
    destruct (Forall2_In_r _ _ _ _ Hrows' Hrow') as (l & _ & Hr).
    destruct (Forall2_In_r _ _ _ _ Hr Hvs) as (frame & _ & _ & Hlen).
    exact Hlen. }
  assert (Harr : arr st = map toInt16 (concat (concat rows))).
  { rewrite <- concat_map_concat. apply (Written_full _ _ _ HW).
    rewrite length_map, concat_map_concat.
    rewrite (concat_uniform_length 6 _ HlenRec).
    rewrite (concat_uniform_length F _ HlenRow).
    rewrite <- (Forall2_length Hrows'). unfold layerid.
    rewrite usedlayers_length. lia. }
  intros k l f frame Hk Hf.
  destruct (Forall2_nth_error _ _ _ Hrows' _ _ Hk) as (row & Hrowk & Hr).
  destruct (Forall2_nth_error _ _ _ Hr _ _ Hf) as (vs & Hvs & Hrec & Hlen).
  exists vs. split; [exact Hrec|].
  rewrite Harr, skipn_map, firstn_map. f_equal.
  apply (concat_uniform_block 6 _ HlenRec).
  eapply nth_error_concat_uniform; eauto.
Qed.


(** ** Which layers and cels take part *)

Lemma filter_none {A : Type} (p : A -> bool) (l : list A) :
  (forall a, In a l -> p a = false) -> filter p l = [].
Proof.
  induction l as [|a l IH]; simpl; intros H; [reflexivity|].
  rewrite (H a) by auto. apply IH. auto.
Qed.

Lemma filterM_In {A : Type} (p : A -> result bool) (l r : list A) :
  filterM p l = Ok r ->
  forall a, In a r <-> In a l /\ p a = Ok true.
Proof.
  revert r. induction l as [|b l IH]; simpl; intros r H a.
  - injection H as <-. simpl. tauto.
  - bind_ok H as keep Ek. bind_ok H as rest Er. injection H as <-.
    specialize (IH rest Er a). destruct keep; simpl; rewrite IH.
    + split.
      * intros [<-|[H1 H2]]; auto.
      * intros [[<-|H1] H2]; auto.
    + split.
      * intros [H1 H2]; auto.
      * intros [[<-|H1] H2]; [congruence | auto].
Qed.

Lemma isUsed_userdataOf (layer : AseChunk) :
  isUsed layer = true <-> userdataOf layer <> [].
Proof.
  unfold isUsed, userdataOf. destruct (userdata layer) as [[|u us]|];
    split; congruence.
Qed.

(** [layerid] holds the positions of the layers that carry user data. *)
Lemma layeridOf_In (layers : list AseChunk) (l : nat) :
  In l (layeridOf layers) <-> carriesUserData layers l.
Proof.
  unfold layeridOf, usedWithIndex, carriesUserData. rewrite in_map_iff.
  split.
  - intros ([i c] & <- & Hin). apply filter_In in Hin.
    destruct Hin as [Hin Hu]. apply in_combine_seq in Hin. simpl in *.
    rewrite Nat.sub_0_r in Hin. exists c. split; [tauto|].
    apply isUsed_userdataOf. exact Hu.
  - intros (layer & Hn & Hu). exists (l, layer). split; [reflexivity|].
    apply filter_In. split.
    + apply in_combine_seq. rewrite Nat.sub_0_r. split; [lia | exact Hn].
    + apply isUsed_userdataOf. exact Hu.
Qed.

Lemma packable_true (layers : list AseChunk) (c : Cel.t) :
  packable layers c = Ok true
  <-> Cel.width c <> 0
      /\ exists layer,
           nth_error layers (Z.to_nat (Cel.layeridx c)) = Some layer
           /\ userdata layer <> None.
Proof.
  unfold packable. destruct (Z.eqb_spec (Cel.width c) 0) as [E|E].
  - split; [discriminate | tauto].
  - destruct (nth_error layers (Z.to_nat (Cel.layeridx c))) as [layer|];
      simpl.
    + split.
      * intros H. split; [exact E|]. exists layer. split; [reflexivity|].
        destruct (userdata layer); [discriminate | congruence].
      * intros (_ & layer' & Hl & Hu). injection Hl as <-.
        destruct (userdata layer); [reflexivity | congruence].
    + split; [discriminate|]. intros (_ & layer & Hl & _). discriminate.
Qed.

(** What is handed to [pack]: the cels first seen with their checksum
    that have a nonzero width and sit on a layer with user data. *)
Lemma uniquecellsOf_In (layers : list AseChunk) (cells : list Cel.t)
  (added : list nat) (uniquecells : list (nat * Cel.t)) :
  uniquecellsOf layers cells added = Ok uniquecells ->
  forall i c,
    In (i, c) uniquecells
    <-> In i added /\ nth_error cells i = Some c
        /\ packable layers c = Ok true.
Proof.
  unfold uniquecellsOf. intros H i c.
  rewrite (filterM_In _ _ _ H (i, c)), in_flat_map. simpl. split.
  - intros [(j & Hj & Hin) Hp]. destruct (nth_error cells j) eqn:E;
      [|destruct Hin].
    destruct Hin as [Heq|[]]. injection Heq as -> ->. auto.
  - intros (Hi & Hc & Hp). split; [|exact Hp]. exists i.
    rewrite Hc. simpl. auto.
Qed.

Lemma toInt16_nonzero (w : Z) : 0 < w < 2 ^ 16 -> toInt16 w <> 0.
Proof.
  intros Hw. unfold toInt16, wrap. change (2 ^ (16 - 1)) with 32768.
  change (2 ^ 16) with 65536 in *.
  pose proof (Z.div_mod (w + 32768) 65536 ltac:(lia)).
  pose proof (Z.mod_pos_bound (w + 32768) 65536 ltac:(lia)). lia.
Qed.

(** C4, as the code has it: the layers are the Layer chunks of all the
    frames, frame after frame in document order (those of frame 0 when no
    later frame holds one).  A layer takes part exactly when it carries at
    least one user-data record: [layers_props] has one entry per such
    layer, only cels on such layers are handed to [pack], and the
    animation array holds what was written for the cels on such layers,
    layer after layer. *)
Theorem C4_used_layers_carry_user_data (file : Buffer) (g : Generated) :
  doGeneration toString inflateSync crc pack file true = Ok g ->
  exists parsed uniquecells arr rows,
    parseFile toString inflateSync file = Ok parsed
    /\ let layers := layersOf (frames parsed) in
       let layerid := layeridOf layers in
       let cells := cellsOf (frames parsed) (length layers) layerid in
       let crcs := map (fun e => crc (Cel.pixels e)) cells in
       layers = flat_map (fun e => filter isLayer (chunks e)) (frames parsed)
       /\ (forall frame0 later,
             frames parsed = frame0 :: later ->
             (forall e c, In e later -> In c (chunks e) -> isLayer c = false) ->
             layers = filter isLayer (chunks frame0))
       /\ (forall l, In l layerid <-> carriesUserData layers l)
       /\ length (layers_props g) = length layerid
       /\ uniquecellsOf layers cells (added (dedup crcs)) = Ok uniquecells
       /\ (forall i c, In (i, c) uniquecells ->
                       carriesUserData layers (Z.to_nat (Cel.layeridx c)))
       /\ animdata g = Some arr
       /\ Forall2
            (fun l recs =>
               Forall2
                 (fun cc vs =>
                    celRecord (crc2uniqcell (dedup crcs))
                      (celtoitemOf (pack uniquecells)) (fst cc) (snd cc)
                    = Ok vs)
                 (layerCells l (combine cells crcs)) recs)
            layerid rows
       /\ forall i, (i < length arr)%nat ->
                    nth i arr 0
                    = nth i (map toInt16 (concat (map (@concat Z) rows))) 0.
Proof.
  intros H. apply doGeneration_rows in H.
  destruct H as (parsed & uniquecells & st & rows & Hp & Hu & Ha & Hlp
                 & Hrows & HW).
  exists parsed, uniquecells, (arr st), rows. split; [exact Hp|]. cbv zeta.
  split; [reflexivity|]. split; [|split; [|split; [|split; [|split]]]].
  - intros frame0 later Hf Hlater. unfold layersOf. rewrite Hf. simpl.
    assert (Hnil : flat_map (fun e => filter isLayer (chunks e)) later = []).
    { clear Hf. induction later as [|e later IH]; [reflexivity|].
      simpl. rewrite IH by (intros; eapply Hlater; simpl; eauto).
      rewrite app_nil_r. apply filter_none.
      intros c Hc. apply (Hlater e c); simpl; auto. }
    rewrite Hnil. apply app_nil_r.
  - apply layeridOf_In.
  - rewrite Hlp. symmetry. apply usedlayers_length.
  - exact Hu.
  - intros i c Hin. apply (uniquecellsOf_In _ _ _ _ Hu) in Hin.
    destruct Hin as (_ & _ & Hpk). apply packable_true in Hpk.
    destruct Hpk as (_ & layer & Hl & Hud). exists layer.
    split; [exact Hl|].
    pose proof (parseFile_attached _ _ _ _ Hp) as Hatt.
    assert (Hlayer : In layer (layersOf (frames parsed)))
      by (eapply nth_error_In; eauto).
    unfold layersOf in Hlayer. apply in_flat_map in Hlayer.
    destruct Hlayer as (e & He & Hc). apply filter_In in Hc.
    rewrite Forall_forall in Hatt. specialize (Hatt e He).
    rewrite Forall_forall in Hatt. specialize (Hatt layer (proj1 Hc)).
    unfold attached in Hatt. unfold userdataOf.
    destruct (userdata layer) as [[|u us]|]; congruence.
  - split; [exact Ha|]. split; [exact Hrows|].
    destruct HW as (_ & Hlen & Hn). intros i Hi. apply Hn. lia.
Qed.

End ReducerFacts.



(* ================================================================== *)
(** * The importer on the sample files *)
(* ================================================================== *)

Module OnSamples.

Import Collab Run.

(** A run on [Sample.hero] to which C1 applies. *)
Lemma C1_hero_records :
  exists parsed uniquecells arr,
    parse Sample.hero = Ok parsed
    /\ let layers := layersOf (frames parsed) in
       let layerid := layeridOf layers in
       let cells := cellsOf (frames parsed) (length layers) layerid in
       uniquecellsOf layers cells
         (added (dedup (map (fun e => crc32 (Cel.pixels e)) cells)))
       = Ok uniquecells
       /\ animdata heroGenerated = Some arr
       /\ Z.of_nat (length arr)
          = 6 * Z.of_nat (length (usedlayersOf layers))
            * frame_count (header parsed)
       /\ Z.of_nat (length (frames parsed)) = frame_count (header parsed)
       /\ usedlayersOf layers = filter isUsed layers
       /\ (forall k l, nth_error layerid k = Some l ->
                       nth_error (usedlayersOf layers) k
                       = nth_error layers l)
       /\ (forall frame l, Cel.layeridx (pairCel frame l) = Z.of_nat l)
       /\ (oneCelPerPair (frames parsed) layerid ->
           LayerMajorRecords crc32 (rowPack uniquecells) parsed arr).
Proof.
  apply (C1_records_layer_major_when_one_cel_per_pair asciiToString
           noInflate crc32 rowPack Sample.hero heroGenerated).
  vm_compute. reflexivity.
Defined.

(** The condition of C1 holds on [Sample.hero]. *)
Example hero_one_cel_per_pair :
  oneCelPerPair (frames heroParsed)
    (layeridOf (layersOf (frames heroParsed))).
Proof.
  intros frame l Hf Hl. simpl in Hl. destruct Hl as [<-|[]].
  simpl in Hf. destruct Hf as [<-|[<-|[]]]; vm_compute; lia.
Qed.

(** C1 as the claim words it fails on [Sample.doubled]: the slot of
    (layer 0, frame 1) holds the second cel of frame 0, at x = 2, not the
    cel of frame 1, at x = 3. *)
Lemma C1_counterexample_two_cels_on_a_layer :
  generation Sample.doubled = Ok doubledGenerated
  /\ parse Sample.doubled = Ok doubledParsed
  /\ animdata doubledGenerated = Some [1; 1; 1; 1; 0; 0; 2; 2; 1; 1; 1; 0]
  /\ forall uniquecells,
       ~ LayerMajorRecords crc32 (rowPack uniquecells) doubledParsed
           [1; 1; 1; 1; 0; 0; 2; 2; 1; 1; 1; 0].
Proof.
  split; [vm_compute; reflexivity|]. split; [vm_compute; reflexivity|].
  split; [reflexivity|]. intros uniquecells H.
  unfold LayerMajorRecords in H. cbv zeta in H.
  destruct (nth_error (frames doubledParsed) 1) as [frame|] eqn:Ef;
    [|discriminate Ef].
  specialize (H 0%nat 0%nat 1%nat frame eq_refl Ef).
  vm_compute in Ef. injection Ef as <-.
  destruct H as (vs & Hrec & Harr).
  unfold animationRecord in Hrec.
  change (Cel.width _ =? 0) with false in Hrec. cbv iota in Hrec.
  destruct (representative _ _ _); [|discriminate Hrec].
  destruct (atlasOrigin _ _) as [[ox oy]|]; [|discriminate Hrec].
  injection Hrec as <-. vm_compute in Harr. discriminate Harr.
Qed.


(** The second UserData chunk of [Sample.notes] goes to the layer, after
    the first. *)
Lemma C3_notes_second_userdata :
  (forall st',
      parseChunk asciiToString noInflate Sample.notes [] notesState = Ok st' ->
      map body (loop_chunks st') = map body (loop_chunks notesState))
  /\ exists layer,
       loop_chunks notesState = [layer]
       /\ parseChunk asciiToString noInflate Sample.notes [] notesState
          = Ok (mkLoop 195
                  [mkChunk (body layer)
                     (Some (userdataOf layer
                            ++ [UserData.mk (Some (js "b")) None]))]
                  (Some 0%nat) []).
Proof.
  destruct (C3_userdata_folded_into_last_content_chunk asciiToString
              noInflate Sample.notes [] 2 144 [] notesState 13
              eq_refl eq_refl eq_refl) as (_ & Hbody & _ & Hlast).
  split; [exact Hbody|].
  destruct (loop_chunks notesState) as [|layer [|c cs]] eqn:E;
    try discriminate E.
  exists layer. split; [reflexivity|].
  apply (Hlast [] layer (UserData.mk (Some (js "b")) None) eq_refl).
  reflexivity.
Defined.

(** A run on [Sample.hero] to which C4 applies. *)
Lemma C4_hero_used_layers :
  exists parsed uniquecells arr rows,
    parse Sample.hero = Ok parsed
    /\ let layers := layersOf (frames parsed) in
       let layerid := layeridOf layers in
       let cells := cellsOf (frames parsed) (length layers) layerid in
       let crcs := map (fun e => crc32 (Cel.pixels e)) cells in
       layers = flat_map (fun e => filter isLayer (chunks e)) (frames parsed)
       /\ (forall frame0 later,
             frames parsed = frame0 :: later ->
             (forall e c, In e later -> In c (chunks e) -> isLayer c = false) ->
             layers = filter isLayer (chunks frame0))
       /\ (forall l, In l layerid <-> carriesUserData layers l)
       /\ length (layers_props heroGenerated) = length layerid
       /\ uniquecellsOf layers cells (added (dedup crcs)) = Ok uniquecells
       /\ (forall i c, In (i, c) uniquecells ->
                       carriesUserData layers (Z.to_nat (Cel.layeridx c)))
       /\ animdata heroGenerated = Some arr
       /\ Forall2
            (fun l recs =>
               Forall2
                 (fun cc vs =>
                    celRecord (crc2uniqcell (dedup crcs))
                      (celtoitemOf (rowPack uniquecells)) (fst cc) (snd cc)
                    = Ok vs)
                 (layerCells l (combine cells crcs)) recs)
            layerid rows
       /\ forall i, (i < length arr)%nat ->
                    nth i arr 0
                    = nth i (map toInt16 (concat (map (@concat Z) rows))) 0.
Proof.
  apply (C4_used_layers_carry_user_data asciiToString noInflate crc32
           rowPack Sample.hero heroGenerated).
  vm_compute. reflexivity.
Defined.

(** C4 as the claim words it fails on [Sample.lateLayer]: frame 0 holds
    no Layer chunk, yet the layer declared in frame 1 has its entry in
    [layers_props] and its two animation records. *)
Lemma C4_counterexample_layer_in_a_later_frame :
  generation Sample.lateLayer = Ok lateLayerGenerated
  /\ parse Sample.lateLayer = Ok lateLayerParsed
  /\ (exists frame0 later,
        frames lateLayerParsed = frame0 :: later
        /\ filter isLayer (chunks frame0) = []
        /\ layersOf (frames lateLayerParsed)
           <> filter isLayer (chunks frame0))
  /\ layers_props lateLayerGenerated = [1]
  /\ animdata lateLayerGenerated
     = Some [0; 0; 0; 0; 0; 0; 0; 0; 1; 1; 0; 0].
Proof.
  split; [vm_compute; reflexivity|]. split; [vm_compute; reflexivity|].
  split; [|split; reflexivity].
  eexists. eexists. split; [reflexivity|]. split; [reflexivity|].
  vm_compute. discriminate.
Qed.

(** A file that ends inside a frame fails with the range error of the
    read, which is one of [decodeFailure]; the chunk of [Sample.oversized],
    of a type that is not dispatched on, is stepped over by the 100000
    bytes it declares, and its payload is what is left of the buffer
    after its header: nothing. *)
Lemma C5_truncated_file_throws :
  parse Sample.truncated = Throw RangeError
  /\ decodeFailure noInflate RangeError
  /\ parseChunk asciiToString noInflate Sample.truncated []
       (mkLoop 144 [] None []) = Throw RangeError
  /\ parseChunk asciiToString noInflate Sample.oversized []
       (mkLoop 144 [] None [])
     = Ok (mkLoop (144 + 100000) [] None (setAdd Z.eqb [] 0x7777))
  /\ payload Sample.oversized (mkLoop 144 [] None []) 100000
     = skipn (Z.to_nat (144 + 6)) Sample.oversized
  /\ skipn (Z.to_nat (144 + 6)) Sample.oversized = [].
Proof.
  destruct (C5_decode_failures_are_runtime_errors asciiToString noInflate
              Sample.truncated) as (Hfail & Hchunk & _).
  destruct (C5_decode_failures_are_runtime_errors asciiToString noInflate
              Sample.oversized) as (_ & _ & _ & Hskip & _ & Hpay).
  split; [vm_compute; reflexivity|]. split; [|split; [|split; [|split]]].
  - apply Hfail. vm_compute. reflexivity.
  - apply Hchunk. vm_compute. reflexivity.
  - apply (Hskip [] (mkLoop 144 [] None []) 100000 0x7777);
      vm_compute; reflexivity.
  - apply (Hpay (mkLoop 144 [] None []) 100000).
    + vm_compute. reflexivity.
    + vm_compute. discriminate.
    + vm_compute. discriminate.
  - vm_compute. reflexivity.
Defined.

(** C5 as the claim words it fails on [Sample.oversized]: the chunk at
    offset 144 declares 100000 bytes, six are left in the 150-byte buffer,
    and decoding returns a document. *)
Lemma C5_counterexample_oversized_chunk_accepted :
  readUint32LE Sample.oversized 144 = Ok 100000
  /\ byteLength Sample.oversized = 150
  /\ parse Sample.oversized = Ok oversizedParsed.
Proof. repeat split; vm_compute; reflexivity. Qed.

(** A run on [Sample.hero] to which C6 applies. *)
Lemma C6_hero_tags :
  exists parsed pre c post tags,
    parse Sample.hero = Ok parsed
    /\ flat_map chunks (frames parsed) = pre ++ c :: post
    /\ (forall c', In c' pre -> chunkType c' <> 0x2018)
    /\ body c = TagsChunk tags
    /\ anims heroGenerated = retag tags.
Proof.
  apply (C6_first_tags_chunk_wins asciiToString noInflate crc32 rowPack
           Sample.hero true heroGenerated).
  vm_compute. reflexivity.
Defined.

(** C6 as the claim words it fails on [Sample.twoTags]: the table holds
    the tag of the first Tags chunk, not that of the last. *)
Lemma C6_counterexample_first_tags_chunk_is_read :
  generation Sample.twoTags = Ok twoTagsGenerated
  /\ parse Sample.twoTags = Ok twoTagsParsed
  /\ option_map retag (findTagsLatest (frames twoTagsParsed))
     = Some [(js "last", (1, 1, Some 0, 0))]
  /\ anims twoTagsGenerated = [(js "first", (0, 0, Some 0, 0))]
  /\ Some (anims twoTagsGenerated)
     <> option_map retag (findTagsLatest (frames twoTagsParsed)).
Proof.
  split; [vm_compute; reflexivity|]. split; [vm_compute; reflexivity|].
  split; [vm_compute; reflexivity|]. split; [vm_compute; reflexivity|].
  vm_compute. discriminate.
Qed.


(** A run on [Sample.hero] to which C8 applies. *)
Lemma C8_hero_vocabulary :
  exists parsed,
    parse Sample.hero = Ok parsed
    /\ let usedlayers := usedlayersOf (layersOf (frames parsed)) in
       gen_flags heroGenerated
       = enumerate (firstSeen jsstring_eqb
                      (filter nonEmpty (allTokens usedlayers)))
       /\ Forall2
            (fun l m =>
               exists n,
                 firstText l = Ok n
                 /\ ((forall u, In u (map trim (split 0x26 n)) ->
                                getOwn (gen_flags heroGenerated) u = None ->
                                inherited u = false) ->
                     m = maskOf (gen_flags heroGenerated) n))
            usedlayers (layers_props heroGenerated).
Proof.
  apply (C8_vocabulary_of_nonempty_tokens asciiToString noInflate crc32
           rowPack Sample.hero true heroGenerated).
  vm_compute. reflexivity.
Defined.

(** C8 as the claim words it fails on [Sample.emptyToken]: the text "a&&b"
    splits into "a", "" and "b", and the vocabulary numbers only "a" and
    "b". *)
Lemma C8_counterexample_empty_token_not_numbered :
  generation Sample.emptyToken = Ok emptyTokenGenerated
  /\ parse Sample.emptyToken = Ok emptyTokenParsed
  /\ claimedVocabulary
       (usedlayersOf (layersOf (frames emptyTokenParsed)))
     = [(js "a", 0); (js "", 1); (js "b", 2)]
  /\ gen_flags emptyTokenGenerated = [(js "a", 0); (js "b", 1)]
  /\ gen_flags emptyTokenGenerated
     <> claimedVocabulary
          (usedlayersOf (layersOf (frames emptyTokenParsed))).
Proof.
  split; [vm_compute; reflexivity|]. split; [vm_compute; reflexivity|].
  split; [vm_compute; reflexivity|]. split; [vm_compute; reflexivity|].
  vm_compute. discriminate.
Qed.


(** When the first cel with some pixel bytes sits on a layer without user
    data, a later cel of a used layer with the same bytes finds no atlas
    item and the generation stops on its own "Wtf2" check. *)
Example shared_pixels_with_unused_layer_throw :
  generation Sample.shadowed = Throw (Error "Wtf2").
Proof. vm_compute. reflexivity. Qed.

(** The vocabulary of [Sample.inheritedName] is {" toString": 0, "a": 1};
    the trimmed piece "toString" is not a key of it, but [in] finds the
    inherited property and the flag word gets bit 0: 3 where the pieces of
    the vocabulary alone give 2. *)
Example inherited_name_sets_bit_0 :
  exists g,
    generation Sample.inheritedName = Ok g
    /\ gen_flags g = [(js " toString", 0); (js "a", 1)]
    /\ layers_props g = [3]
    /\ maskOf (gen_flags g) (js " toString&a") = 2.
Proof.
  eexists. split; [vm_compute; reflexivity|].
  repeat split; vm_compute; reflexivity.
Qed.

End OnSamples.

(* ================================================================== *)
(** * Further properties of the decoder *)
(* ================================================================== *)

Lemma index_in_range (b : Buffer) (i : Z) :
  0 <= i < byteLength b -> exists z, index b i = Some z.
Proof.
  unfold index, byteLength. intros H.
  destruct (Z.ltb_spec i 0); [lia|].
  destruct (nth_error b (Z.to_nat i)) as [x|] eqn:E.
  - eexists. reflexivity.
  - apply nth_error_None in E. lia.
Qed.

Lemma readUint16LE_in_range (b : Buffer) (off : Z) :
  0 <= off -> off + 2 <= byteLength b -> exists v, readUint16LE b off = Ok v.
Proof.
  intros H0 H1. unfold readUint16LE.
  destruct (index_in_range b off) as (z0 & ->); [lia|].
  destruct (index_in_range b (off + 1)) as (z1 & ->); [lia|].
  eexists. reflexivity.
Qed.

Lemma readInt16LE_in_range (b : Buffer) (off : Z) :
  0 <= off -> off + 2 <= byteLength b -> exists v, readInt16LE b off = Ok v.
Proof.
  intros H0 H1. unfold readInt16LE.
  destruct (readUint16LE_in_range b off H0 H1) as (v & ->).
  eexists. reflexivity.
Qed.

Lemma readUint32LE_in_range (b : Buffer) (off : Z) :
  0 <= off -> off + 4 <= byteLength b -> exists v, readUint32LE b off = Ok v.
Proof.
  intros H0 H1. unfold readUint32LE.
  destruct (index_in_range b off) as (z0 & ->); [lia|].
  destruct (index_in_range b (off + 1)) as (z1 & ->); [lia|].
  destruct (index_in_range b (off + 2)) as (z2 & ->); [lia|].
  destruct (index_in_range b (off + 3)) as (z3 & ->); [lia|].
  eexists. reflexivity.
Qed.

(** Reading inside a slice is reading the buffer at the shifted offset. *)
Lemma index_subarray (b : Buffer) (s e i : Z) :
  0 <= s -> 0 <= i -> s + i < e ->
  index (subarray b s e) i = index b (s + i).
Proof.
  intros Hs Hi He. rewrite subarray_slice by lia. unfold index.
  destruct (Z.ltb_spec i 0); [lia|]. destruct (Z.ltb_spec (s + i) 0); [lia|].
  f_equal. rewrite nth_error_firstn.
  replace (Z.to_nat i <? Z.to_nat (e - s))%nat with true
    by (symmetry; apply Nat.ltb_lt; lia).
  rewrite nth_error_skipn. f_equal. lia.
Qed.

Lemma readUint16LE_subarray (b : Buffer) (s e off : Z) :
  0 <= s -> 0 <= off -> s + off + 2 <= e ->
  readUint16LE (subarray b s e) off = readUint16LE b (s + off).
Proof.
  intros Hs Ho He. unfold readUint16LE.
  rewrite !index_subarray by lia. rewrite Z.add_assoc. reflexivity.
Qed.

(** The three bytes an old-palette entry is read from. *)
Definition tripleAt (buffer : Buffer) (ptr : Z)
  : option Z * option Z * option Z :=
  (index buffer ptr, index buffer (ptr + 1), index buffer (ptr + 2)).

(** The size fields met by a cursor that starts at [ptr] and steps over
    [n] chunks by their declared sizes (0 where the field cannot be read). *)
Fixpoint declaredSizes (buffer : Buffer) (ptr : Z) (n : nat) : list Z :=
  match n with
  | O => []
  | S n' =>
      let size := match readUint32LE buffer ptr with
                  | Ok v => v
                  | Throw _ => 0
                  end in
      size :: declaredSizes buffer (ptr + size) n'
  end.

Definition sum (l : list Z) : Z := fold_right Z.add 0 l.

(** The types seen so far are pairwise distinct and none is dispatched
    on. *)
Definition unknownTypes (seen : list Z) : Prop :=
  NoDup seen /\ forall t, In t seen -> recognised t = false.

Section MoreDecoderFacts.

Variable toString : Buffer -> jsstring.
Variable inflateSync : Buffer -> result Buffer.

(** X12: A decoded file has as many frames as its header counts, at most 65535,
    and a header whose colour count is never 0: a stored 0 reads as 256. *)
Theorem parseFile_frames_and_colours (file : Buffer) (parsed : ParsedFile) :
  parseFile toString inflateSync file = Ok parsed ->
  Z.of_nat (length (frames parsed)) = frame_count (header parsed)
  /\ 0 <= frame_count (header parsed) < 2 ^ 16
  /\ 1 <= color_number (header parsed) < 2 ^ 16
  /\ (readUint16LE file 28 = Ok 0 -> color_number (header parsed) = 256).
Proof.
  intros H. pose proof (parseFile_frame_count _ _ _ _ H) as Hn.
  split; [exact Hn|].
  unfold parseFile in H. bind_ok H as hd Eh. bind_ok H as acc Eacc.
  destruct acc as [[ptr1 frames1] seen]. injection H as <-.
  unfold headerParser in Eh.
  destruct (byteLength (subarray file 0 128) <? 124) eqn:Elen;
    [discriminate|].
  bind_ok Eh as sz E0. bind_ok Eh as mg E1. bind_ok Eh as fc E2.
  bind_ok Eh as w E3. bind_ok Eh as h E4. bind_ok Eh as dp E5.
  bind_ok Eh as fl E6. bind_ok Eh as sp E7. bind_ok Eh as tpi E8.
  bind_ok Eh as cn E9. bind_ok Eh as pw E10. bind_ok Eh as ph E11.
  injection Eh as <-. simpl.
  apply readUint16LE_word in E2. pose proof (readUint16LE_word _ _ _ E9).
  destruct (Z.eqb_spec cn 0) as [->|Hcn]; simpl.
  - repeat split; try lia.
  - repeat split; try lia. intros H28.
    assert (E : readUint16LE (subarray file 0 128) 28 = readUint16LE file 28)
      by (apply readUint16LE_subarray; lia).
    rewrite E in E9. congruence.
Qed.

(** X13: In a decoded file a [userdata] array that exists holds at least one
    record, so a layer is used exactly when its array exists; and every
    chunk of a frame is of one of the five decoded kinds. *)
Theorem parseFile_userdata_arrays (file : Buffer) (parsed : ParsedFile) :
  parseFile toString inflateSync file = Ok parsed ->
  forall frame c,
    In frame (frames parsed) -> In c (chunks frame) ->
    userdata c <> Some []
    /\ (isUsed c = true <-> userdata c <> None)
    /\ In (chunkType c) [0x0004; 0x2004; 0x2005; 0x2007; 0x2018].
Proof.
  intros H frame c Hf Hc.
  pose proof (parseFile_attached _ _ _ _ H) as Hatt.
  rewrite Forall_forall in Hatt. specialize (Hatt frame Hf).
  rewrite Forall_forall in Hatt. specialize (Hatt c Hc).
  unfold attached in Hatt. split; [exact Hatt|]. split.
  - unfold isUsed. destruct (userdata c) as [[|u us]|]; split; congruence.
  - unfold chunkType. destruct (body c); simpl; tauto.
Qed.

(** X14: Every decoded cel, raw, linked or compressed, has a width between 0
    and 65535, so that its 16-bit image in the animation array is 0 exactly
    when the width is 0. *)
Theorem parseFile_cel_widths (file : Buffer) (parsed : ParsedFile) :
  parseFile toString inflateSync file = Ok parsed ->
  forall frame cel ud,
    In frame (frames parsed) ->
    In (mkChunk (CelChunk cel) ud) (chunks frame) ->
    0 <= Cel.width cel < 2 ^ 16
    /\ (toInt16 (Cel.width cel) = 0 <-> Cel.width cel = 0).
Proof.
  intros H frame cel ud Hf Hc.
  pose proof (parseFile_widthInRange _ _ _ _ H) as Hw.
  rewrite Forall_forall in Hw. specialize (Hw frame Hf).
  rewrite Forall_forall in Hw. specialize (Hw _ Hc).
  unfold widthInRange in Hw. simpl in Hw. split; [exact Hw|]. split.
  - intros H0. destruct (Z.eq_dec (Cel.width cel) 0) as [E|E]; [exact E|].
    exfalso. apply (toInt16_nonzero (Cel.width cel)); [lia | exact H0].
  - intros ->. reflexivity.
Qed.

(** X19: The fixed part of a cel chunk is 11 bytes; with these present, a cel
    type other than 0, 1 or 2 (3 is a tilemap) makes [parseCel] throw
    "Unsupported cel type", whatever follows. *)
Theorem parseCel_unsupported_type (b : Buffer)
  (previousFrames : list AseFrame) (celtype : Z) :
  11 <= byteLength b ->
  readInt16LE b 7 = Ok celtype ->
  celtype <> 0 -> celtype <> 1 -> celtype <> 2 ->
  parseCel inflateSync b previousFrames
  = Throw (Error "Unsupported cel type").
Proof.
  intros Hlen Ht H0 H1 H2. unfold parseCel.
  destruct (readUint16LE_in_range b 0) as (layeridx & ->); [lia..|].
  destruct (readInt16LE_in_range b 2) as (x & ->); [lia..|].
  destruct (readInt16LE_in_range b 4) as (y & ->); [lia..|].
  rewrite Ht.
  destruct (readInt16LE_in_range b 9) as (zindex & ->); [lia..|].
  cbn [Js.bind].
  destruct celtype as [|[p|p|]|p]; try reflexivity; try congruence.
  destruct p; try reflexivity; congruence.
Qed.




Lemma paletteEntries_spec (buffer : Buffer) (n : nat) :
  forall ptr skip table,
    let k := match skip with
             | Some s => Nat.min n (Z.to_nat s)
             | None => O
             end in
    paletteEntries buffer n ptr skip table
    = (ptr + 3 * Z.of_nat n,
       table ++ map (fun j => tripleAt buffer (ptr + 3 * Z.of_nat j))
                  (seq k (n - k))).
Proof.
  induction n as [|n IH]; intros ptr skip table k.
  - simpl. rewrite Z.add_0_r. subst k.
    destruct skip; simpl; rewrite app_nil_r; reflexivity.
  - simpl paletteEntries.
    assert (Hshift : forall a len,
               map (fun j => tripleAt buffer (ptr + 3 + 3 * Z.of_nat j))
                 (seq a len)
               = map (fun j => tripleAt buffer (ptr + 3 * Z.of_nat j))
                   (seq (S a) len)).
    { intros a len. rewrite <- seq_shift, map_map. apply map_ext.
      intros j. f_equal. lia. }
    destruct skip as [s|]; simpl option_map.
    + destruct (Z.ltb_spec 0 s) as [Hs|Hs].
      * rewrite IH. cbv zeta. f_equal; [lia|]. f_equal. rewrite Hshift.
        subst k.
        replace (Nat.min (S n) (Z.to_nat s))
          with (S (Nat.min n (Z.to_nat (s - 1)))) by lia.
        reflexivity.
      * rewrite IH. cbv zeta. f_equal; [lia|]. subst k.
        replace (Nat.min n (Z.to_nat (s - 1))) with O by lia.
        replace (Nat.min (S n) (Z.to_nat s)) with O by lia.
        rewrite Nat.sub_0_r, <- app_assoc, Hshift. simpl.
        rewrite Z.add_0_r. reflexivity.
    + rewrite IH. cbv zeta. f_equal; [lia|]. subst k.
      rewrite Nat.sub_0_r, <- app_assoc, Hshift. simpl.
      rewrite Z.add_0_r. reflexivity.
Qed.

(** X16: An old-palette chunk of one packet, with skip byte [s] and count byte
    [c]: a count of 0 stands for 256 entries; the first [s] entries are
    skipped, not emitted, yet each moves the cursor by three bytes; the
    entries are read from offset 2 on, where the packet header itself
    starts, and a byte past the end of the chunk is [undefined], never an
    error. *)
Theorem parseOldPalette_one_packet (buffer : Buffer) (s c : Z) :
  readUint16LE buffer 0 = Ok 1 ->
  index buffer 2 = Some s ->
  index buffer 3 = Some c ->
  let n := Z.to_nat (if c =? 0 then 256 else c) in
  let k := Nat.min n (Z.to_nat s) in
  exists table,
    parseOldPalette buffer = Ok (OldPalette table)
    /\ table = map (fun j => tripleAt buffer (2 + 3 * Z.of_nat j))
                 (seq k (n - k))
    /\ length table = (n - k)%nat.
Proof.
  intros Hn Hs Hc n k. eexists. split; [|split; [reflexivity|]].
  - unfold parseOldPalette. rewrite Hn. cbn [Js.bind].
    change (Z.to_nat 1) with 1%nat. cbn [palettePackets].
    replace (index buffer (2 + 1)) with (Some c) by (symmetry; exact Hc).
    rewrite Hs.
    replace (match c with 0 => 256 | _ => c end)
      with (if c =? 0 then 256 else c) by (destruct c; reflexivity).
    rewrite paletteEntries_spec. reflexivity.
  - rewrite length_map, length_seq. reflexivity.
Qed.

Lemma parseTags_length (b : Buffer) (n : nat) :
  forall ptr tags tags',
    parseTags toString b n ptr tags = Ok tags' ->
    length tags' = (length tags + n)%nat.
Proof.
  induction n as [|n IH]; simpl; intros ptr tags tags' H.
  - injection H as <-. lia.
  - bind_ok H as from Ef. bind_ok H as to Et. bind_ok H as rp Er.
    bind_ok H as name En. apply IH in H. rewrite H, length_app. simpl. lia.
Qed.

(** X17: The tag count is read as a signed word: a Tags chunk returns exactly
    that many tags or throws, and a count that is zero or negative (0x8000
    and above) gives an empty table without reading further. *)
Theorem parseTagsChunk_count (b : Buffer) (tag_count : Z) :
  readInt16LE b 0 = Ok tag_count ->
  (tag_count <= 0 -> parseTagsChunk toString b = Ok (TagsChunk []))
  /\ (forall chunk,
        parseTagsChunk toString b = Ok chunk ->
        exists tags, chunk = TagsChunk tags
                     /\ length tags = Z.to_nat tag_count).
Proof.
  intros Hc. unfold parseTagsChunk. rewrite Hc. cbn [Js.bind]. split.
  - intros Hle. replace (Z.to_nat tag_count) with O by lia. reflexivity.
  - intros chunk H. bind_ok H as tags Et. injection H as <-.
    exists tags. split; [reflexivity|].
    apply parseTags_length in Et. exact Et.
Qed.

(** X18: A length-prefixed string with a length that is not negative decodes
    the bytes that follow the length word, cut short at the end of the
    buffer: a length that overruns the buffer is not an error.  A negative
    length that does not reach back before the start of the buffer gives
    the empty slice. *)
Theorem readPstring_slice (b : Buffer) (off len : Z) :
  0 <= off ->
  readInt16LE b off = Ok len ->
  (0 <= len ->
   readPstring toString b off
   = Ok (toString (firstn (Z.to_nat len) (skipn (Z.to_nat (off + 2)) b))))
  /\ (len < 0 -> 0 <= off + 2 + len ->
      readPstring toString b off = Ok (toString [])).
Proof.
  intros Hoff Hlen. unfold readPstring. rewrite Hlen. cbn [Js.bind]. split.
  - intros H0. rewrite subarray_slice by lia. do 3 f_equal. lia.
  - intros Hneg H0. rewrite subarray_slice by lia.
    replace (Z.to_nat (off + 2 + len - (off + 2))) with O by lia.
    reflexivity.
Qed.

(** ** The cursor and the unknown types *)

Lemma parseChunks_cursor (buffer : Buffer) (frames : list AseFrame)
  (n : nat) :
  forall st st',
    parseChunks toString inflateSync buffer frames n st = Ok st' ->
    ptr st' = ptr st + sum (declaredSizes buffer (ptr st) n).
Proof.
  induction n as [|n IH]; simpl; intros st st' H.
  - injection H as <-. lia.
  - bind_ok H as st1 E1. apply IH in H. rewrite H.
    apply parseChunk_Ok in E1.
    destruct E1 as (chunksize & chunk_type & Hsize & _ & Hturn).
    rewrite Hsize.
    assert (Hp : ptr st1 = ptr st + chunksize) by (destruct Hturn; reflexivity).
    rewrite Hp. lia.
Qed.

(** X11: The chunk loop of a frame ends with the cursor at its start plus the
    sum of the declared sizes of the chunks, whatever their types and
    contents; the next frame header is read there, and the size field of
    the frame header is not used. *)
Theorem parseFrame_cursor (buffer : Buffer) (ptr0 : Z)
  (frames : list AseFrame) (seen : list Z)
  (acc' : Z * list AseFrame * list Z) :
  parseFrame toString inflateSync buffer (ptr0, frames, seen) = Ok acc' ->
  exists frame n,
    frameParser (subarray buffer ptr0 (ptr0 + 16)) = Ok frame
    /\ n = Z.to_nat (if chunk_count frame =? 0 then chunk_count_old frame
                     else chunk_count frame)
    /\ fst (fst acc')
       = ptr0 + 16 + sum (declaredSizes buffer (ptr0 + 16) n)
    /\ length (snd (fst acc')) = S (length frames).
Proof.
  unfold parseFrame. intros H. bind_ok H as frame Ef. bind_ok H as st Est.
  injection H as <-. exists frame. eexists. split; [exact Ef|].
  split; [reflexivity|]. simpl. split.
  - apply parseChunks_cursor in Est. exact Est.
  - rewrite length_app. simpl. lia.
Qed.

Lemma setAdd_In (s : list Z) (a t : Z) :
  In t (setAdd Z.eqb s a) <-> In t s \/ t = a.
Proof.
  induction s as [|b s IH]; simpl.
  - intuition.
  - destruct (Z.eqb_spec b a) as [->|Hne]; simpl.
    + intuition.
    + rewrite IH. intuition.
Qed.

Lemma setAdd_NoDup (s : list Z) (a : Z) :
  NoDup s -> NoDup (setAdd Z.eqb s a).
Proof.
  induction s as [|b s IH]; simpl; intros H.
  - constructor; [intros []|constructor].
  - destruct (Z.eqb_spec b a) as [->|Hne]; [exact H|].
    inversion H as [|? ? Hnin Hnd]; subst. constructor.
    + rewrite setAdd_In. intros [Hin|Heq]; [tauto | congruence].
    + apply IH. exact Hnd.
Qed.

Lemma unknownTypes_chunks (buffer : Buffer) (frames : list AseFrame)
  (n : nat) :
  forall st st',
    unknownTypes (seentypes st) ->
    parseChunks toString inflateSync buffer frames n st = Ok st' ->
    unknownTypes (seentypes st').
Proof.
  induction n as [|n IH]; simpl; intros st st' Hu H.
  - injection H as <-. exact Hu.
  - bind_ok H as st1 E1. eapply IH; [|exact H].
    apply parseChunk_Ok in E1.
    destruct E1 as (chunksize & chunk_type & _ & _ & Hturn).
    destruct Hturn; simpl; try exact Hu.
    destruct Hu as [Hnd Hrec]. split.
    + apply setAdd_NoDup. exact Hnd.
    + intros t Ht. apply setAdd_In in Ht. destruct Ht as [Ht| ->]; auto.
Qed.

Lemma unknownTypes_frames (buffer : Buffer) (n : nat) :
  forall acc acc',
    unknownTypes (snd acc) ->
    parseFrames toString inflateSync buffer n acc = Ok acc' ->
    unknownTypes (snd acc').
Proof.
  induction n as [|n IH]; simpl; intros acc acc' Hu H.
  - injection H as <-. exact Hu.
  - bind_ok H as acc1 E1. eapply IH; [|exact H].
    destruct acc as [[ptr0 frames0] seen]. unfold parseFrame in E1.
    bind_ok E1 as frame Ef. bind_ok E1 as st Est. injection E1 as <-.
    simpl in *. eapply unknownTypes_chunks; [|exact Est]. exact Hu.
Qed.

(** X15: [types] holds no chunk type twice, and none of the six types the
    decoder dispatches on. *)
Theorem parseFile_types (file : Buffer) (parsed : ParsedFile) :
  parseFile toString inflateSync file = Ok parsed ->
  NoDup (types parsed)
  /\ forall t, In t (types parsed) ->
               ~ In t [0x0004; 0x2004; 0x2005; 0x2007; 0x2018; 0x2020].
Proof.
  unfold parseFile. intros H. bind_ok H as hd Eh. bind_ok H as acc Eacc.
  destruct acc as [[ptr1 frames1] seen]. injection H as <-. simpl.
  apply unknownTypes_frames in Eacc.
  - destruct Eacc as [Hnd Hrec]. simpl in *. split; [exact Hnd|].
    intros t Ht Hin. specialize (Hrec t Ht). unfold recognised in Hrec.
    simpl in Hin, Hrec.
    repeat (destruct Hin as [<-|Hin]; [discriminate Hrec|]). exact Hin.
  - split; [constructor | intros t []].
Qed.

End MoreDecoderFacts.

(* ================================================================== *)
(** * Further properties of the reducer *)
(* ================================================================== *)

(** The positions of the checksums that occur there for the first time. *)
Definition firstPositions (crcs : list Z) : list nat :=
  filter (fun i => match firstIndex (nth i crcs 0) crcs with
                   | Some j => Nat.eqb j i
                   | None => false
                   end) (seq 0 (length crcs)).

(** ** Cel completion *)

Lemma frameCells_filter (nlayers : nat) (layerid : list nat)
  (frame : AseFrame) (l : nat) :
  filter (fun c => Cel.layeridx c =? Z.of_nat l)
    (frameCells nlayers layerid frame)
  = celsOn l frame
    ++ (if (match celsOn l frame with [] => true | _ => false end
            && existsb (Nat.eqb l) layerid && Nat.ltb l nlayers)%bool
        then [emptyCel l] else []).
Proof.
  unfold frameCells. rewrite filter_app. fold (celsOn l frame). f_equal.
  set (ret := celsOf (chunks frame)).
  assert (Hex : existsb (fun r => Cel.layeridx r =? Z.of_nat l) ret
                = match celsOn l frame with [] => false | _ => true end).
  { unfold celsOn. fold ret. clear. induction ret as [|c ret IH]; simpl;
      [reflexivity|].
    destruct (Cel.layeridx c =? Z.of_nat l); simpl; [reflexivity|exact IH]. }
  transitivity
    (map emptyCel
       (filter (fun i => (negb (existsb
                   (fun r => Cel.layeridx r =? Z.of_nat i) ret)
                 && existsb (Nat.eqb i) layerid) && Nat.eqb i l)%bool
          (seq 0 nlayers))).
  - rewrite !filter_filter.
    induction (seq 0 nlayers) as [|i s IH]; simpl; [reflexivity|].
    destruct (negb _ && existsb (Nat.eqb i) layerid)%bool; simpl;
      [|exact IH].
    replace (Z.of_nat i =? Z.of_nat l) with (Nat.eqb i l).
    + destruct (Nat.eqb i l); simpl; rewrite IH; reflexivity.
    + destruct (Nat.eqb_spec i l), (Z.eqb_spec (Z.of_nat i) (Z.of_nat l));
        auto; lia.
  - rewrite (filter_seq_one
               (fun i => (negb (existsb
                    (fun r => Cel.layeridx r =? Z.of_nat i) ret)
                  && existsb (Nat.eqb i) layerid)%bool)).
    simpl. rewrite Hex.
    destruct (celsOn l frame), (existsb (Nat.eqb l) layerid),
      (l <? nlayers)%nat; reflexivity.
Qed.

(** X7: The cels that [cells] takes from a frame for the layer at position
    [l]: the frame's own cels on that layer when it has any; exactly one
    empty cel when it has none and the layer carries user data; nothing
    when it has none and the layer carries no user data.  So every used
    layer has a cel in every frame, and no layer without user data gets a
    placeholder. *)
Theorem frameCells_completion (layers : list AseChunk) (frame : AseFrame)
  (l : nat) :
  let on :=
    filter (fun c => Cel.layeridx c =? Z.of_nat l)
      (frameCells (length layers) (layeridOf layers) frame) in
  (celsOn l frame <> [] -> on = celsOn l frame)
  /\ (celsOn l frame = [] -> carriesUserData layers l -> on = [emptyCel l])
  /\ (celsOn l frame = [] -> ~ carriesUserData layers l -> on = [])
  /\ (carriesUserData layers l -> on <> []).
Proof.
  intros on. subst on. rewrite frameCells_filter.
  destruct (existsb (Nat.eqb l) (layeridOf layers)) eqn:Ein.
  - assert (Hin : In l (layeridOf layers)).
    { apply existsb_exists in Ein. destruct Ein as (x & Hx & E).
      apply Nat.eqb_eq in E. subst x. exact Hx. }
    pose proof (layeridOf_lt _ _ Hin) as Hlt.
    apply Nat.ltb_lt in Hlt. rewrite Hlt.
    apply layeridOf_In in Hin.
    destruct (celsOn l frame) as [|c cs]; simpl.
    + repeat split; intros; first [congruence | tauto | discriminate].
    + rewrite app_nil_r.
      repeat split; intros; first [congruence | tauto | discriminate].
  - assert (Hnin : ~ carriesUserData layers l).
    { intros Hc. apply layeridOf_In in Hc.
      assert (E : existsb (Nat.eqb l) (layeridOf layers) = true).
      { apply existsb_exists. exists l. split; [exact Hc|].
        apply Nat.eqb_refl. }
      congruence. }
    rewrite andb_false_r. simpl. rewrite app_nil_r.
    repeat split; intros; first [congruence | tauto].
Qed.

(** ** The checksum pass *)

Lemma firstIndex_lt (c : Z) (p : list Z) (j : nat) :
  firstIndex c p = Some j -> (j < length p)%nat /\ nth j p 0 = c.
Proof.
  revert j. induction p as [|y p IH]; simpl; intros j H; [discriminate|].
  destruct (Z.eqb_spec y c) as [->|Hne].
  - injection H as <-. split; [lia | reflexivity].
  - destruct (firstIndex c p) as [j'|]; [|discriminate].
    injection H as <-. destruct (IH j' eq_refl). split; [lia | assumption].
Qed.

Lemma firstIndex_In (c : Z) (p : list Z) :
  In c p -> firstIndex c p <> None.
Proof.
  intros Hin H. apply firstIndex_None in H.
  assert (E : existsb (Z.eqb c) p = true).
  { apply existsb_exists. exists c. split; [exact Hin | apply Z.eqb_refl]. }
  congruence.
Qed.

Lemma firstPositions_app (p : list Z) (x : Z) :
  firstPositions (p ++ [x])
  = firstPositions p
    ++ (if existsb (Z.eqb x) p then [] else [length p]).
Proof.
  unfold firstPositions. rewrite length_app. simpl.
  rewrite Nat.add_1_r, seq_S, filter_app. simpl. f_equal.
  - apply filter_ext_in. intros i Hi. apply in_seq in Hi.
    rewrite app_nth1 by lia. rewrite firstIndex_app.
    destruct (firstIndex (nth i p 0) p) eqn:E; [reflexivity|].
    exfalso. revert E. apply firstIndex_In. apply nth_In. lia.
  - rewrite app_nth2, Nat.sub_diag by lia. simpl.
    rewrite firstIndex_app, Z.eqb_refl.
    destruct (firstIndex x p) as [j|] eqn:E.
    + destruct (firstIndex_lt _ _ _ E) as [Hlt _].
      replace (Nat.eqb j (length p)) with false
        by (symmetry; apply Nat.eqb_neq; lia).
      replace (existsb (Z.eqb x) p) with true; [reflexivity|].
      destruct (existsb (Z.eqb x) p) eqn:Ex; [reflexivity|].
      apply firstIndex_None in Ex. congruence.
    + rewrite Nat.eqb_refl. apply firstIndex_None in E. rewrite E.
      reflexivity.
Qed.

Lemma firstPositions_lt (p : list Z) (i : nat) :
  In i (firstPositions p) -> (i < length p)%nat.
Proof.
  unfold firstPositions. intros H. apply filter_In in H.
  destruct H as [H _]. apply in_seq in H. lia.
Qed.

Lemma added_fold (rest : list Z) :
  forall p d,
    DedupInv d p -> added d = firstPositions p ->
    added (fold_left dedupStep
             (combine (seq (length p) (length rest)) rest) d)
    = firstPositions (p ++ rest).
Proof.
  induction rest as [|x rest IH]; intros p d Hinv Hadd; simpl.
  - rewrite app_nil_r. exact Hadd.
  - replace (p ++ x :: rest) with ((p ++ [x]) ++ rest)
      by (rewrite <- app_assoc; reflexivity).
    replace (S (length p)) with (length (p ++ [x]))
      by (rewrite length_app; simpl; lia).
    apply IH; [apply DedupInv_step; exact Hinv|].
    rewrite firstPositions_app. unfold dedupStep.
    destruct Hinv as [Hc _]. rewrite (Hc x).
    destruct (existsb (Z.eqb x) p); simpl.
    + rewrite app_nil_r. exact Hadd.
    + rewrite (setAdd_spec Nat.eqb), Hadd.
      replace (existsb (fun b => Nat.eqb b (length p)) (firstPositions p))
        with false; [reflexivity|].
      symmetry. apply not_true_is_false. intros E.
      apply existsb_exists in E. destruct E as (i & Hi & E).
      apply Nat.eqb_eq in E. subst i. apply firstPositions_lt in Hi. lia.
Qed.

Lemma firstIndex_le (c : Z) (p : list Z) :
  forall i r,
    (i < length p)%nat -> nth i p 0 = c -> firstIndex c p = Some r ->
    (r <= i)%nat.
Proof.
  induction p as [|y p IH]; simpl; intros i r Hi Hn Hr; [lia|].
  destruct (Z.eqb_spec y c) as [->|Hne].
  - injection Hr as <-. lia.
  - destruct i as [|i]; [congruence|].
    destruct (firstIndex c p) as [r'|] eqn:E; [|discriminate].
    injection Hr as <-. specialize (IH i r' ltac:(lia) Hn eq_refl). lia.
Qed.

Lemma firstPositions_In (crcs : list Z) (i : nat) :
  In i (firstPositions crcs)
  <-> (i < length crcs)%nat /\ firstIndex (nth i crcs 0) crcs = Some i.
Proof.
  unfold firstPositions. rewrite filter_In, in_seq. split.
  - intros [Hi H]. split; [lia|].
    destruct (firstIndex (nth i crcs 0) crcs) as [j|]; [|discriminate].
    apply Nat.eqb_eq in H. congruence.
  - intros [Hi ->]. split; [lia | apply Nat.eqb_refl].
Qed.

Lemma NoDup_map_on {A B : Type} (f : A -> B) (l : list A) :
  NoDup l ->
  (forall x y, In x l -> In y l -> f x = f y -> x = y) ->
  NoDup (map f l).
Proof.
  induction 1 as [|a l Hnin Hnd IH]; intros Hinj; simpl; constructor.
  - rewrite in_map_iff. intros (y & Hy & Hin).
    apply Hnin. rewrite (Hinj a y); simpl; auto.
  - apply IH. intros x y Hx Hy. apply Hinj; simpl; auto.
Qed.

(** X6: After the checksum pass, [added] holds, in increasing order, the
    positions of the cels that are the first with their checksum, so no
    two of them share a checksum; every cel has a representative in
    [crc2uniqcell], which is in [added], has the cel's checksum and is its
    own representative. *)
Theorem dedup_representatives (crcs : list Z) :
  added (dedup crcs) = firstPositions crcs
  /\ NoDup (map (fun i => nth i crcs 0) (added (dedup crcs)))
  /\ forall i,
       (i < length crcs)%nat ->
       exists r,
         mapGet Z.eqb (crc2uniqcell (dedup crcs)) (nth i crcs 0) = Some r
         /\ (r <= i)%nat
         /\ In r (added (dedup crcs))
         /\ nth r crcs 0 = nth i crcs 0
         /\ mapGet Z.eqb (crc2uniqcell (dedup crcs)) (nth r crcs 0) = Some r.
Proof.
  assert (Hadd : added (dedup crcs) = firstPositions crcs).
  { unfold dedup. apply (added_fold crcs [] (mkDedup [] [] [])).
    - split; reflexivity.
    - reflexivity. }
  split; [exact Hadd|]. split.
  - rewrite Hadd. apply NoDup_map_on.
    + unfold firstPositions. apply NoDup_filter, seq_NoDup.
    + intros x y Hx Hy Hxy. apply firstPositions_In in Hx, Hy.
      destruct Hx as [_ Hx], Hy as [_ Hy]. rewrite Hxy in Hx. congruence.
  - intros i Hi. rewrite !dedup_representative.
    destruct (firstIndex (nth i crcs 0) crcs) as [r|] eqn:E.
    + destruct (firstIndex_lt _ _ _ E) as [Hlt Hn]. exists r.
      split; [reflexivity|]. split.
      * eapply firstIndex_le; eauto.
      * split; [|split; [exact Hn|]].
        -- rewrite Hadd. apply firstPositions_In. split; [exact Hlt|].
           rewrite Hn. exact E.
        -- rewrite dedup_representative, Hn. exact E.
    + exfalso. revert E. apply firstIndex_In. apply nth_In. exact Hi.
Qed.

(** ** What a run that returns implies *)

(** The packer lists no object it was not handed. *)
Definition packsWhatItIsGiven (pack : list (nat * Cel.t) -> Packing) : Prop :=
  forall rects it, In it (items (pack rects)) -> In (item it) (map fst rects).

(** The result of a run without the animation array. *)
Definition withoutAnimdata (g : Generated) : Generated :=
  mkGenerated (extent g) (gen_frame_count g) (anims g) (gen_flags g)
    (layers_props g) (frame_durations g) None.

Lemma Forall2_In_l {A B : Type} (R : A -> B -> Prop) (l : list A)
  (l' : list B) (a : A) :
  Forall2 R l l' -> In a l -> exists b, In b l' /\ R a b.
Proof.
  induction 1 as [|a0 b0 l l' H0 H IH]; simpl; [tauto|].
  intros [<-|Hin]; [eauto|].
  destruct (IH Hin) as (b & Hb & HR). eauto.
Qed.

Section MoreReducerFacts.

Variable toString : Buffer -> jsstring.
Variable inflateSync : Buffer -> result Buffer.
Variable crc : Buffer -> Z.
Variable pack : list (nat * Cel.t) -> Packing.

(** X8: With a packer that lists only what it is handed, a run with
    [animdata] returns only if every cel of nonzero width on a used layer
    has a representative that went to the packer: the first cel with its
    checksum must itself have a nonzero width and sit on a layer with user
    data.  When that first cel sits on a layer without user data, or has
    width 0, the run does not return. *)
Theorem generation_needs_packed_representatives
  (file : Buffer) (g : Generated) :
  packsWhatItIsGiven pack ->
  doGeneration toString inflateSync crc pack file true = Ok g ->
  exists parsed uniquecells,
    parseFile toString inflateSync file = Ok parsed
    /\ let layers := layersOf (frames parsed) in
       let layerid := layeridOf layers in
       let cells := cellsOf (frames parsed) (length layers) layerid in
       uniquecellsOf layers cells
         (added (dedup (map (fun e => crc (Cel.pixels e)) cells)))
       = Ok uniquecells
       /\ forall cel l,
            In cel cells -> In l layerid ->
            Cel.layeridx cel = Z.of_nat l -> Cel.width cel <> 0 ->
            exists r rep,
              representative crc cells cel = Some r
              /\ nth_error cells r = Some rep
              /\ In (r, rep) uniquecells
              /\ crc (Cel.pixels rep) = crc (Cel.pixels cel)
              /\ Cel.width rep <> 0
              /\ carriesUserData layers (Z.to_nat (Cel.layeridx rep)).
Proof.
  intros Hpack H. apply doGeneration_rows in H.
  destruct H as (parsed & uniquecells & st & rows & Hp & Hu & _ & _
                 & Hrows & _).
  exists parsed, uniquecells. split; [exact Hp|]. cbv zeta.
  split; [exact Hu|]. intros cel l Hcel Hl Hidx Hw.
  set (layers := layersOf (frames parsed)) in *.
  set (layerid := layeridOf layers) in *.
  set (cells := cellsOf (frames parsed) (length layers) layerid) in *.
  destruct (Forall2_In_l _ _ _ _ Hrows Hl) as (recs & _ & Hrecs).
  rewrite layerCells_combine in Hrecs.
  assert (Hin : In (cel, crc (Cel.pixels cel))
                  (map (fun c => (c, crc (Cel.pixels c)))
                     (filter (fun c => Cel.layeridx c =? Z.of_nat l) cells))).
  { apply in_map_iff. exists cel. split; [reflexivity|].
    apply filter_In. split; [exact Hcel | apply Z.eqb_eq; exact Hidx]. }
  destruct (Forall2_In_l _ _ _ _ Hrecs Hin) as (vs & _ & Hvs).
  simpl in Hvs. unfold celRecord in Hvs.
  rewrite dedup_representative in Hvs. unfold representative.
  destruct (firstIndex _ _) as [r|] eqn:Er; [|discriminate].
  destruct (Z.eqb_spec (Cel.width cel) 0) as [E|_]; [contradiction|].
  rewrite celtoitemOf_get in Hvs.
  destruct (find _ _) as [zone|] eqn:Ez; [|discriminate].
  apply find_some in Ez. destruct Ez as [Hzone Hitem].
  apply Nat.eqb_eq in Hitem. apply in_rev in Hzone.
  apply Hpack in Hzone. rewrite Hitem in Hzone.
  apply in_map_iff in Hzone. destruct Hzone as ([r' rep] & Hr' & Hrep).
  simpl in Hr'. subst r'.
  pose proof (proj1 (uniquecellsOf_In _ _ _ _ Hu r rep) Hrep)
    as (_ & Hnth & Hpk).
  apply packable_true in Hpk. destruct Hpk as (Hwr & layer & Hlayer & Hud).
  exists r, rep. split; [reflexivity|]. split; [exact Hnth|].
  split; [exact Hrep|]. split; [|split; [exact Hwr|]].
  - destruct (firstIndex_lt _ _ _ Er) as [Hlt Hn].
    rewrite <- Hn. symmetry. apply nth_error_nth.
    rewrite nth_error_map, Hnth. reflexivity.
  - exists layer. split; [exact Hlayer|].
    pose proof (parseFile_attached _ _ _ _ Hp) as Hatt.
    assert (Hlay : In layer (layersOf (frames parsed)))
      by (eapply nth_error_In; eauto).
    unfold layersOf in Hlay. apply in_flat_map in Hlay.
    destruct Hlay as (e & He & Hc). apply filter_In in Hc.
    rewrite Forall_forall in Hatt. specialize (Hatt e He).
    rewrite Forall_forall in Hatt. specialize (Hatt layer (proj1 Hc)).
    unfold attached in Hatt. unfold userdataOf.
    destruct (userdata layer) as [[|u us]|]; congruence.
Qed.

(** X9: A run returns only for a document that holds a Tags chunk and in
    which the first user-data record of every used layer has a text. *)
Theorem generation_needs_tags_and_texts
  (file : Buffer) (animdata : bool) (g : Generated) :
  doGeneration toString inflateSync crc pack file animdata = Ok g ->
  exists parsed,
    parseFile toString inflateSync file = Ok parsed
    /\ (exists frame c tags,
          In frame (frames parsed) /\ In c (chunks frame)
          /\ body c = TagsChunk tags)
    /\ forall layer,
         In layer (layersOf (frames parsed)) -> userdataOf layer <> [] ->
         exists ud uds text,
           userdata layer = Some (ud :: uds)
           /\ UserData.text ud = Some text.
Proof.
  intros H. apply doGeneration_Ok in H. destruct H as (parsed & Hp & Hg).
  apply generate_Ok in Hg.
  destruct Hg as (uniquecells & st & tags & _ & Hemit & Htags & _).
  exists parsed. split; [exact Hp|]. split.
  - apply findTags_first in Htags.
    destruct Htags as (pre & c & post & Hsplit & _ & Hc).
    assert (Hin : In c (flat_map chunks (frames parsed)))
      by (rewrite Hsplit; apply in_or_app; right; left; reflexivity).
    apply in_flat_map in Hin. destruct Hin as (frame & Hf & Hcf).
    exists frame, c, tags. auto.
  - intros layer Hl Hud.
    apply emitLayers_metas in Hemit. destruct Hemit as (metas & Hmetas & _).
    assert (Hused : In layer (usedlayersOf (layersOf (frames parsed)))).
    { rewrite usedlayersOf_filter. apply filter_In. split; [exact Hl|].
      apply isUsed_userdataOf. exact Hud. }
    destruct (Forall2_In_l _ _ _ _ Hmetas Hused) as (m & _ & n & Hn & _).
    unfold firstText in Hn. bind_ok Hn as uds0 E0. bind_ok Hn as ud E1.
    apply defined_Ok in E0, E1, Hn.
    destruct uds0 as [|ud' uds]; [discriminate|]. injection E1 as ->.
    exists ud, uds, n. auto.
Qed.

Lemma emitLayers_without_animdata (crc2uniqcell : list (Z * nat))
  (celtoitem : list (nat * PackItem)) (flags : object Z)
  (ccs : list (Cel.t * Z)) (usedlayers : list AseChunk) :
  forall layerid st st1 st',
    emitLayers true crc2uniqcell celtoitem flags ccs usedlayers layerid st
      = Ok st1 ->
    layermeta st' = layermeta st ->
    exists st2,
      emitLayers false crc2uniqcell celtoitem flags ccs usedlayers layerid
        st' = Ok st2
      /\ layermeta st2 = layermeta st1.
Proof.
  induction usedlayers as [|u usedlayers IH];
    intros layerid st st1 st' H Hm; simpl in *.
  - injection H as <-. exists st'. auto.
  - bind_ok H as sta Ea. bind_ok H as n En. rewrite En. cbn [Js.bind].
    eapply IH; [exact H|]. simpl.
    rewrite Hm, (emitCells_layermeta _ _ _ _ _ _ Ea). reflexivity.
Qed.

(** X10: What the generated module exports does not depend on [animdata]: when
    a run with the animation array returns, the run without it returns the
    same record, less the array. *)
Theorem generation_without_animdata (file : Buffer) (g : Generated) :
  doGeneration toString inflateSync crc pack file true = Ok g ->
  doGeneration toString inflateSync crc pack file false
  = Ok (withoutAnimdata g).
Proof.
  intros H. apply doGeneration_Ok in H. destruct H as (parsed & Hp & Hg).
  apply generate_Ok in Hg.
  destruct Hg as (uniquecells & st & tags & Hu & Hemit & Htags & ->).
  unfold doGeneration. rewrite Hp. cbn [Js.bind]. unfold generate.
  rewrite Hu. cbn [Js.bind].
  eapply emitLayers_without_animdata in Hemit; [|reflexivity].
  destruct Hemit as (st2 & -> & Hm). cbn [Js.bind].
  rewrite Htags. simpl. unfold withoutAnimdata. simpl. rewrite Hm.
  reflexivity.
Qed.

End MoreReducerFacts.

(** ** Lookups in the exported tables *)

(** What [anims] holds for a tag. *)
Definition tagData (e : Tag.t) : Z * Z * option Z * Z :=
  (Tag.from e, Tag.to e, Tag.loop_type e, Tag.repeat e).

(** The bit that [computeFlags] sets for a piece that is [in flags]. *)
Definition bitOf (flags : object Z) (u : jsstring) : Z :=
  match getOwn flags u with
  | Some k => k mod 32
  | None => 0
  end.

Lemma getOwn_setProperty {V : Type} (o : object V) (k k' : jsstring)
  (v : V) :
  getOwn (setProperty o k v) k'
  = if jsstring_eqb k k' then Some v else getOwn o k'.
Proof.
  induction o as [|[k0 v0] o IH]; simpl.
  - reflexivity.
  - destruct (jsstring_eqb k0 k) eqn:E0; simpl.
    + apply jsstring_eqb_eq in E0. subst k0.
      destruct (jsstring_eqb k k'); reflexivity.
    + destruct (jsstring_eqb k0 k') eqn:E1; [|exact IH].
      destruct (jsstring_eqb k k') eqn:E2; [|reflexivity].
      apply jsstring_eqb_eq in E1, E2. apply jsstring_eqb_neq in E0.
      congruence.
Qed.

Lemma getOwn_fromEntries {V : Type} (entries : list (jsstring * V))
  (k : jsstring) :
  getOwn (fromEntries entries) k
  = option_map snd
      (find (fun kv => jsstring_eqb (fst kv) k) (rev entries)).
Proof.
  unfold fromEntries. induction entries as [|[k0 v0] es IH] using rev_ind.
  - reflexivity.
  - rewrite fold_left_app, rev_app_distr. simpl.
    rewrite getOwn_setProperty, IH.
    destruct (jsstring_eqb k0 k); reflexivity.
Qed.

Lemma setProperty_keys {V : Type} (o : object V) (k : jsstring) (v : V) :
  NoDup (map fst o) ->
  NoDup (map fst (setProperty o k v))
  /\ forall k', In k' (map fst (setProperty o k v))
                <-> In k' (map fst o) \/ k' = k.
Proof.
  induction o as [|[k0 v0] o IH]; simpl; intros Hnd.
  - split; [constructor; [intros []|constructor]|]. intros k'. intuition.
  - inversion Hnd as [|? ? Hnin Hnd']; subst.
    destruct (jsstring_eqb k0 k) eqn:E; simpl.
    + apply jsstring_eqb_eq in E. subst k0. split.
      * constructor; assumption.
      * intros k'. intuition.
    + destruct (IH Hnd') as [IHnd IHin]. split.
      * constructor; [|exact IHnd]. rewrite IHin.
        apply jsstring_eqb_neq in E. intros [H|H]; [tauto | congruence].
      * intros k'. rewrite IHin. intuition.
Qed.

Lemma fromEntries_keys {V : Type} (entries : list (jsstring * V)) :
  NoDup (map fst (fromEntries entries))
  /\ forall k, In k (map fst (fromEntries entries))
               <-> In k (map fst entries).
Proof.
  unfold fromEntries. induction entries as [|[k0 v0] es IH] using rev_ind.
  - simpl. split; [constructor | tauto].
  - rewrite fold_left_app. simpl. destruct IH as [IHnd IHin].
    destruct (setProperty_keys _ k0 v0 IHnd) as [Hnd Hin].
    split; [exact Hnd|]. intros k. rewrite Hin, IHin, map_app, in_app_iff.
    simpl. intuition.
Qed.

(** X5: [anims] has one entry per tag name; the entry of a name holds the
    data of the last tag of the Tags chunk with that name: a repeated name
    overwrites the earlier entry. *)
Theorem retag_last_tag_wins (tags : list Tag.t) :
  NoDup (map fst (retag tags))
  /\ (forall name, In name (map fst (retag tags))
                   <-> In name (map Tag.name tags))
  /\ forall name,
       getOwn (retag tags) name
       = option_map tagData
           (find (fun e => jsstring_eqb (Tag.name e) name) (rev tags)).
Proof.
  unfold retag.
  destruct (fromEntries_keys
              (map (fun e => (Tag.name e,
                              (Tag.from e, Tag.to e, Tag.loop_type e,
                               Tag.repeat e))) tags)) as [Hnd Hin].
  split; [exact Hnd|]. split.
  - intros name. rewrite Hin, map_map. simpl. reflexivity.
  - intros name. rewrite getOwn_fromEntries, <- map_rev.
    induction (rev tags) as [|e l IH]; simpl; [reflexivity|].
    destruct (jsstring_eqb (Tag.name e) name); [reflexivity | exact IH].
Qed.

Lemma getOwn_enumerate_from (l : list jsstring) (u : jsstring) (z : Z) :
  NoDup l ->
  forall a,
    getOwn (combine l (map Z.of_nat (seq a (length l)))) u = Some z
    <-> exists j, nth_error l j = Some u /\ z = Z.of_nat (a + j).
Proof.
  induction l as [|t l IH]; intros Hnd a; simpl.
  - split; [discriminate|]. intros (j & Hj & _). destruct j; discriminate.
  - inversion Hnd as [|? ? Hnin Hnd']; subst.
    destruct (jsstring_eqb t u) eqn:E.
    + apply jsstring_eqb_eq in E. subst t. split.
      * intros H. injection H as <-. exists O. split; [reflexivity|].
        f_equal. lia.
      * intros (j & Hj & ->). destruct j as [|j].
        -- f_equal. f_equal. lia.
        -- simpl in Hj. apply nth_error_In in Hj. contradiction.
    + apply jsstring_eqb_neq in E. rewrite (IH Hnd' (S a)). split.
      * intros (j & Hj & ->). exists (S j). split; [exact Hj|].
        f_equal. lia.
      * intros (j & Hj & ->). destruct j as [|j].
        -- simpl in Hj. congruence.
        -- exists j. split; [exact Hj|]. f_equal. lia.
Qed.

(** X4: The vocabulary gives the [i]-th distinct non-empty piece the index
    [i]: every such piece has an index, the indices are below the number
    of pieces, no two pieces share one, and nothing else is a key. *)
Theorem flags_lookup (usedlayers : list AseChunk) :
  let flags := flagsOf (animflagsOf usedlayers) in
  let tokens :=
    firstSeen jsstring_eqb (filter nonEmpty (allTokens usedlayers)) in
  (forall u i,
      getOwn flags u = Some i
      <-> 0 <= i /\ nth_error tokens (Z.to_nat i) = Some u)
  /\ (forall u i, getOwn flags u = Some i ->
                  0 <= i < Z.of_nat (length tokens) /\ u <> [])
  /\ (forall u, In u (allTokens usedlayers) -> u <> [] ->
                exists i, getOwn flags u = Some i)
  /\ (forall u v i, getOwn flags u = Some i -> getOwn flags v = Some i ->
                    u = v).
Proof.
  intros flags tokens.
  assert (Hflags : flags = combine tokens
                             (map Z.of_nat (seq 0 (length tokens)))).
  { unfold flags, animflagsOf. rewrite truthy_tokens.
    apply flagsOf_enumerate. }
  assert (Hnd : NoDup tokens)
    by apply (firstSeen_NoDup jsstring_eqb jsstring_eqb_eq).
  assert (Hlook : forall u i,
             getOwn flags u = Some i
             <-> 0 <= i /\ nth_error tokens (Z.to_nat i) = Some u).
  { intros u i. rewrite Hflags, (getOwn_enumerate_from _ u i Hnd 0%nat).
    split.
    - intros (j & Hj & ->). simpl. rewrite Nat2Z.id. split; [lia | exact Hj].
    - intros [Hi Hj]. exists (Z.to_nat i). split; [exact Hj|]. simpl. lia. }
  assert (Htok : forall u, In u tokens <-> In u (allTokens usedlayers)
                                           /\ u <> []).
  { intros u. unfold tokens.
    rewrite (firstSeen_In jsstring_eqb jsstring_eqb_eq), filter_In.
    unfold nonEmpty. destruct u; split; intros [H1 H2]; split;
      congruence. }
  split; [exact Hlook|]. split; [|split].
  - intros u i H. apply Hlook in H. destruct H as [Hi Hj].
    split.
    + split; [exact Hi|].
      assert (Hlt : (Z.to_nat i < length tokens)%nat)
        by (apply nth_error_Some; congruence).
      lia.
    + apply nth_error_In in Hj. apply Htok in Hj. tauto.
  - intros u Hin Hne.
    assert (Hu : In u tokens) by (apply Htok; auto).
    apply In_nth_error in Hu. destruct Hu as (j & Hj).
    exists (Z.of_nat j). apply Hlook. rewrite Nat2Z.id.
    split; [lia | exact Hj].
  - intros u v i Hu Hv. apply Hlook in Hu, Hv.
    destruct Hu as [_ Hu], Hv as [_ Hv]. congruence.
Qed.

(** ** The bits of a flag word *)

Lemma toInt32_low_bits (v i : Z) :
  0 <= i < 32 -> Z.testbit (toInt32 v) i = Z.testbit v i.
Proof.
  intros Hi. unfold toInt32, wrap. change (2 ^ (32 - 1)) with (2 ^ 31).
  rewrite <- (Z.mod_pow2_bits_low (_ - _) 32 i) by lia.
  rewrite <- (Z.mod_pow2_bits_low v 32 i) by lia. f_equal.
  rewrite Zminus_mod_idemp_l. f_equal. lia.
Qed.

Lemma toInt32_range (v : Z) : - 2 ^ 31 <= toInt32 v < 2 ^ 31.
Proof.
  unfold toInt32, wrap. change (2 ^ (32 - 1)) with (2 ^ 31).
  pose proof (Z.mod_pos_bound (v + 2 ^ 31) (2 ^ 32) ltac:(lia)).
  change (2 ^ 32) with (2 * 2 ^ 31) in *. lia.
Qed.

Lemma shl_1_bits (k i : Z) :
  0 <= i < 32 -> Z.testbit (shl 1 k) i = (k mod 32 =? i).
Proof.
  intros Hi. unfold shl. rewrite toInt32_low_bits by lia.
  change (toInt32 1) with 1. rewrite Z.shiftl_1_l.
  pose proof (Z.mod_pos_bound k 32 ltac:(lia)).
  apply Z.pow2_bits_eqb. lia.
Qed.

Lemma bor_bits (a b i : Z) :
  0 <= i < 32 ->
  Z.testbit (bor a b) i = (Z.testbit a i || Z.testbit b i)%bool.
Proof.
  intros Hi. unfold bor.
  rewrite toInt32_low_bits, Z.lor_spec, !toInt32_low_bits by lia.
  reflexivity.
Qed.

(** X3: Bit [i] of a flag word, for [i] from 0 to 31, is set exactly when some
    trimmed piece of the text is [in flags] and has [i] as its bit: its
    index modulo 32 when it is a key of the vocabulary, 0 when it is only
    the name of an inherited property.  So the word depends neither on the
    order of the pieces nor on repetitions or blanks around them; indices
    32 apart share a bit; and the word is a signed 32-bit value. *)
Theorem computeFlags_bits (flags : object Z) (n : jsstring) :
  - 2 ^ 31 <= computeFlags flags n < 2 ^ 31
  /\ forall i,
       0 <= i < 32 ->
       Z.testbit (computeFlags flags n) i
       = existsb (fun u => hasProperty flags u && (bitOf flags u =? i))%bool
           (map trim (split 0x26 n)).
Proof.
  unfold computeFlags.
  set (step := fun ret u =>
                 if hasProperty flags u then bor ret (flagBit flags u)
                 else ret).
  assert (Hrange : forall us acc,
             - 2 ^ 31 <= acc < 2 ^ 31 ->
             - 2 ^ 31 <= fold_left step us acc < 2 ^ 31).
  { induction us as [|u us IH]; intros acc Hacc; simpl; [exact Hacc|].
    apply IH. unfold step. destruct (hasProperty flags u); [|exact Hacc].
    apply toInt32_range. }
  assert (Hbits : forall i, 0 <= i < 32 ->
             forall us acc,
               Z.testbit (fold_left step us acc) i
               = (Z.testbit acc i
                  || existsb (fun u => hasProperty flags u
                                       && (bitOf flags u =? i)) us)%bool).
  { intros i Hi. induction us as [|u us IH]; intros acc; simpl.
    - rewrite orb_false_r. reflexivity.
    - rewrite IH. unfold step.
      destruct (hasProperty flags u); simpl.
      + rewrite bor_bits by lia. rewrite <- orb_assoc. do 2 f_equal.
        unfold flagBit, bitOf. destruct (getOwn flags u);
          apply shl_1_bits; lia.
      + reflexivity. }
  split.
  - apply Hrange. lia.
  - intros i Hi. rewrite (Hbits i Hi). rewrite Z.testbit_0_l. reflexivity.
Qed.

(* ================================================================== *)
(** * The spritesheet *)
(* ================================================================== *)

(** [b[i]] as a byte; [None] is [undefined]. *)
Definition byteAt (b : Buffer) (i : Z) : option byte :=
  if i <? 0 then None else nth_error b (Z.to_nat i).

(** What a [Uint8Array] stores for [b[i]]: [undefined] becomes 0. *)
Definition orZero (v : option byte) : byte :=
  match v with
  | Some b => b
  | None => x00
  end.

(** [spritesheet[p] = v]: a write outside the buffer is dropped. *)
Definition poke (sheet : Buffer) (p : Z) (v : option byte) : Buffer :=
  if p <? 0 then sheet else setNth sheet (Z.to_nat p) (orZero v).

(** The values of [i] in [for (let i = 0; i < n; ++i)]. *)
Definition upto (n : Z) : list Z := map Z.of_nat (seq 0 (Z.to_nat n)).

(** [blitSpriteSheet], with the [spritesheet] and the [res2.width] that its
    closure holds passed in. *)
Definition blitSpriteSheet (res2_width : Z) (spritesheet src : Buffer)
  (sw sh dx dy : Z) : Buffer :=
  fold_left
    (fun sheet j =>
       fold_left
         (fun sheet i =>
            let dptr := ((j + dy) * res2_width + (i + dx)) * 4 in
            let sptr := (j * sw + i) * 4 in
            fold_left
              (fun sheet k =>
                 poke sheet (dptr + k) (byteAt src (sptr + k)))
              (upto 4) sheet)
         (upto sw) sheet)
    (upto sh) spritesheet.

(** A number in a condition. *)
Definition truthyNumber (z : Z) : bool := negb (z =? 0).

(** The loop over [res2.items] of the branch [if (sheet)].  An item that
    is none of the cels handed to [pack] is read as [undefined]. *)
Fixpoint blitItems (cells : list Cel.t) (res2_width : Z)
  (its : list PackItem) (spritesheet : Buffer) : result Buffer :=
  match its with
  | [] => Ok spritesheet
  | i :: its' =>
      cel <- defined (nth_error cells (item i)) ;;
      blitItems cells res2_width its'
        (if truthyNumber (Cel.width cel) && truthyNumber (Cel.height cel)
         then blitSpriteSheet res2_width spritesheet (Cel.pixels cel)
                (Cel.width cel) (Cel.height cel) (item_x i) (item_y i)
         else spritesheet)
  end.

(** The raw RGBA buffer that the branch [if (sheet)] hands to [sharp]:
    [Buffer.alloc] gives zeros and rejects a negative size. *)
Definition rasterise (cells : list Cel.t) (res2 : Packing) : result Buffer :=
  let size := pack_width res2 * pack_height res2 * 4 in
  if size <? 0 then Throw RangeError
  else
    blitItems cells (pack_width res2) (items res2)
      (repeat x00 (Z.to_nat size)).

(** ** Notions for the spritesheet *)

(** Channel [k] of the pixel [(px, py)] of a sheet [w] pixels wide. *)
Definition pixelAt (w : Z) (sheet : Buffer) (px py k : Z) : option byte :=
  byteAt sheet ((py * w + px) * 4 + k).

(** The rectangle of origin [(x, y)] and size [w] by [h] holds the pixel. *)
Definition inside (x y w h px py : Z) : bool :=
  (x <=? px) && (px <? x + w) && (y <=? py) && (py <? y + h).

(** The rectangle of an item holds the pixel. *)
Definition covers (cells : list Cel.t) (it : PackItem) (px py : Z) : bool :=
  match nth_error cells (item it) with
  | Some c =>
      inside (item_x it) (item_y it) (Cel.width c) (Cel.height c) px py
  | None => false
  end.

(** Channel [k] of the pixel of the cel of an item that lands on
    [(px, py)]; 0 where the pixel data of the cel stop short. *)
Definition texel (cells : list Cel.t) (it : PackItem) (px py k : Z) : byte :=
  match nth_error cells (item it) with
  | Some c =>
      orZero (byteAt (Cel.pixels c)
                (((py - item_y it) * Cel.width c + (px - item_x it)) * 4
                 + k))
  | None => x00
  end.

(** The item is a cel and its rectangle lies within the sheet. *)
Definition withinSheet (cells : list Cel.t) (res2 : Packing)
  (it : PackItem) : bool :=
  match nth_error cells (item it) with
  | Some c =>
      (0 <=? item_x it) && (item_x it + Cel.width c <=? pack_width res2)
      && (0 <=? item_y it) && (item_y it + Cel.height c <=? pack_height res2)
  | None => false
  end.

(** The rectangles of two items share no pixel. *)
Definition apart (cells : list Cel.t) (a b : PackItem) : bool :=
  match nth_error cells (item a), nth_error cells (item b) with
  | Some ca, Some cb =>
      (item_x a + Cel.width ca <=? item_x b)
      || (item_x b + Cel.width cb <=? item_x a)
      || (item_y a + Cel.height ca <=? item_y b)
      || (item_y b + Cel.height cb <=? item_y a)
  | _, _ => false
  end.

Fixpoint pairwise {A : Type} (r : A -> A -> bool) (l : list A) : bool :=
  match l with
  | [] => true
  | a :: l' => forallb (r a) l' && pairwise r l'
  end.

(** What a packer owes: a sheet of a size, every rectangle within it, no
    two rectangles overlapping. *)
Definition wellPlaced (cells : list Cel.t) (res2 : Packing) : bool :=
  (0 <=? pack_width res2) && (0 <=? pack_height res2)
  && forallb (withinSheet cells res2) (items res2)
  && pairwise (apart cells) (items res2).

(** The writes of a blit, in order. *)
Definition blitWrites (res2_width : Z) (src : Buffer) (sw sh dx dy : Z)
  : list (Z * option byte) :=
  flat_map
    (fun j =>
       flat_map
         (fun i =>
            map (fun k =>
                   (((j + dy) * res2_width + (i + dx)) * 4 + k,
                    byteAt src ((j * sw + i) * 4 + k)))
              (upto 4))
         (upto sw))
    (upto sh).

Definition pokes (ws : list (Z * option byte)) (sheet : Buffer) : Buffer :=
  fold_left (fun s w => poke s (fst w) (snd w)) ws sheet.

(** ** Writes *)

Lemma nth_error_setNth {A : Type} (l : list A) (p i : nat) (a : A) :
  nth_error (setNth l p a) i
  = if (Nat.eqb i p && Nat.ltb p (length l))%bool then Some a
    else nth_error l i.
Proof.
  revert p i. induction l as [|b l IH]; intros [|p] [|i]; simpl;
    rewrite ?andb_false_r; auto.
Qed.

Lemma poke_length (s : Buffer) (p : Z) (v : option byte) :
  length (poke s p v) = length s.
Proof.
  unfold poke. destruct (p <? 0); [reflexivity | apply setNth_length].
Qed.

Lemma byteAt_poke (s : Buffer) (p q : Z) (v : option byte) :
  byteAt (poke s p v) q
  = if (q =? p) && (0 <=? q) && (q <? Z.of_nat (length s))
    then Some (orZero v) else byteAt s q.
Proof.
  unfold byteAt, poke.
  destruct (Z.ltb_spec q 0) as [Hq|Hq].
  - destruct (Z.leb_spec 0 q); [lia|]. rewrite andb_false_r. reflexivity.
  - destruct (Z.ltb_spec p 0) as [Hp|Hp].
    + destruct (Z.eqb_spec q p); [lia|]. reflexivity.
    + rewrite nth_error_setNth.
      destruct (Z.eqb_spec q p) as [->|Hne].
      * rewrite Nat.eqb_refl. simpl.
        destruct (Z.leb_spec 0 p); [|lia]. simpl.
        destruct (Nat.ltb_spec (Z.to_nat p) (length s));
          destruct (Z.ltb_spec p (Z.of_nat (length s))); try lia;
          reflexivity.
      * destruct (Nat.eqb_spec (Z.to_nat q) (Z.to_nat p)); [lia|].
        reflexivity.
Qed.

Lemma pokes_length (ws : list (Z * option byte)) (s : Buffer) :
  length (pokes ws s) = length s.
Proof.
  unfold pokes. revert s. induction ws as [|w ws IH]; intros s; simpl.
  - reflexivity.
  - rewrite IH. apply poke_length.
Qed.

(** A place that no write names keeps its byte. *)
Lemma pokes_other (ws : list (Z * option byte)) (s : Buffer) (q : Z) :
  (forall w, In w ws -> fst w <> q) ->
  byteAt (pokes ws s) q = byteAt s q.
Proof.
  unfold pokes. revert s. induction ws as [|w ws IH]; intros s H; simpl.
  - reflexivity.
  - rewrite IH by (intros w' Hw'; apply H; right; exact Hw').
    rewrite byteAt_poke.
    destruct (Z.eqb_spec q (fst w)) as [E|E]; [|reflexivity].
    exfalso. apply (H w); [left; reflexivity | congruence].
Qed.

(** A place in the buffer that the writes agree on holds their byte. *)
Lemma pokes_same (ws : list (Z * option byte)) (q : Z) (v : byte) :
  (forall w, In w ws -> fst w = q -> orZero (snd w) = v) ->
  forall s,
    (exists w, In w ws /\ fst w = q) ->
    0 <= q < Z.of_nat (length s) ->
    byteAt (pokes ws s) q = Some v.
Proof.
  intros Hv. induction ws as [|w ws IH]; intros s (w0 & Hin & Hq) Hr.
  - destruct Hin.
  - change (pokes (w :: ws) s) with (pokes ws (poke s (fst w) (snd w))).
    destruct (existsb (fun w' => fst w' =? q) ws) eqn:E.
    + apply existsb_exists in E. destruct E as (w1 & Hin1 & E1).
      apply IH.
      * intros w' Hw'. apply Hv. right. exact Hw'.
      * exists w1. split; [exact Hin1 | lia].
      * rewrite poke_length. exact Hr.
    + assert (Hnone : forall w', In w' ws -> fst w' <> q).
      { intros w' Hw' Hq'.
        assert (Ht : existsb (fun w' => fst w' =? q) ws = true).
        { apply existsb_exists. exists w'. split; [exact Hw' | lia]. }
        congruence. }
      rewrite pokes_other by exact Hnone.
      destruct Hin as [->|Hin]; [|exfalso; exact (Hnone w0 Hin Hq)].
      rewrite byteAt_poke, Hq, Z.eqb_refl.
      destruct (Z.leb_spec 0 q); [|lia].
      destruct (Z.ltb_spec q (Z.of_nat (length s))); [|lia].
      simpl. f_equal. apply Hv; [left; reflexivity | exact Hq].
Qed.

Lemma fold_left_ext {A B : Type} (f g : A -> B -> A) (l : list B) :
  (forall a b, f a b = g a b) ->
  forall a, fold_left f l a = fold_left g l a.
Proof.
  intros H. induction l as [|b l IH]; intros a; simpl; [reflexivity|].
  rewrite H. apply IH.
Qed.

Lemma fold_left_flat_map {A B C : Type} (f : A -> C -> A)
  (g : B -> list C) (l : list B) :
  forall a,
    fold_left (fun s x => fold_left f (g x) s) l a
    = fold_left f (flat_map g l) a.
Proof.
  induction l as [|b l IH]; intros a; simpl; [reflexivity|].
  rewrite fold_left_app. apply IH.
Qed.

Lemma fold_left_map {A B C : Type} (f : A -> C -> A) (h : B -> C)
  (l : list B) :
  forall a, fold_left (fun s x => f s (h x)) l a = fold_left f (map h l) a.
Proof.
  induction l as [|b l IH]; intros a; simpl; [reflexivity | apply IH].
Qed.

Lemma blitSpriteSheet_pokes (w : Z) (s src : Buffer) (sw sh dx dy : Z) :
  blitSpriteSheet w s src sw sh dx dy
  = pokes (blitWrites w src sw sh dx dy) s.
Proof.
  unfold blitSpriteSheet, blitWrites, pokes.
  rewrite <- fold_left_flat_map. apply fold_left_ext. intros s1 j.
  rewrite <- fold_left_flat_map. apply fold_left_ext. intros s2 i.
  cbv zeta.
  rewrite <- (fold_left_map (fun s w => poke s (fst w) (snd w))).
  reflexivity.
Qed.

Lemma In_upto (n z : Z) : In z (upto n) <-> 0 <= z < n.
Proof.
  unfold upto. rewrite in_map_iff. split.
  - intros (i & <- & Hi). apply in_seq in Hi. lia.
  - intros Hz. exists (Z.to_nat z). split; [lia|]. apply in_seq. lia.
Qed.

Lemma In_blitWrites (w : Z) (src : Buffer) (sw sh dx dy : Z)
  (e : Z * option byte) :
  In e (blitWrites w src sw sh dx dy)
  <-> exists j i k,
        0 <= j < sh /\ 0 <= i < sw /\ 0 <= k < 4
        /\ e = (((j + dy) * w + (i + dx)) * 4 + k,
                byteAt src ((j * sw + i) * 4 + k)).
Proof.
  unfold blitWrites. rewrite in_flat_map. split.
  - intros (j & Hj & H). apply in_flat_map in H.
    destruct H as (i & Hi & H). apply in_map_iff in H.
    destruct H as (k & <- & Hk).
    apply In_upto in Hj, Hi, Hk. exists j, i, k. auto.
  - intros (j & i & k & Hj & Hi & Hk & ->).
    exists j. split; [apply In_upto; exact Hj|].
    apply in_flat_map. exists i. split; [apply In_upto; exact Hi|].
    apply in_map_iff. exists k. split; [reflexivity|].
    apply In_upto. exact Hk.
Qed.

(** A place of the sheet names its pixel and its channel. *)
Lemma place_inj (w x y k x' y' k' : Z) :
  0 <= x < w -> 0 <= x' < w -> 0 <= k < 4 -> 0 <= k' < 4 ->
  (y * w + x) * 4 + k = (y' * w + x') * 4 + k' ->
  x = x' /\ y = y' /\ k = k'.
Proof.
  intros Hx Hx' Hk Hk' H.
  assert (Hk2 : k = k') by lia.
  assert (H2 : y * w + x = y' * w + x') by lia.
  assert (Hy : y = y') by nia.
  subst. split; [lia|]. split; reflexivity.
Qed.

(** After a blit of a rectangle that fits the width of the sheet, a pixel
    of the rectangle holds the pixel of the source, any other its old
    bytes. *)
Lemma blitSpriteSheet_pixel (w : Z) (s src : Buffer) (sw sh dx dy : Z)
  (px py k : Z) :
  0 <= dx -> dx + sw <= w ->
  0 <= px < w -> 0 <= py -> 0 <= k < 4 ->
  (py * w + px) * 4 + k < Z.of_nat (length s) ->
  pixelAt w (blitSpriteSheet w s src sw sh dx dy) px py k
  = if inside dx dy sw sh px py
    then Some (orZero (byteAt src (((py - dy) * sw + (px - dx)) * 4 + k)))
    else pixelAt w s px py k.
Proof.
  intros Hdx Hsw Hpx Hpy Hk Hlen. unfold pixelAt.
  rewrite blitSpriteSheet_pokes.
  assert (Hinj : forall e, In e (blitWrites w src sw sh dx dy) ->
                           fst e = (py * w + px) * 4 + k ->
                           inside dx dy sw sh px py = true
                           /\ snd e
                              = byteAt src
                                  (((py - dy) * sw + (px - dx)) * 4 + k)).
  { intros e He Hq. apply In_blitWrites in He.
    destruct He as (j & i & k' & Hj & Hi & Hk' & ->). simpl in Hq.
    destruct (place_inj w (i + dx) (j + dy) k' px py k) as (Ex & Ey & Ek);
      try lia.
    subst k'. unfold inside. split.
    - destruct (Z.leb_spec dx px); [|lia].
      destruct (Z.ltb_spec px (dx + sw)); [|lia].
      destruct (Z.leb_spec dy py); [|lia].
      destruct (Z.ltb_spec py (dy + sh)); [|lia]. reflexivity.
    - simpl. do 3 f_equal; lia. }
  destruct (inside dx dy sw sh px py) eqn:Ein.
  - apply pokes_same.
    + intros e He Hq. destruct (Hinj e He Hq) as [_ ->]. reflexivity.
    + unfold inside in Ein.
      destruct (Z.leb_spec dx px); [|discriminate].
      destruct (Z.ltb_spec px (dx + sw)); [|discriminate].
      destruct (Z.leb_spec dy py); [|discriminate].
      destruct (Z.ltb_spec py (dy + sh)); [|discriminate].
      exists (((py - dy + dy) * w + (px - dx + dx)) * 4 + k,
              byteAt src (((py - dy) * sw + (px - dx)) * 4 + k)).
      split.
      * apply In_blitWrites. exists (py - dy), (px - dx), k.
        repeat split; lia.
      * simpl. do 3 f_equal; lia.
    + split; [nia | exact Hlen].
  - apply pokes_other. intros e He Hq.
    destruct (Hinj e He Hq) as [Ht _]. discriminate.
Qed.

Lemma inside_nonempty (x y w h px py : Z) :
  inside x y w h px py = true -> w <> 0 /\ h <> 0.
Proof.
  unfold inside.
  destruct (Z.leb_spec x px); [|discriminate].
  destruct (Z.ltb_spec px (x + w)); [|discriminate].
  destruct (Z.leb_spec y py); [|discriminate].
  destruct (Z.ltb_spec py (y + h)); [|discriminate].
  intros _. lia.
Qed.

Lemma apart_covers (cells : list Cel.t) (a b : PackItem) (px py : Z) :
  apart cells a b = true -> covers cells a px py = true ->
  covers cells b px py = false.
Proof.
  unfold apart, covers, inside.
  destruct (nth_error cells (item a)) as [ca|]; [|discriminate].
  destruct (nth_error cells (item b)) as [cb|]; [|discriminate].
  intros Ha Hc.
  repeat match type of Hc with
         | context [?u <=? ?v] => destruct (Z.leb_spec u v)
         | context [?u <? ?v] => destruct (Z.ltb_spec u v)
         end; try discriminate.
  repeat match type of Ha with
         | context [?u <=? ?v] => destruct (Z.leb_spec u v)
         end; try discriminate;
  repeat match goal with
         | |- context [?u <=? ?v] => destruct (Z.leb_spec u v)
         | |- context [?u <? ?v] => destruct (Z.ltb_spec u v)
         end; simpl; try reflexivity; lia.
Qed.

Lemma blitItems_pixels (cells : list Cel.t) (res2 : Packing) :
  forall its s,
    forallb (withinSheet cells res2) its = true ->
    pairwise (apart cells) its = true ->
    exists sheet,
      blitItems cells (pack_width res2) its s = Ok sheet
      /\ length sheet = length s
      /\ forall px py k,
           0 <= px < pack_width res2 -> 0 <= py -> 0 <= k < 4 ->
           (py * pack_width res2 + px) * 4 + k < Z.of_nat (length s) ->
           pixelAt (pack_width res2) sheet px py k
           = match find (fun it => covers cells it px py) its with
             | Some it => Some (texel cells it px py k)
             | None => pixelAt (pack_width res2) s px py k
             end.
Proof.
  induction its as [|it its IH]; intros s Hin Hap.
  - exists s. simpl. auto.
  - simpl in Hin, Hap. apply andb_prop in Hin, Hap.
    destruct Hin as [Hit Hin], Hap as [Hfar Hap].
    simpl. unfold withinSheet in Hit.
    destruct (nth_error cells (item it)) as [c|] eqn:Ec; [|discriminate].
    simpl.
    set (s1 := if (truthyNumber (Cel.width c)
                   && truthyNumber (Cel.height c))%bool
               then blitSpriteSheet (pack_width res2) s (Cel.pixels c)
                      (Cel.width c) (Cel.height c) (item_x it) (item_y it)
               else s).
    assert (Hlen1 : length s1 = length s).
    { unfold s1.
      destruct (truthyNumber (Cel.width c)
                && truthyNumber (Cel.height c))%bool; [|reflexivity].
      rewrite blitSpriteSheet_pokes. apply pokes_length. }
    apply andb_prop in Hit. destruct Hit as [Hit _].
    apply andb_prop in Hit. destruct Hit as [Hit _].
    apply andb_prop in Hit. destruct Hit as [Hx Hw].
    apply Z.leb_le in Hx, Hw.
    assert (Hpix1 : forall px py k,
               0 <= px < pack_width res2 -> 0 <= py -> 0 <= k < 4 ->
               (py * pack_width res2 + px) * 4 + k < Z.of_nat (length s) ->
               pixelAt (pack_width res2) s1 px py k
               = if covers cells it px py
                 then Some (texel cells it px py k)
                 else pixelAt (pack_width res2) s px py k).
    { intros px py k Hpx Hpy Hk Hlt. unfold covers, texel. rewrite Ec.
      unfold s1.
      destruct (truthyNumber (Cel.width c) && truthyNumber (Cel.height c))%bool
        eqn:Et.
      - apply blitSpriteSheet_pixel; assumption.
      - destruct (inside _ _ _ _ px py) eqn:Ei; [|reflexivity].
        apply inside_nonempty in Ei. unfold truthyNumber in Et.
        destruct (Z.eqb_spec (Cel.width c) 0); [tauto|].
        destruct (Z.eqb_spec (Cel.height c) 0); [tauto|]. discriminate. }
    destruct (IH s1 Hin Hap) as (sheet & Hrun & Hlen & Hpix).
    exists sheet. split; [exact Hrun|]. split; [congruence|].
    intros px py k Hpx Hpy Hk Hlt.
    rewrite Hpix by (rewrite ?Hlen1; assumption).
    rewrite Hpix1 by assumption.
    destruct (covers cells it px py) eqn:Ecov; [|reflexivity].
    assert (Hnone : find (fun it' => covers cells it' px py) its = None).
    { clear - Hfar Ecov. induction its as [|b its IH]; [reflexivity|].
      simpl in Hfar |- *. apply andb_prop in Hfar.
      destruct Hfar as [Hb Hfar].
      rewrite (apart_covers cells it b px py Hb Ecov). apply IH.
      exact Hfar. }
    rewrite Hnone. reflexivity.
Qed.

(** X1: When the packer places every cel within the sheet and no two cels on
    a common pixel, the spritesheet is built, it has four bytes per pixel
    of the sheet, every pixel under a cel holds the pixel of that cel (0
    where the pixel data of the cel stop short), and every other pixel is
    transparent black. *)
Theorem rasterise_places_every_cel (cells : list Cel.t) (res2 : Packing) :
  wellPlaced cells res2 = true ->
  exists sheet,
    rasterise cells res2 = Ok sheet
    /\ byteLength sheet = pack_width res2 * pack_height res2 * 4
    /\ forall px py k,
         0 <= px < pack_width res2 -> 0 <= py < pack_height res2 ->
         0 <= k < 4 ->
         pixelAt (pack_width res2) sheet px py k
         = Some (match find (fun it => covers cells it px py) (items res2)
                 with
                 | Some it => texel cells it px py k
                 | None => x00
                 end).
Proof.
  unfold wellPlaced. intros H.
  apply andb_prop in H. destruct H as [H Hap].
  apply andb_prop in H. destruct H as [H Hin].
  apply andb_prop in H. destruct H as [Hw Hh].
  apply Z.leb_le in Hw, Hh.
  unfold rasterise.
  destruct (Z.ltb_spec (pack_width res2 * pack_height res2 * 4) 0);
    [nia|].
  destruct (blitItems_pixels cells res2 (items res2)
              (repeat x00
                 (Z.to_nat (pack_width res2 * pack_height res2 * 4)))
              Hin Hap) as (sheet & Hrun & Hlen & Hpix).
  rewrite repeat_length in Hlen, Hpix.
  exists sheet. split; [exact Hrun|]. split.
  - unfold byteLength. rewrite Hlen. lia.
  - intros px py k Hpx Hpy Hk.
    assert (Hlt : (py * pack_width res2 + px) * 4 + k
                  < pack_width res2 * pack_height res2 * 4) by nia.
    rewrite Hpix by lia.
    destruct (find _ (items res2)); [reflexivity|].
    unfold pixelAt, byteAt.
    destruct (Z.ltb_spec ((py * pack_width res2 + px) * 4 + k) 0); [nia|].
    rewrite nth_error_repeat by lia. reflexivity.
Qed.

(* ================================================================== *)
(** * Zero-terminated strings *)
(* ================================================================== *)

(** [String.fromCharCode(v)] for a byte or [undefined]: [undefined] gives
    the unit 0. *)
Definition fromCharCode (v : option Z) : Z :=
  match v with
  | Some c => c
  | None => 0
  end.

(** The loop of [readCstring]; it makes at most [end - off] turns. *)
Fixpoint readCstringLoop (b : Buffer) (fuel : nat) (off end_ : Z)
  (s : jsstring) : jsstring :=
  match fuel with
  | O => s
  | S fuel' =>
      if (off <? end_)
         && negb (match index b off with Some 0 => true | _ => false end)
      then readCstringLoop b fuel' (off + 1) end_
             (s ++ [fromCharCode (index b off)])
      else s
  end.

Definition readCstring (b : Buffer) (off end_ : Z) : jsstring :=
  readCstringLoop b (Z.to_nat (end_ - off)) off end_ [].

Fixpoint takeWhile {A : Type} (p : A -> bool) (l : list A) : list A :=
  match l with
  | [] => []
  | a :: l' => if p a then a :: takeWhile p l' else []
  end.

Definition nonZeroByte (x : byte) : bool := negb (byteZ x =? 0).

Lemma skipn_nth_error {A : Type} (l : list A) (n : nat) (a : A) :
  nth_error l n = Some a -> skipn n l = a :: skipn (S n) l.
Proof.
  revert n. induction l as [|b l IH]; intros [|n] H; try discriminate.
  - injection H as ->. reflexivity.
  - apply (IH n H).
Qed.

Lemma readCstringLoop_in_range (b : Buffer) (e : Z) :
  forall fuel off s,
    0 <= off -> off + Z.of_nat fuel = e -> e <= byteLength b ->
    readCstringLoop b fuel off e s
    = s ++ map byteZ
             (takeWhile nonZeroByte (firstn fuel (skipn (Z.to_nat off) b))).
Proof.
  unfold byteLength.
  induction fuel as [|fuel IH]; intros off s Hoff He Hlen; simpl.
  - rewrite app_nil_r. reflexivity.
  - destruct (Z.ltb_spec off e); [|lia]. unfold index.
    destruct (Z.ltb_spec off 0); [lia|].
    destruct (nth_error b (Z.to_nat off)) as [x|] eqn:Ex.
    + rewrite (skipn_nth_error _ _ _ Ex). simpl. unfold nonZeroByte at 1.
      destruct (byteZ x) eqn:Ez; simpl.
      * rewrite app_nil_r. reflexivity.
      * rewrite IH by lia. rewrite <- app_assoc. simpl.
        replace (Z.to_nat (off + 1)) with (S (Z.to_nat off)) by lia.
        rewrite Ez. reflexivity.
      * rewrite IH by lia. rewrite <- app_assoc. simpl.
        replace (Z.to_nat (off + 1)) with (S (Z.to_nat off)) by lia.
        rewrite Ez. reflexivity.
    + apply nth_error_None in Ex. lia.
Qed.

Lemma readCstringLoop_past_end (b : Buffer) (e : Z) :
  forall fuel off s,
    byteLength b <= off -> off + Z.of_nat fuel = e ->
    readCstringLoop b fuel off e s = s ++ repeat 0 fuel.
Proof.
  unfold byteLength.
  induction fuel as [|fuel IH]; intros off s Hoff He; simpl.
  - rewrite app_nil_r. reflexivity.
  - destruct (Z.ltb_spec off e); [|lia]. unfold index.
    destruct (Z.ltb_spec off 0); [lia|].
    destruct (nth_error b (Z.to_nat off)) as [x|] eqn:Ex.
    + assert (Hlt : (Z.to_nat off < length b)%nat)
        by (apply nth_error_Some; congruence).
      lia.
    + simpl. rewrite IH by lia. rewrite <- app_assoc. reflexivity.
Qed.

(** X23: [readCstring] between two offsets of the buffer gives the bytes from
    the first offset up to the first zero byte, or up to the second offset
    when there is none; past the end of the buffer it does not stop: every
    missing byte adds a NUL to the string. *)
Theorem readCstring_reads_to_terminator (b : Buffer) (off e : Z) :
  0 <= off <= e ->
  (e <= byteLength b ->
   readCstring b off e
   = map byteZ (takeWhile nonZeroByte (subarray b off e)))
  /\ (byteLength b <= off ->
      readCstring b off e = repeat 0 (Z.to_nat (e - off))).
Proof.
  intros H. unfold readCstring. split; intros Hb.
  - rewrite (readCstringLoop_in_range b e) by lia.
    rewrite subarray_slice by lia. reflexivity.
  - rewrite (readCstringLoop_past_end b e) by lia. reflexivity.
Qed.

(* ================================================================== *)
(** * Tags, written and read back *)
(* ================================================================== *)

(** A tag as the file format stores it: WORD from, WORD to, BYTE loop
    direction, WORD repeat, six reserved bytes, three bytes of colour, one
    extra byte, and the name as a length-prefixed string. *)
Record TagFields : Type := mkTagFields {
  tf_from : Z;
  tf_to : Z;
  tf_loop : Z;
  tf_repeat : Z;
  tf_red : Z;
  tf_green : Z;
  tf_blue : Z;
  tf_name : Buffer
}.

Definition encodeTag (t : TagFields) : Buffer :=
  Sample.u16 (tf_from t) ++ Sample.u16 (tf_to t) ++ Sample.u8 (tf_loop t)
  ++ Sample.u16 (tf_repeat t) ++ Sample.zeros 6
  ++ Sample.u8 (tf_red t) ++ Sample.u8 (tf_green t) ++ Sample.u8 (tf_blue t)
  ++ Sample.u8 0
  ++ Sample.u16 (byteLength (tf_name t)) ++ tf_name t.

(** The payload of a Tags chunk: WORD count, eight reserved bytes, the
    tags. *)
Definition encodeTags (ts : list TagFields) : Buffer :=
  Sample.u16 (Z.of_nat (length ts)) ++ Sample.zeros 8
  ++ concat (map encodeTag ts).

(** The fields fit their widths; the words are read back as signed. *)
Definition fitsTag (t : TagFields) : bool :=
  (- 2 ^ 15 <=? tf_from t) && (tf_from t <? 2 ^ 15)
  && (- 2 ^ 15 <=? tf_to t) && (tf_to t <? 2 ^ 15)
  && (0 <=? tf_loop t) && (tf_loop t <? 2 ^ 8)
  && (- 2 ^ 15 <=? tf_repeat t) && (tf_repeat t <? 2 ^ 15)
  && (0 <=? tf_red t) && (tf_red t <? 2 ^ 8)
  && (0 <=? tf_green t) && (tf_green t <? 2 ^ 8)
  && (0 <=? tf_blue t) && (tf_blue t <? 2 ^ 8)
  && (byteLength (tf_name t) <? 2 ^ 15).

Lemma byteZ_byteOf (z : Z) : byteZ (Sample.byteOf z) = z mod 256.
Proof.
  unfold byteZ, Sample.byteOf.
  pose proof (Z.mod_pos_bound z 256 ltac:(lia)) as Hm.
  destruct (Byte.of_N (Z.to_N (z mod 256))) as [b|] eqn:E.
  - apply Byte.to_of_N in E. rewrite E. lia.
  - apply Byte.of_N_None_iff in E. lia.
Qed.

Lemma index_at (pre l : Buffer) (n : nat) :
  index (pre ++ l) (Z.of_nat (length pre) + Z.of_nat n)
  = option_map byteZ (nth_error l n).
Proof.
  unfold index.
  destruct (Z.ltb_spec (Z.of_nat (length pre) + Z.of_nat n) 0); [lia|].
  replace (Z.to_nat (Z.of_nat (length pre) + Z.of_nat n))
    with (length pre + n)%nat by lia.
  rewrite nth_error_app2 by lia.
  replace (length pre + n - length pre)%nat with n by lia. reflexivity.
Qed.

Lemma readInt16LE_at (pre l : Buffer) (n : nat) (z : Z) (rest : Buffer) :
  skipn n l = Sample.u16 z ++ rest ->
  - 2 ^ 15 <= z < 2 ^ 15 ->
  readInt16LE (pre ++ l) (Z.of_nat (length pre) + Z.of_nat n) = Ok z.
Proof.
  intros Hl Hz. unfold readInt16LE, readUint16LE.
  replace (Z.of_nat (length pre) + Z.of_nat n + 1)
    with (Z.of_nat (length pre) + Z.of_nat (S n)) by lia.
  rewrite !index_at.
  assert (H0 : nth_error l n = Some (Sample.byteOf z)).
  { rewrite <- (Nat.add_0_r n), <- nth_error_skipn, Hl. reflexivity. }
  assert (H1 : nth_error l (S n) = Some (Sample.byteOf (z / 2 ^ 8))).
  { replace (S n) with (n + 1)%nat by lia.
    rewrite <- nth_error_skipn, Hl. reflexivity. }
  rewrite H0, H1. simpl option_map. cbv iota beta.
  rewrite !byteZ_byteOf. f_equal.
  change (Z.pow_pos 2 8) with 256.
  change (2 ^ 8) with 256 in *. change (2 ^ 15) with 32768 in *.
  change (2 ^ 16) with 65536.
  pose proof (Z.mod_pos_bound z 256 ltac:(lia)).
  pose proof (Z.div_mod z 256 ltac:(lia)) as Hd.
  destruct (Z.le_gt_cases 0 z) as [Hpos|Hneg].
  - assert (Hq : 0 <= z / 256 < 128)
      by (split; [apply Z.div_pos; lia | apply Z.div_lt_upper_bound; lia]).
    rewrite (Z.mod_small (z / 256) 256) by lia.
    destruct (Z.ltb_spec (z mod 256 + z / 256 * 256) 32768); lia.
  - assert (Hq : - 128 <= z / 256 < 0)
      by (split; [apply Z.div_le_lower_bound; lia
                 | apply Z.div_lt_upper_bound; lia]).
    replace ((z / 256) mod 256) with (z / 256 + 256)
      by (apply (Z.mod_unique _ _ (-1)); lia).
    destruct (Z.ltb_spec (z mod 256 + (z / 256 + 256) * 256) 32768); lia.
Qed.

Section TagsRoundTrip.

Variable toString : Buffer -> jsstring.

Lemma readPstring_at (pre l : Buffer) (n : nat) (name rest : Buffer) :
  skipn n l = Sample.u16 (byteLength name) ++ name ++ rest ->
  byteLength name < 2 ^ 15 ->
  readPstring toString (pre ++ l) (Z.of_nat (length pre) + Z.of_nat n)
  = Ok (toString name).
Proof.
  intros Hl Hlen. unfold readPstring.
  rewrite (readInt16LE_at pre l n _ _ Hl)
    by (unfold byteLength in *; lia).
  cbn [Js.bind]. rewrite subarray_slice by (unfold byteLength; lia).
  do 2 f_equal. unfold byteLength.
  replace (Z.to_nat (Z.of_nat (length pre) + Z.of_nat n + 2))
    with (length pre + (2 + n))%nat by lia.
  rewrite skipn_app, skipn_all2 by lia.
  replace (length pre + (2 + n) - length pre)%nat with (2 + n)%nat by lia.
  rewrite <- skipn_skipn, Hl. simpl.
  replace (Z.to_nat _) with (length name) by lia.
  rewrite firstn_app, firstn_all, Nat.sub_diag. simpl.
  apply app_nil_r.
Qed.

(** The tag that the decoder is to return. *)
Definition decodedTag (t : TagFields) : Tag.t :=
  Tag.mk (tf_from t) (tf_to t) (Some (tf_loop t)) (tf_repeat t)
    [Some (tf_red t); Some (tf_green t); Some (tf_blue t)]
    (toString (tf_name t)).

(** The names decode to as many code units as they have bytes. *)
Definition plainNames (ts : list TagFields) : Prop :=
  Forall (fun t => length (toString (tf_name t)) = length (tf_name t)) ts.

Lemma parseTags_encoded (rest : Buffer) (ts : list TagFields) :
  forallb fitsTag ts = true -> plainNames ts ->
  forall pre acc,
    parseTags toString (pre ++ concat (map encodeTag ts) ++ rest)
      (length ts) (Z.of_nat (length pre)) acc
    = Ok (acc ++ map decodedTag ts).
Proof.
  induction ts as [|t ts IH]; intros Hfit Hplain pre acc.
  - simpl. rewrite app_nil_r. reflexivity.
  - simpl in Hfit. apply andb_prop in Hfit. destruct Hfit as [Ht Hfit].
    inversion Hplain as [|? ? Hname Hplain']; subst.
    unfold fitsTag in Ht.
    repeat (apply andb_prop in Ht; let H := fresh "Hf" in
            destruct Ht as [Ht H]).
    repeat match goal with
           | H : (_ <=? _) = true |- _ => apply Z.leb_le in H
           | H : (_ <? _) = true |- _ => apply Z.ltb_lt in H
           end.
    set (l := encodeTag t ++ concat (map encodeTag ts) ++ rest).
    assert (Hb : pre ++ concat (map encodeTag (t :: ts)) ++ rest
                 = pre ++ l).
    { unfold l. simpl. rewrite <- app_assoc. reflexivity. }
    rewrite Hb. cbn [length parseTags].
    replace (Z.of_nat (length pre) + 0)
      with (Z.of_nat (length pre) + Z.of_nat 0) by lia.
    replace (Z.of_nat (length pre) + 2)
      with (Z.of_nat (length pre) + Z.of_nat 2) by lia.
    replace (Z.of_nat (length pre) + 4)
      with (Z.of_nat (length pre) + Z.of_nat 4) by lia.
    replace (Z.of_nat (length pre) + 5)
      with (Z.of_nat (length pre) + Z.of_nat 5) by lia.
    replace (Z.of_nat (length pre) + 7 + 6 + 0)
      with (Z.of_nat (length pre) + Z.of_nat 13) by lia.
    replace (Z.of_nat (length pre) + 7 + 6 + 1)
      with (Z.of_nat (length pre) + Z.of_nat 14) by lia.
    replace (Z.of_nat (length pre) + 7 + 6 + 2)
      with (Z.of_nat (length pre) + Z.of_nat 15) by lia.
    replace (Z.of_nat (length pre) + 7 + 6 + 3 + 1)
      with (Z.of_nat (length pre) + Z.of_nat 17) by lia.
    rewrite (readInt16LE_at pre l 0 (tf_from t) _ eq_refl) by lia.
    cbn [Js.bind].
    rewrite (readInt16LE_at pre l 2 (tf_to t) _ eq_refl) by lia.
    cbn [Js.bind].
    rewrite (readInt16LE_at pre l 5 (tf_repeat t) _ eq_refl) by lia.
    cbn [Js.bind].
    rewrite (readPstring_at pre l 17 (tf_name t)
               (concat (map encodeTag ts) ++ rest))
      by (unfold l, encodeTag; rewrite <- ?app_assoc; reflexivity || lia).
    cbn [Js.bind]. rewrite !index_at.
    change (nth_error l 4) with (Some (Sample.byteOf (tf_loop t))).
    change (nth_error l 13) with (Some (Sample.byteOf (tf_red t))).
    change (nth_error l 14) with (Some (Sample.byteOf (tf_green t))).
    change (nth_error l 15) with (Some (Sample.byteOf (tf_blue t))).
    cbn [option_map]. rewrite !byteZ_byteOf.
    change (2 ^ 8) with 256 in *.
    rewrite !Z.mod_small by lia.
    assert (Hl : pre ++ l
                 = (pre ++ encodeTag t)
                   ++ concat (map encodeTag ts) ++ rest).
    { unfold l. rewrite <- app_assoc. reflexivity. }
    rewrite Hl.
    replace (Z.of_nat (length pre) + Z.of_nat 17
             + (Z.of_nat (length (toString (tf_name t))) + 2))
      with (Z.of_nat (length (pre ++ encodeTag t))).
    + rewrite IH by assumption. rewrite <- app_assoc. reflexivity.
    + rewrite Hname, length_app. unfold encodeTag.
      rewrite !length_app. simpl. lia.
Qed.

(** X2: A Tags chunk written field by field is read back as written, whatever
    follows it in the buffer, when every field fits its width and every
    name decodes to as many code units as it has bytes: the step from one
    tag to the next is counted in code units of the decoded name. *)
Theorem parseTagsChunk_reads_back (ts : list TagFields) (rest : Buffer) :
  forallb fitsTag ts = true ->
  Z.of_nat (length ts) < 2 ^ 15 ->
  plainNames ts ->
  parseTagsChunk toString (encodeTags ts ++ rest)
  = Ok (TagsChunk (map decodedTag ts)).
Proof.
  intros Hfit Hn Hplain. unfold parseTagsChunk.
  assert (Hc : readInt16LE (encodeTags ts ++ rest) 0
               = Ok (Z.of_nat (length ts))).
  { apply (readInt16LE_at [] (encodeTags ts ++ rest) 0 _
             (Sample.zeros 8 ++ concat (map encodeTag ts) ++ rest)).
    - unfold encodeTags. rewrite <- !app_assoc. reflexivity.
    - lia. }
  rewrite Hc. cbn [Js.bind]. rewrite Nat2Z.id.
  assert (Hb : encodeTags ts ++ rest
               = (Sample.u16 (Z.of_nat (length ts)) ++ Sample.zeros 8)
                 ++ concat (map encodeTag ts) ++ rest).
  { unfold encodeTags. rewrite <- !app_assoc. reflexivity. }
  rewrite Hb.
  pose proof (parseTags_encoded rest ts Hfit Hplain
                (Sample.u16 (Z.of_nat (length ts)) ++ Sample.zeros 8) [])
    as Hp.
  change (Z.of_nat
            (length (Sample.u16 (Z.of_nat (length ts)) ++ Sample.zeros 8)))
    with 10 in Hp.
  rewrite Hp. reflexivity.
Qed.

End TagsRoundTrip.

(* ================================================================== *)
(** * Layers and user data: where decoding stops *)
(* ================================================================== *)

Lemma readUint16LE_short (b : Buffer) (off : Z) :
  byteLength b < off + 2 -> readUint16LE b off = Throw RangeError.
Proof.
  intros H. unfold readUint16LE.
  rewrite (index_past_end b (off + 1)) by lia.
  destruct (index b off); reflexivity.
Qed.

Lemma readInt16LE_short (b : Buffer) (off : Z) :
  byteLength b < off + 2 -> readInt16LE b off = Throw RangeError.
Proof.
  intros H. unfold readInt16LE. rewrite readUint16LE_short by exact H.
  reflexivity.
Qed.

Lemma readUint32LE_short (b : Buffer) (off : Z) :
  byteLength b < off + 4 -> readUint32LE b off = Throw RangeError.
Proof.
  intros H. unfold readUint32LE.
  rewrite (index_past_end b (off + 3)) by lia.
  destruct (index b off), (index b (off + 1)), (index b (off + 2));
    reflexivity.
Qed.

Lemma subarray_length (b : Buffer) (s e : Z) :
  0 <= s -> 0 <= e -> Z.of_nat (length (subarray b s e)) <= Z.max 0 (e - s).
Proof.
  intros Hs He. rewrite subarray_slice by lia.
  pose proof (firstn_le_length (Z.to_nat (e - s)) (skipn (Z.to_nat s) b)).
  lia.
Qed.

Section ShortChunks.

Variable toString : Buffer -> jsstring.

(** X21: A UserData chunk fails to decode only by being too short for its flag
    word, or for the length word of a text that its flags announce, and
    then with a RangeError.  Otherwise it decodes; the text is there
    exactly when bit 0 of the flags is set and the colour exactly when
    bit 1 is; the colour is what is left of four bytes after the text, so
    it may have fewer than four entries. *)
Theorem parseUserData_outcome (b : Buffer) :
  (byteLength b < 4 -> parseUserData toString b = Throw RangeError)
  /\ forall flags,
       readUint32LE b 0 = Ok flags ->
       (Z.land flags 1 <> 0 -> byteLength b < 6 ->
        parseUserData toString b = Throw RangeError)
       /\ (Z.land flags 1 = 0 \/ 6 <= byteLength b ->
           exists ud,
             parseUserData toString b = Ok ud
             /\ (UserData.text ud = None <-> Z.land flags 1 = 0)
             /\ (UserData.color ud = None <-> Z.land flags 2 = 0)
             /\ forall cs, UserData.color ud = Some cs ->
                           (length cs <= 4)%nat).
Proof.
  split.
  - intros H. unfold parseUserData. rewrite readUint32LE_short by lia.
    reflexivity.
  - intros flags Hf. unfold parseUserData. rewrite Hf. cbn [Js.bind].
    split.
    + intros H1 Hlen. destruct (Z.eqb_spec (Z.land flags 1) 0); [tauto|].
      simpl negb. cbv iota. unfold readPstring.
      rewrite readInt16LE_short by lia. reflexivity.
    + intros H.
      assert (Hcol : forall p cs, 0 <= p ->
                 Some (map byteZ (subarray b p (p + 4))) = Some cs ->
                 (length cs <= 4)%nat).
      { intros p cs Hp E. injection E as <-. rewrite length_map.
        pose proof (subarray_length b p (p + 4) ltac:(lia) ltac:(lia)).
        lia. }
      destruct (Z.eqb_spec (Z.land flags 1) 0) as [E1|E1]; simpl negb;
        cbv iota.
      * cbn [Js.bind].
        destruct (Z.eqb_spec (Z.land flags 2) 0) as [E2|E2]; simpl negb;
          cbv iota; eexists; (split; [reflexivity|]);
          cbn [UserData.text UserData.color];
          repeat split; intros; try congruence; try tauto.
        apply (Hcol _ cs) in H0; [exact H0 | lia].
      * destruct H as [H|H]; [tauto|].
        unfold readPstring.
        destruct (readInt16LE_in_range b 4) as (len & ->); [lia|lia|].
        cbn [Js.bind].
        destruct (Z.eqb_spec (Z.land flags 2) 0) as [E2|E2]; simpl negb;
          cbv iota; eexists; (split; [reflexivity|]);
          cbn [UserData.text UserData.color];
          repeat split; intros; try congruence; try tauto.
        apply (Hcol _ cs) in H0; [exact H0 | lia].
Qed.

(** X22: A Layer chunk decodes exactly when it has the 18 bytes up to the
    length word of its name, and throws a RangeError otherwise; the seven
    flags are the low bits of its first word. *)
Theorem parseLayer_outcome (buffer : Buffer) :
  (byteLength buffer < 18 ->
   parseLayer toString buffer = Throw RangeError)
  /\ (18 <= byteLength buffer ->
      exists flags d,
        readUint16LE buffer 0 = Ok flags
        /\ parseLayer toString buffer = Ok (LayerChunk d)
        /\ readPstring toString buffer 16 = Ok (Layer.name d)
        /\ Layer.visible d = Z.testbit flags 0
        /\ Layer.editable d = Z.testbit flags 1
        /\ Layer.lock d = Z.testbit flags 2
        /\ Layer.background d = Z.testbit flags 3
        /\ Layer.prefer_linked d = Z.testbit flags 4
        /\ Layer.collapsed d = Z.testbit flags 5
        /\ Layer.reference d = Z.testbit flags 6).
Proof.
  assert (Hbit : forall flags n,
             0 <= n ->
             negb (Z.land flags (2 ^ n) =? 0) = Z.testbit flags n).
  { intros flags n Hn.
    destruct (Z.testbit flags n) eqn:E.
    - destruct (Z.eqb_spec (Z.land flags (2 ^ n)) 0) as [E0|]; [|reflexivity].
      assert (Ht : Z.testbit (Z.land flags (2 ^ n)) n = true).
      { rewrite Z.land_spec, E, Z.pow2_bits_true by lia. reflexivity. }
      rewrite E0, Z.bits_0 in Ht. discriminate.
    - destruct (Z.eqb_spec (Z.land flags (2 ^ n)) 0) as [|E0];
        [reflexivity|].
      exfalso. apply E0. apply Z.bits_inj'. intros m Hm.
      rewrite Z.land_spec, Z.bits_0.
      destruct (Z.eq_dec n m) as [<-|Hne].
      + rewrite E. reflexivity.
      + rewrite Z.pow2_bits_false by lia. apply andb_false_r. }
  split.
  - intros H. unfold parseLayer.
    destruct (readUint16LE buffer 0) eqn:E; cbn [Js.bind].
    + unfold readPstring. rewrite readInt16LE_short by lia. reflexivity.
    + apply readUint16LE_Throw in E. subst. reflexivity.
  - intros H. unfold parseLayer.
    destruct (readUint16LE_in_range buffer 0) as (flags & Hf); [lia|lia|].
    unfold readPstring.
    destruct (readInt16LE_in_range buffer 16) as (len & Hl); [lia|lia|].
    rewrite Hf, Hl. cbn [Js.bind].
    eexists. eexists. split; [reflexivity|]. split; [reflexivity|].
    simpl. split; [reflexivity|].
    repeat split.
    + apply (Hbit flags 0). lia.
    + apply (Hbit flags 1). lia.
    + apply (Hbit flags 2). lia.
    + apply (Hbit flags 3). lia.
    + apply (Hbit flags 4). lia.
    + apply (Hbit flags 5). lia.
    + apply (Hbit flags 6). lia.
Qed.

End ShortChunks.

(* ================================================================== *)
(** * The further properties on sample inputs *)
(* ================================================================== *)

(** The row packer hands back the rectangles it was given. *)
Lemma rowPack_packs_what_it_is_given : packsWhatItIsGiven Collab.rowPack.
Proof.
  intros rects it. unfold Collab.rowPack. cbn [items].
  generalize 0. induction rects as [|[i c] rects IH]; intros x0 H.
  - destruct H.
  - simpl in H |- *. destruct H as [<-|H]; [left; reflexivity|].
    right. exact (IH _ H).
Qed.

Module OnMoreSamples.

Import Collab Run.

(** The payload of a cel chunk of type 3, a tilemap. *)
Definition tilemapPayload : Buffer :=
  Sample.u16 0 ++ Sample.u16 0 ++ Sample.u16 0 ++ Sample.u8 255
  ++ Sample.u16 3 ++ Sample.u16 0 ++ Sample.zeros 5 ++ Sample.u16 0.

(** The payload of an old palette chunk: one packet that skips one entry
    and holds three. *)
Definition palettePayload : Buffer :=
  Sample.u16 1 ++ Sample.u8 1 ++ Sample.u8 3
  ++ Sample.bytes [1; 2; 3; 4; 5; 6; 7; 8; 9].

(** Two tags, "run" and "idle". *)
Definition twoTagFields : list TagFields :=
  [mkTagFields 0 3 1 (-1) 255 0 0 (Sample.bytes [114; 117; 110]);
   mkTagFields 4 7 0 2 0 255 0 (Sample.bytes [105; 100; 108; 101])].

(** What the frame loop holds after frame 0 of [Sample.hero]. *)
Definition heroFrame0 : Z * list AseFrame * list Z :=
  Eval vm_compute in
    match parseFrame asciiToString noInflate Sample.hero (128, [], []) with
    | Ok acc => acc
    | Throw _ => (0, [], [])
    end.

(** Two cels; the pixel data of the second stop after its first pixel. *)
Definition sheetCells : list Cel.t :=
  [Cel.mk 0 0 0 (Some 255) 0 0 2 1
     (Sample.bytes [10; 11; 12; 13; 20; 21; 22; 23]);
   Cel.mk 0 0 0 (Some 255) 0 0 1 2 (Sample.bytes [30; 31; 32; 33])].

Definition sheetPacking : Packing :=
  Eval vm_compute in rowPack (combine (seq 0 2) sheetCells).

Lemma hero_frames_and_colours :
  Z.of_nat (length (frames heroParsed)) = frame_count (header heroParsed)
  /\ 0 <= frame_count (header heroParsed) < 2 ^ 16
  /\ 1 <= color_number (header heroParsed) < 2 ^ 16
  /\ (readUint16LE Sample.hero 28 = Ok 0 ->
      color_number (header heroParsed) = 256).
Proof.
  apply (parseFile_frames_and_colours asciiToString noInflate Sample.hero
           heroParsed).
  vm_compute. reflexivity.
Defined.

Lemma hero_userdata_arrays :
  parse Sample.hero = Ok heroParsed
  /\ forall frame c,
       In frame (frames heroParsed) -> In c (chunks frame) ->
       userdata c <> Some []
       /\ (isUsed c = true <-> userdata c <> None)
       /\ In (chunkType c) [0x0004; 0x2004; 0x2005; 0x2007; 0x2018].
Proof.
  split; [vm_compute; reflexivity|].
  apply (parseFile_userdata_arrays asciiToString noInflate Sample.hero
           heroParsed).
  vm_compute. reflexivity.
Defined.

Lemma hero_cel_widths :
  parse Sample.hero = Ok heroParsed
  /\ forall frame cel ud,
       In frame (frames heroParsed) ->
       In (mkChunk (CelChunk cel) ud) (chunks frame) ->
       0 <= Cel.width cel < 2 ^ 16
       /\ (toInt16 (Cel.width cel) = 0 <-> Cel.width cel = 0).
Proof.
  split; [vm_compute; reflexivity|].
  apply (parseFile_cel_widths asciiToString noInflate Sample.hero
           heroParsed).
  vm_compute. reflexivity.
Defined.

Lemma tilemap_cel_is_refused :
  parseCel noInflate tilemapPayload []
  = Throw (Error "Unsupported cel type").
Proof.
  apply (parseCel_unsupported_type noInflate tilemapPayload [] 3).
  - vm_compute. discriminate.
  - vm_compute. reflexivity.
  - discriminate.
  - discriminate.
  - discriminate.
Defined.


Lemma palette_packet_with_a_skip :
  exists table,
    parseOldPalette palettePayload = Ok (OldPalette table)
    /\ table = map (fun j => tripleAt palettePayload (2 + 3 * Z.of_nat j))
                 (seq 1 2)
    /\ length table = 2%nat.
Proof.
  exact (parseOldPalette_one_packet palettePayload 1 3 eq_refl eq_refl
           eq_refl).
Defined.

Lemma two_tags_counted :
  (2 <= 0 ->
   parseTagsChunk asciiToString (encodeTags twoTagFields)
   = Ok (TagsChunk []))
  /\ (forall chunk,
        parseTagsChunk asciiToString (encodeTags twoTagFields) = Ok chunk ->
        exists tags, chunk = TagsChunk tags
                     /\ length tags = Z.to_nat 2).
Proof.
  apply (parseTagsChunk_count asciiToString (encodeTags twoTagFields) 2).
  vm_compute. reflexivity.
Defined.

Lemma pstring_run_is_read :
  (0 <= 3 ->
   readPstring asciiToString (Sample.pstring "run") 0
   = Ok (asciiToString
           (firstn (Z.to_nat 3)
              (skipn (Z.to_nat (0 + 2)) (Sample.pstring "run")))))
  /\ (3 < 0 -> 0 <= 0 + 2 + 3 ->
      readPstring asciiToString (Sample.pstring "run") 0
      = Ok (asciiToString [])).
Proof.
  apply (readPstring_slice asciiToString (Sample.pstring "run") 0 3).
  - lia.
  - vm_compute. reflexivity.
Defined.

Lemma hero_frame_0_cursor :
  exists frame n,
    frameParser (subarray Sample.hero 128 (128 + 16)) = Ok frame
    /\ n = Z.to_nat (if chunk_count frame =? 0 then chunk_count_old frame
                     else chunk_count frame)
    /\ fst (fst heroFrame0)
       = 128 + 16 + sum (declaredSizes Sample.hero (128 + 16) n)
    /\ length (snd (fst heroFrame0)) = S (length (@nil AseFrame)).
Proof.
  apply (parseFrame_cursor asciiToString noInflate Sample.hero 128 [] []
           heroFrame0).
  vm_compute. reflexivity.
Defined.

Lemma hero_types :
  NoDup (types heroParsed)
  /\ forall t, In t (types heroParsed) ->
               ~ In t [0x0004; 0x2004; 0x2005; 0x2007; 0x2018; 0x2020].
Proof.
  apply (parseFile_types asciiToString noInflate Sample.hero heroParsed).
  vm_compute. reflexivity.
Defined.

Lemma hero_representatives_are_packed :
  exists parsed uniquecells,
    parse Sample.hero = Ok parsed
    /\ let layers := layersOf (frames parsed) in
       let layerid := layeridOf layers in
       let cells := cellsOf (frames parsed) (length layers) layerid in
       uniquecellsOf layers cells
         (added (dedup (map (fun e => crc32 (Cel.pixels e)) cells)))
       = Ok uniquecells
       /\ forall cel l,
            In cel cells -> In l layerid ->
            Cel.layeridx cel = Z.of_nat l -> Cel.width cel <> 0 ->
            exists r rep,
              representative crc32 cells cel = Some r
              /\ nth_error cells r = Some rep
              /\ In (r, rep) uniquecells
              /\ crc32 (Cel.pixels rep) = crc32 (Cel.pixels cel)
              /\ Cel.width rep <> 0
              /\ carriesUserData layers (Z.to_nat (Cel.layeridx rep)).
Proof.
  apply (generation_needs_packed_representatives asciiToString noInflate
           crc32 rowPack Sample.hero heroGenerated).
  - exact rowPack_packs_what_it_is_given.
  - vm_compute. reflexivity.
Defined.

Lemma hero_has_tags_and_texts :
  exists parsed,
    parse Sample.hero = Ok parsed
    /\ (exists frame c tags,
          In frame (frames parsed) /\ In c (chunks frame)
          /\ body c = TagsChunk tags)
    /\ forall layer,
         In layer (layersOf (frames parsed)) -> userdataOf layer <> [] ->
         exists ud uds text,
           userdata layer = Some (ud :: uds)
           /\ UserData.text ud = Some text.
Proof.
  apply (generation_needs_tags_and_texts asciiToString noInflate crc32
           rowPack Sample.hero true heroGenerated).
  vm_compute. reflexivity.
Defined.

Lemma hero_without_animdata :
  doGeneration asciiToString noInflate crc32 rowPack Sample.hero false
  = Ok (withoutAnimdata heroGenerated).
Proof.
  apply (generation_without_animdata asciiToString noInflate crc32 rowPack
           Sample.hero heroGenerated).
  vm_compute. reflexivity.
Defined.

Lemma sheet_of_two_cels :
  exists sheet,
    rasterise sheetCells sheetPacking = Ok sheet
    /\ byteLength sheet
       = pack_width sheetPacking * pack_height sheetPacking * 4
    /\ forall px py k,
         0 <= px < pack_width sheetPacking ->
         0 <= py < pack_height sheetPacking ->
         0 <= k < 4 ->
         pixelAt (pack_width sheetPacking) sheet px py k
         = Some (match find (fun it => covers sheetCells it px py)
                         (items sheetPacking)
                 with
                 | Some it => texel sheetCells it px py k
                 | None => x00
                 end).
Proof.
  apply (rasterise_places_every_cel sheetCells sheetPacking).
  vm_compute. reflexivity.
Defined.

Lemma cstring_hi :
  (4 <= byteLength (Sample.bytes [104; 105; 0; 33]) ->
   readCstring (Sample.bytes [104; 105; 0; 33]) 0 4
   = map byteZ
       (takeWhile nonZeroByte
          (subarray (Sample.bytes [104; 105; 0; 33]) 0 4)))
  /\ (byteLength (Sample.bytes [104; 105; 0; 33]) <= 0 ->
      readCstring (Sample.bytes [104; 105; 0; 33]) 0 4
      = repeat 0 (Z.to_nat (4 - 0))).
Proof.
  apply (readCstring_reads_to_terminator (Sample.bytes [104; 105; 0; 33])
           0 4).
  lia.
Defined.

Lemma two_tags_read_back :
  parseTagsChunk asciiToString
    (encodeTags twoTagFields ++ Sample.bytes [1; 2; 3])
  = Ok (TagsChunk (map (decodedTag asciiToString) twoTagFields)).
Proof.
  apply (parseTagsChunk_reads_back asciiToString twoTagFields
           (Sample.bytes [1; 2; 3])).
  - vm_compute. reflexivity.
  - vm_compute. reflexivity.
  - repeat constructor.
Defined.

End OnMoreSamples.
